(** * highlight-html-changes.py: the HTML diff and highlighting engine

    A shallow embedding of [HTMLDiffer] (src/.github/scripts/
    highlight-html-changes.py) together with the parts of Python's [re],
    [difflib] and [html] modules that it calls, and the properties of the
    specification checked against it.

    - A Python [str] is a sequence of code points: [str := list N].
    - A float ratio [2.0 * m / t] is the rational [2m / t] (type [Q]).  Two
      ratios of texts shorter than 2^25 characters compare as their floats
      do, and so do a ratio and one of the constants 0.5 and 0.99.
    - An exception is the outcome [Raised]; it aborts the enclosing loop.
      The exceptions of [re.sub] are modelled this way.  The ValueError of
      [html.unescape] on a decimal reference of more than 4300 digits is
      modelled apart, by the predicate [Html.unescape_raises]: the methods
      give the results of the runs in which it is not raised, and it is not
      raised on a document within the limit ([digits_within_limit]).
    - [re] is the module of Python 3.12: an unknown escape in a replacement
      template is an error (since 3.7).
    - [process_file] and [main] read and write files and print; they call
      [highlight_changed_elements] outside any [try], so what it raises
      leaves the script.  They are not modelled. *)

From Stdlib Require Import Ascii String.
From Stdlib Require Import List Bool Arith NArith ZArith QArith Lia.
From Stdlib Require Import Permutation Sorted.
Import ListNotations.

Local Open Scope nat_scope.
Local Open Scope list_scope.

(** ** Strings *)

Definition char := N.
Definition str := list char.

Definition chr (a : ascii) : char := N_of_ascii a.

(** [L "abc"] is the Python string 'abc' (ASCII literals only). *)
Definition L (s : string) : str := List.map N_of_ascii (list_ascii_of_string s).
Arguments L s%_string.
Arguments chr a%_char.

(** The double quote character, and [Lq], which reads a literal in which
    every apostrophe stands for a double quote. *)
Definition dquote : char := 34%N.
Definition Lq (s : string) : str :=
  List.map (fun c => if N.eqb c 39 then dquote else c) (L s).
Arguments Lq s%_string.

Definition str_eqb (a b : str) : bool :=
  if list_eq_dec N.eq_dec a b then true else false.

(** [str.isspace] for one character, which is also the class [\s] of a
    Unicode pattern. *)
Definition isspace (c : char) : bool :=
  existsb (N.eqb c)
    [9; 10; 11; 12; 13; 28; 29; 30; 31; 32; 133; 160; 5760;
     8192; 8193; 8194; 8195; 8196; 8197; 8198; 8199; 8200; 8201; 8202;
     8232; 8233; 8239; 8287; 12288]%N.

Fixpoint lstrip (s : str) : str :=
  match s with
  | c :: s' => if isspace c then lstrip s' else s
  | [] => []
  end.

Definition rstrip (s : str) : str := rev (lstrip (rev s)).

(** [s.strip()] *)
Definition strip (s : str) : str := rstrip (lstrip s).

(** [s[a:b]] for [0 <= a] and [0 <= b]. *)
Definition slice (a b : nat) (s : str) : str := firstn (b - a) (skipn a s).

(** [''.join(l)] *)
Definition join (l : list str) : str := List.concat l.

(** [x in s] for a character. *)
Definition has_char (x : char) (s : str) : bool := existsb (N.eqb x) s.

(** Truth value of a string: [not s] holds of the empty string. *)
Definition nonempty (s : str) : bool :=
  match s with [] => false | _ :: _ => true end.

(** ** Outcomes of a call that can raise *)

Inductive outcome (A : Type) : Type :=
| Returned (a : A)
| Raised (exn : str).
Arguments Returned {A} a.
Arguments Raised {A} exn.

Definition bind {A B} (m : outcome A) (f : A -> outcome B) : outcome B :=
  match m with
  | Returned a => f a
  | Raised e => Raised e
  end.

(** ** The [re] module: a backtracking matcher

    The patterns of the script use literals, character classes, a class
    repeated greedily or lazily, sequence, alternation and capture groups
    (every repetition in them is over a single character class).
    [run] follows the order in which a backtracking matcher tries the
    alternatives, so the first success is the match Python reports. *)

Module Re.

Inductive regex : Type :=
| Lit (s : str)                                      (* abc *)
| One (p : char -> bool)                             (* [...] *)
| Rep (p : char -> bool) (lo : nat) (hi : option nat) (greedy : bool)
                                    (* [...]{lo,hi}, greedy or lazy *)
| Cat (r1 r2 : regex)
| Alt (r1 r2 : regex)                                (* r1|r2 *)
| Grp (n : nat) (r : regex).                         (* (r), group n *)

Definition caps := list (nat * str).

Fixpoint strip_prefix (p s : str) : option str :=
  match p, s with
  | [], _ => Some s
  | x :: p', y :: s' => if N.eqb x y then strip_prefix p' s' else None
  | _ :: _, [] => None
  end.

Section Run.
Context {A : Type}.

Fixpoint rep (p : char -> bool) (greedy : bool) (lo : nat) (hi : option nat)
    (s : str) (k : str -> option A) : option A :=
  let stop (_ : unit) := match lo with O => k s | S _ => None end in
  match s with
  | [] => stop tt
  | x :: s' =>
      let more (_ : unit) :=
        match hi with
        | Some O => None
        | _ => if p x then rep p greedy (pred lo) (option_map pred hi) s' k
               else None
        end in
      if greedy then
        match more tt with
        | Some a => Some a
        | None => stop tt
        end
      else
        match stop tt with
        | Some a => Some a
        | None => more tt
        end
  end.

Fixpoint run (r : regex) (s : str) (c : caps)
    (k : str -> caps -> option A) : option A :=
  match r with
  | Lit l => match strip_prefix l s with
             | Some s' => k s' c
             | None => None
             end
  | One p => match s with
             | x :: s' => if p x then k s' c else None
             | [] => None
             end
  | Rep p lo hi greedy => rep p greedy lo hi s (fun s' => k s' c)
  | Cat r1 r2 => run r1 s c (fun s' c' => run r2 s' c' k)
  | Alt r1 r2 => match run r1 s c k with
                 | Some a => Some a
                 | None => run r2 s c k
                 end
  | Grp n r1 =>
      run r1 s c
        (fun s' c' => k s' ((n, firstn (length s - length s') s) :: c'))
  end.
End Run.

Definition cat (l : list regex) : regex := fold_right Cat (Lit []) l.
Definition star (p : char -> bool) : regex := Rep p 0 None true.       (* [..]* *)
Definition plus (p : char -> bool) : regex := Rep p 1 None true.       (* [..]+ *)
Definition lazy_star (p : char -> bool) : regex := Rep p 0 None false. (* [..]*? *)
Definition opt (r : regex) : regex := Alt r (Lit []).                  (* r? *)

Definition any (_ : char) : bool := true.            (* . with re.DOTALL *)
Definition only (x : char) (c : char) : bool := N.eqb c x.
Definition except (x : char) (c : char) : bool := negb (N.eqb c x).
Definition among (l : str) (c : char) : bool := existsb (N.eqb c) l.
Definition between (lo hi : char) (c : char) : bool :=
  (N.leb lo c && N.leb c hi)%bool.

(** A match: its text and its groups. *)
Record mtch := { text : str; groups : caps }.

(** [m.group(n)] *)
Fixpoint lookup (n : nat) (c : caps) : str :=
  match c with
  | [] => []
  | (m, v) :: c' => if Nat.eqb m n then v else lookup n c'
  end.
Definition group (n : nat) (m : mtch) : str := lookup n (groups m).

(** [re.match(r, s)]: a match that starts at the first character. *)
Definition match_ (r : regex) (s : str) : option mtch :=
  run r s []
    (fun s' c => Some {| text := firstn (length s - length s') s;
                         groups := c |}).

(** The scan shared by [findall], [search] and [sub]: the string cut into
    the characters outside every match and the matches, leftmost first and
    non-overlapping.  [skip] counts the characters still covered by the
    last match. *)
Inductive piece : Type :=
| Plain (x : char)
| Match (m : mtch).

Fixpoint pieces (r : regex) (skip : nat) (s : str) : list piece :=
  match skip with
  | S n => match s with
           | [] => []
           | _ :: s' => pieces r n s'
           end
  | O =>
      match match_ r s with
      | Some m =>
          Match m :: match s with
                     | [] => []
                     | x :: s' =>
                         match text m with
                         | [] => Plain x :: pieces r 0 s'
                         | _ :: t => pieces r (length t) s'
                         end
                     end
      | None => match s with
                | [] => []
                | x :: s' => Plain x :: pieces r 0 s'
                end
      end
  end.

Definition matches (ps : list piece) : list mtch :=
  flat_map (fun p => match p with Match m => [m] | Plain _ => [] end) ps.

(** [re.findall(r, s)] for a pattern whose only group, if any, is the whole
    pattern: the texts of the matches. *)
Definition findall (r : regex) (s : str) : list str :=
  List.map text (matches (pieces r 0 s)).

(** [re.search(r, s)] *)
Definition search (r : regex) (s : str) : option mtch :=
  hd_error (matches (pieces r 0 s)).

(** [re.sub(r, f, s)] with a function [f] as replacement. *)
Definition sub_fun (r : regex) (f : mtch -> str) (s : str) : str :=
  flat_map (fun p => match p with Match m => f m | Plain x => [x] end)
           (pieces r 0 s).

(** The same with [count=1]: only the first match is replaced. *)
Fixpoint sub_first (f : mtch -> str) (ps : list piece) : str :=
  match ps with
  | [] => []
  | Plain x :: ps' => x :: sub_first f ps'
  | Match m :: ps' =>
      f m ++ flat_map (fun p => match p with
                                | Match m' => text m'
                                | Plain x => [x]
                                end) ps'
  end.


(** *** Replacement templates

    [re.sub(pattern, repl, s)] with a string [repl] that holds a backslash
    compiles [repl] as a template before it looks for a match
    ([parse_template]), for a pattern without groups: [\g<0>] is the whole
    match, a reference to another group is an error, [\a \b \f \n \r \t \v]
    and [\\] are the control characters and the backslash, another ASCII
    letter after a backslash is an error, and any other escaped character
    stays with its backslash.  Group names follow Python 3.12 (ASCII digits
    only). *)

Inductive titem : Type :=
| TChar (c : char)
| TGroup0.

Inductive tmode : Type :=
| Normal
| InName (name : str).

Definition backslash : char := 92%N.

Definition octdigit (c : char) : bool := between (chr "0") (chr "7") c.
Definition digit (c : char) : bool := between (chr "0") (chr "9") c.
Definition asciiletter (c : char) : bool :=
  (between (chr "a") (chr "z") c || between (chr "A") (chr "Z") c)%bool.

Definition escapes (c : char) : option char :=
  if N.eqb c (chr "a") then Some 7%N
  else if N.eqb c (chr "b") then Some 8%N
  else if N.eqb c (chr "f") then Some 12%N
  else if N.eqb c (chr "n") then Some 10%N
  else if N.eqb c (chr "r") then Some 13%N
  else if N.eqb c (chr "t") then Some 9%N
  else if N.eqb c (chr "v") then Some 11%N
  else if N.eqb c backslash then Some backslash
  else None.

Definition oct (c : char) : N := (c - 48)%N.

Definition tcons (x : titem) (m : outcome (list titem)) : outcome (list titem) :=
  bind m (fun l => Returned (x :: l)).

Fixpoint parse_template (mode : tmode) (s : str) : outcome (list titem) :=
  match mode, s with
  | InName _, [] => Raised (L "re.error: missing >, unterminated name")
  | InName name, c :: s' =>
      if N.eqb c (chr ">") then
        match name with
        | [] => Raised (L "re.error: missing group name")
        | _ :: _ =>
            if forallb digit name then
              if forallb (only (chr "0")) name
              then tcons TGroup0 (parse_template Normal s')
              else Raised (L "re.error: invalid group reference")
            else Raised (L "bad or unknown group name")
        end
      else parse_template (InName (name ++ [c])) s'
  | Normal, [] => Returned []
  | Normal, c :: s' =>
      if negb (N.eqb c backslash) then tcons (TChar c) (parse_template Normal s')
      else
        match s' with
        | [] => Raised (L "re.error: bad escape (end of pattern)")
        | e :: s2 =>
            if N.eqb e (chr "g") then
              match s2 with
              | lt :: s3 =>
                  if N.eqb lt (chr "<") then parse_template (InName []) s3
                  else Raised (L "re.error: missing <")
              | [] => Raised (L "re.error: missing <")
              end
            else if N.eqb e (chr "0") then
              match s2 with
              | d1 :: s3 =>
                  if octdigit d1 then
                    match s3 with
                    | d2 :: s4 =>
                        if octdigit d2
                        then tcons (TChar (N.land (oct d1 * 8 + oct d2) 255))
                                   (parse_template Normal s4)
                        else tcons (TChar (oct d1)) (parse_template Normal s3)
                    | [] => tcons (TChar (oct d1)) (parse_template Normal s3)
                    end
                  else tcons (TChar 0%N) (parse_template Normal s2)
              | [] => tcons (TChar 0%N) (parse_template Normal s2)
              end
            else if digit e then
              match s2 with
              | d1 :: d2 :: s4 =>
                  if (digit d1 && octdigit e && octdigit d1 && octdigit d2)%bool
                  then
                    let c8 := (oct e * 64 + oct d1 * 8 + oct d2)%N in
                    if (255 <? c8)%N
                    then Raised (L "re.error: octal escape value outside of range 0-0o377")
                    else tcons (TChar c8) (parse_template Normal s4)
                  else Raised (L "re.error: invalid group reference")
              | _ => Raised (L "re.error: invalid group reference")
              end
            else
              match escapes e with
              | Some x => tcons (TChar x) (parse_template Normal s2)
              | None =>
                  if asciiletter e then Raised (L "re.error: bad escape")
                  else tcons (TChar backslash)
                             (tcons (TChar e) (parse_template Normal s2))
              end
        end
  end.

Definition expand (t : list titem) (m : mtch) : str :=
  flat_map (fun x => match x with TChar c => [c] | TGroup0 => text m end) t.

(** [re.sub(re.escape(lit), repl, s, count=1)]: the escaped pattern matches
    the text [lit] and nothing else. *)
Definition sub_literal_once (lit repl s : str) : outcome str :=
  if has_char backslash repl then
    bind (parse_template Normal repl)
         (fun t => Returned (sub_first (expand t) (pieces (Lit lit) 0 s)))
  else Returned (sub_first (fun _ => repl) (pieces (Lit lit) 0 s)).

(** [re.sub(r, repl, s)] for a replacement without backslash. *)
Definition sub_plain (r : regex) (repl : str) (s : str) : str :=
  sub_fun r (fun _ => repl) s.

End Re.

(** ** [difflib.SequenceMatcher]

    [SequenceMatcher(None, a, b)]: no junk predicate, [autojunk] on.  The
    elements are compared with [eqb] (characters for [ratio] over two texts,
    words for the opcodes over two word lists). *)

Module Difflib.

Inductive tag : Type := Replace | Delete | Insert | Equal.

(** A dict with [nat] keys, as the list of its assignments (latest first). *)
Definition dict := list (nat * nat).

Fixpoint dict_get (d : dict) (j : nat) (default : nat) : nat :=
  match d with
  | [] => default
  | (j', k) :: d' => if Nat.eqb j' j then k else dict_get d' j default
  end.

Definition dict_set (d : dict) (j k : nat) : dict := (j, k) :: d.

Definition block := (nat * nat * nat)%type.

(** Tuples of integers compare lexicographically. *)
Definition block_leb (x y : block) : bool :=
  let '(i1, j1, k1) := x in
  let '(i2, j2, k2) := y in
  (i1 <? i2) || ((i1 =? i2) && ((j1 <? j2) || ((j1 =? j2) && (k1 <=? k2)))).

Fixpoint insert_block (x : block) (l : list block) : list block :=
  match l with
  | [] => [x]
  | y :: l' => if block_leb x y then x :: l else y :: insert_block x l'
  end.

(** [matching_blocks.sort()] *)
Definition sort_blocks (l : list block) : list block :=
  fold_right insert_block [] l.

Section SequenceMatcher.
Context {A : Type}.
Variable eqb : A -> A -> bool.
Variables a b : list A.

(** The positions of [x] in [l], ascending, counted from [i]. *)
Fixpoint indices (x : A) (l : list A) (i : nat) : list nat :=
  match l with
  | [] => []
  | y :: l' => if eqb y x then i :: indices x l' (S i) else indices x l' (S i)
  end.

(** [__chain_b]: with [n = len(b) >= 200], an element that occurs more
    than [n // 100 + 1] times is popular and loses its entry of [b2j]. *)
Definition popular (x : A) : bool :=
  (200 <=? length b) && (length b / 100 + 1 <? length (indices x b 0)).

(** [b2j.get(x, [])] *)
Definition b2j (x : A) : list nat :=
  if popular x then [] else indices x b 0.

(** The loop [for j in b2j.get(a[i], nothing)] of [find_longest_match];
    [break] leaves it. *)
Fixpoint row (js : list nat) (i blo bhi : nat) (j2len newj2len : dict)
    (best : block) : dict * block :=
  match js with
  | [] => (newj2len, best)
  | j :: js' =>
      if j <? blo then row js' i blo bhi j2len newj2len best
      else if bhi <=? j then (newj2len, best)
      else
        let k := (match j with O => 0 | S j' => dict_get j2len j' 0 end) + 1 in
        let '(_, _, bestsize) := best in
        row js' i blo bhi j2len (dict_set newj2len j k)
            (if bestsize <? k then (i + 1 - k, j + 1 - k, k) else best)
  end.

(** The loop [for i in range(alo, ahi)]. *)
Fixpoint rows (is_ : list nat) (blo bhi : nat) (j2len : dict) (best : block)
    : block :=
  match is_ with
  | [] => best
  | i :: is' =>
      match nth_error a i with
      | Some x =>
          let '(newj2len, best') := row (b2j x) i blo bhi j2len [] best in
          rows is' blo bhi newj2len best'
      | None => best
      end
  end.

Definition same_at (i j : nat) : bool :=
  match nth_error a i, nth_error b j with
  | Some x, Some y => eqb x y
  | _, _ => false
  end.

(** [while besti > alo and bestj > blo and a[besti-1] == b[bestj-1]] *)
Fixpoint extend_left (alo blo besti bestj bestsize : nat) : block :=
  match besti with
  | O => (besti, bestj, bestsize)
  | S i' =>
      if (alo <? besti) && (blo <? bestj) && same_at i' (bestj - 1)
      then extend_left alo blo i' (bestj - 1) (bestsize + 1)
      else (besti, bestj, bestsize)
  end.

(** [while besti+bestsize < ahi and bestj+bestsize < bhi and
    a[besti+bestsize] == b[bestj+bestsize]]; [gap] is
    [ahi - (besti+bestsize)]. *)
Fixpoint extend_right (gap bhi besti bestj bestsize : nat) : block :=
  match gap with
  | O => (besti, bestj, bestsize)
  | S g =>
      if (bestj + bestsize <? bhi)
         && same_at (besti + bestsize) (bestj + bestsize)
      then extend_right g bhi besti bestj (bestsize + 1)
      else (besti, bestj, bestsize)
  end.

(** [find_longest_match(alo, ahi, blo, bhi)].  The set [bjunk] is empty,
    so the two loops that extend the match by junk do nothing. *)
Definition find_longest_match (alo ahi blo bhi : nat) : block :=
  let '(besti, bestj, bestsize) :=
    rows (seq alo (ahi - alo)) blo bhi [] (alo, blo, 0) in
  let '(besti, bestj, bestsize) :=
    extend_left alo blo besti bestj bestsize in
  extend_right (ahi - (besti + bestsize)) bhi besti bestj bestsize.

(** The loop [while queue] of [get_matching_blocks]; the head of [queue]
    is the entry [queue.pop()] takes. *)
Fixpoint blocks_loop (fuel : nat) (queue : list (nat * nat * nat * nat))
    (matching_blocks : list block) : list block :=
  match fuel, queue with
  | S f, (alo, ahi, blo, bhi) :: queue' =>
      let '(i, j, k) := find_longest_match alo ahi blo bhi in
      if k =? 0 then blocks_loop f queue' matching_blocks
      else
        let q1 := if (alo <? i) && (blo <? j)
                  then (alo, i, blo, j) :: queue' else queue' in
        let q2 := if (i + k <? ahi) && (j + k <? bhi)
                  then (i + k, ahi, j + k, bhi) :: q1 else q1 in
        blocks_loop f q2 (matching_blocks ++ [(i, j, k)])
  | _, _ => matching_blocks
  end.

(** Collapse adjacent equal blocks. *)
Fixpoint collapse (l : list block) (i1 j1 k1 : nat) : list block :=
  match l with
  | [] => if k1 =? 0 then [] else [(i1, j1, k1)]
  | (i2, j2, k2) :: l' =>
      if (i1 + k1 =? i2) && (j1 + k1 =? j2)
      then collapse l' i1 j1 (k1 + k2)
      else (if k1 =? 0 then [] else [(i1, j1, k1)]) ++ collapse l' i2 j2 k2
  end.

(** [get_matching_blocks()].  An entry of the queue with [n] elements of
    [a] costs at most [2n + 1] rounds, so [2 * len(a) + 1] rounds empty
    the queue (lemma [blocks_loop_fuel]). *)
Definition get_matching_blocks : list block :=
  let la := length a in
  let lb := length b in
  let matching_blocks :=
    sort_blocks (blocks_loop (2 * la + 1) [(0, la, 0, lb)] []) in
  collapse matching_blocks 0 0 0 ++ [(la, lb, 0)].

(** [get_opcodes()] *)
Fixpoint opcodes (blocks : list block) (i j : nat)
    : list (tag * nat * nat * nat * nat) :=
  match blocks with
  | [] => []
  | (ai, bj, size) :: blocks' =>
      (if (i <? ai) && (j <? bj) then [(Replace, i, ai, j, bj)]
       else if i <? ai then [(Delete, i, ai, j, bj)]
       else if j <? bj then [(Insert, i, ai, j, bj)]
       else [])
      ++ (if size =? 0 then [] else [(Equal, ai, ai + size, bj, bj + size)])
      ++ opcodes blocks' (ai + size) (bj + size)
  end.

Definition get_opcodes : list (tag * nat * nat * nat * nat) :=
  opcodes get_matching_blocks 0 0.

(** [_calculate_ratio(matches, length)] *)
Definition calculate_ratio (matches length : nat) : Q :=
  match length with
  | O => 1
  | S _ => Z.of_nat (2 * matches) # Pos.of_nat length
  end.

(** [ratio()] *)
Definition ratio : Q :=
  let matches :=
    fold_right (fun t acc => let '(_, _, k) := t in k + acc) 0
               get_matching_blocks in
  calculate_ratio matches (length a + length b).

End SequenceMatcher.

End Difflib.

(** ** [html.unescape] and [html.escape]

    A string without ['&'] is returned as it is; otherwise every character
    reference matched by [_charref] is replaced by [_replace_charref].  The
    numeric and the named references follow the module, with its table
    [html5] of 2231 names.  The one exception [unescape] can raise, the
    ValueError of [int] on a decimal numeral of more than 4300 digits, is
    the predicate [unescape_raises]; [unescape] is the result otherwise. *)

Module Html.
Import Re.

Definition hexdigit (c : char) : bool :=
  (digit c || between (chr "a") (chr "f") c || between (chr "A") (chr "F") c)%bool.

(** [&(#[0-9]+;?|#[xX][0-9a-fA-F]+;?|[^\t\n\f <&#;]{1,32};?)] *)
Definition charref : regex :=
  cat [Lit (L "&");
       Grp 1
         (Alt (cat [Lit (L "#"); plus digit; opt (Lit (L ";"))])
         (Alt (cat [Lit (L "#"); One (among (L "xX")); plus hexdigit;
                    opt (Lit (L ";"))])
              (cat [Rep (fun c => negb (among [9; 10; 12; 32; 60; 38; 35; 59]%N c))
                        1 (Some 32) true;
                    opt (Lit (L ";"))])))].

Definition hexval (c : char) : N :=
  if digit c then (c - 48)%N
  else if between (chr "a") (chr "f") c then (c - 87)%N
  else (c - 55)%N.

(** [int(s.rstrip(';'), base)] for a run of digits followed by at most one
    semicolon, when [int] returns: in base 10 it refuses a numeral of more
    than [sys.int_max_str_digits] digits with a ValueError
    ([numeric_charref_raises]); base 16 has no limit. *)
Definition int_of (base : N) (s : str) : N :=
  fold_left (fun n c => if N.eqb c (chr ";") then n else (n * base + hexval c)%N)
            s 0%N.

Definition int_max_str_digits : nat := 4300.

Definition invalid_charrefs : list (N * N) :=
  [(0, 65533); (13, 13); (128, 8364); (129, 129); (130, 8218); (131, 402);
   (132, 8222); (133, 8230); (134, 8224); (135, 8225); (136, 710);
   (137, 8240); (138, 352); (139, 8249); (140, 338); (141, 141); (142, 381);
   (143, 143); (144, 144); (145, 8216); (146, 8217); (147, 8220);
   (148, 8221); (149, 8226); (150, 8211); (151, 8212); (152, 732);
   (153, 8482); (154, 353); (155, 8250); (156, 339); (157, 157); (158, 382);
   (159, 376)]%N.

Definition invalid_codepoints (n : N) : bool :=
  between 1%N 8%N n || between 14%N 31%N n || between 127%N 159%N n
  || between 64976%N 65007%N n || N.eqb n 11%N
  || (N.leb 65534%N (N.land n 65535%N) && N.leb n 1114111%N).

Fixpoint assoc {V} (eqb : str -> str -> bool) (k : str) (l : list (str * V))
    : option V :=
  match l with
  | [] => None
  | (k', v) :: l' => if eqb k' k then Some v else assoc eqb k l'
  end.

(** [html.entities.html5]: the 2231 named character references, with and
    without their semicolon, each with its code points. *)
Definition html5 : list (str * str) :=
  [(L "Aacute", [193%N]); (L "aacute", [225%N]); (L "Aacute;", [193%N]);
   (L "aacute;", [225%N]); (L "Abreve;", [258%N]); (L "abreve;", [259%N]);
   (L "ac;", [8766%N]); (L "acd;", [8767%N]); (L "acE;", [8766%N; 819%N]);
   (L "Acirc", [194%N]); (L "acirc", [226%N]); (L "Acirc;", [194%N]);
   (L "acirc;", [226%N]); (L "acute", [180%N]); (L "acute;", [180%N]);
   (L "Acy;", [1040%N]); (L "acy;", [1072%N]); (L "AElig", [198%N]);
   (L "aelig", [230%N]); (L "AElig;", [198%N]); (L "aelig;", [230%N]);
   (L "af;", [8289%N]); (L "Afr;", [120068%N]); (L "afr;", [120094%N]);
   (L "Agrave", [192%N]); (L "agrave", [224%N]); (L "Agrave;", [192%N]);
   (L "agrave;", [224%N]); (L "alefsym;", [8501%N]); (L "aleph;", [8501%N]);
   (L "Alpha;", [913%N]); (L "alpha;", [945%N]); (L "Amacr;", [256%N]);
   (L "amacr;", [257%N]); (L "amalg;", [10815%N]); (L "AMP", [38%N]);
   (L "amp", [38%N]); (L "AMP;", [38%N]); (L "amp;", [38%N]);
   (L "And;", [10835%N]); (L "and;", [8743%N]); (L "andand;", [10837%N]);
   (L "andd;", [10844%N]); (L "andslope;", [10840%N]); (L "andv;", [10842%N]);
   (L "ang;", [8736%N]); (L "ange;", [10660%N]); (L "angle;", [8736%N]);
   (L "angmsd;", [8737%N]); (L "angmsdaa;", [10664%N]);
   (L "angmsdab;", [10665%N]); (L "angmsdac;", [10666%N]);
   (L "angmsdad;", [10667%N]); (L "angmsdae;", [10668%N]);
   (L "angmsdaf;", [10669%N]); (L "angmsdag;", [10670%N]);
   (L "angmsdah;", [10671%N]); (L "angrt;", [8735%N]);
   (L "angrtvb;", [8894%N]); (L "angrtvbd;", [10653%N]);
   (L "angsph;", [8738%N]); (L "angst;", [197%N]); (L "angzarr;", [9084%N]);
   (L "Aogon;", [260%N]); (L "aogon;", [261%N]); (L "Aopf;", [120120%N]);
   (L "aopf;", [120146%N]); (L "ap;", [8776%N]); (L "apacir;", [10863%N]);
   (L "apE;", [10864%N]); (L "ape;", [8778%N]); (L "apid;", [8779%N]);
   (L "apos;", [39%N]); (L "ApplyFunction;", [8289%N]);
   (L "approx;", [8776%N]); (L "approxeq;", [8778%N]); (L "Aring", [197%N]);
   (L "aring", [229%N]); (L "Aring;", [197%N]); (L "aring;", [229%N]);
   (L "Ascr;", [119964%N]); (L "ascr;", [119990%N]); (L "Assign;", [8788%N]);
   (L "ast;", [42%N]); (L "asymp;", [8776%N]); (L "asympeq;", [8781%N]);
   (L "Atilde", [195%N]); (L "atilde", [227%N]); (L "Atilde;", [195%N]);
   (L "atilde;", [227%N]); (L "Auml", [196%N]); (L "auml", [228%N]);
   (L "Auml;", [196%N]); (L "auml;", [228%N]); (L "awconint;", [8755%N]);
   (L "awint;", [10769%N]); (L "backcong;", [8780%N]);
   (L "backepsilon;", [1014%N]); (L "backprime;", [8245%N]);
   (L "backsim;", [8765%N]); (L "backsimeq;", [8909%N]);
   (L "Backslash;", [8726%N]); (L "Barv;", [10983%N]);
   (L "barvee;", [8893%N]); (L "Barwed;", [8966%N]); (L "barwed;", [8965%N]);
   (L "barwedge;", [8965%N]); (L "bbrk;", [9141%N]);
   (L "bbrktbrk;", [9142%N]); (L "bcong;", [8780%N]); (L "Bcy;", [1041%N]);
   (L "bcy;", [1073%N]); (L "bdquo;", [8222%N]); (L "becaus;", [8757%N]);
   (L "Because;", [8757%N]); (L "because;", [8757%N]);
   (L "bemptyv;", [10672%N]); (L "bepsi;", [1014%N]); (L "bernou;", [8492%N]);
   (L "Bernoullis;", [8492%N]); (L "Beta;", [914%N]); (L "beta;", [946%N]);
   (L "beth;", [8502%N]); (L "between;", [8812%N]); (L "Bfr;", [120069%N]);
   (L "bfr;", [120095%N]); (L "bigcap;", [8898%N]); (L "bigcirc;", [9711%N]);
   (L "bigcup;", [8899%N]); (L "bigodot;", [10752%N]);
   (L "bigoplus;", [10753%N]); (L "bigotimes;", [10754%N]);
   (L "bigsqcup;", [10758%N]); (L "bigstar;", [9733%N]);
   (L "bigtriangledown;", [9661%N]); (L "bigtriangleup;", [9651%N]);
   (L "biguplus;", [10756%N]); (L "bigvee;", [8897%N]);
   (L "bigwedge;", [8896%N]); (L "bkarow;", [10509%N]);
   (L "blacklozenge;", [10731%N]); (L "blacksquare;", [9642%N]);
   (L "blacktriangle;", [9652%N]); (L "blacktriangledown;", [9662%N]);
   (L "blacktriangleleft;", [9666%N]); (L "blacktriangleright;", [9656%N]);
   (L "blank;", [9251%N]); (L "blk12;", [9618%N]); (L "blk14;", [9617%N]);
   (L "blk34;", [9619%N]); (L "block;", [9608%N]); (L "bne;", [61%N; 8421%N]);
   (L "bnequiv;", [8801%N; 8421%N]); (L "bNot;", [10989%N]);
   (L "bnot;", [8976%N]); (L "Bopf;", [120121%N]); (L "bopf;", [120147%N]);
   (L "bot;", [8869%N]); (L "bottom;", [8869%N]); (L "bowtie;", [8904%N]);
   (L "boxbox;", [10697%N]); (L "boxDL;", [9559%N]); (L "boxDl;", [9558%N]);
   (L "boxdL;", [9557%N]); (L "boxdl;", [9488%N]); (L "boxDR;", [9556%N]);
   (L "boxDr;", [9555%N]); (L "boxdR;", [9554%N]); (L "boxdr;", [9484%N]);
   (L "boxH;", [9552%N]); (L "boxh;", [9472%N]); (L "boxHD;", [9574%N]);
   (L "boxHd;", [9572%N]); (L "boxhD;", [9573%N]); (L "boxhd;", [9516%N]);
   (L "boxHU;", [9577%N]); (L "boxHu;", [9575%N]); (L "boxhU;", [9576%N]);
   (L "boxhu;", [9524%N]); (L "boxminus;", [8863%N]);
   (L "boxplus;", [8862%N]); (L "boxtimes;", [8864%N]);
   (L "boxUL;", [9565%N]); (L "boxUl;", [9564%N]); (L "boxuL;", [9563%N]);
   (L "boxul;", [9496%N]); (L "boxUR;", [9562%N]); (L "boxUr;", [9561%N]);
   (L "boxuR;", [9560%N]); (L "boxur;", [9492%N]); (L "boxV;", [9553%N]);
   (L "boxv;", [9474%N]); (L "boxVH;", [9580%N]); (L "boxVh;", [9579%N]);
   (L "boxvH;", [9578%N]); (L "boxvh;", [9532%N]); (L "boxVL;", [9571%N]);
   (L "boxVl;", [9570%N]); (L "boxvL;", [9569%N]); (L "boxvl;", [9508%N]);
   (L "boxVR;", [9568%N]); (L "boxVr;", [9567%N]); (L "boxvR;", [9566%N]);
   (L "boxvr;", [9500%N]); (L "bprime;", [8245%N]); (L "Breve;", [728%N]);
   (L "breve;", [728%N]); (L "brvbar", [166%N]); (L "brvbar;", [166%N]);
   (L "Bscr;", [8492%N]); (L "bscr;", [119991%N]); (L "bsemi;", [8271%N]);
   (L "bsim;", [8765%N]); (L "bsime;", [8909%N]); (L "bsol;", [92%N]);
   (L "bsolb;", [10693%N]); (L "bsolhsub;", [10184%N]); (L "bull;", [8226%N]);
   (L "bullet;", [8226%N]); (L "bump;", [8782%N]); (L "bumpE;", [10926%N]);
   (L "bumpe;", [8783%N]); (L "Bumpeq;", [8782%N]); (L "bumpeq;", [8783%N]);
   (L "Cacute;", [262%N]); (L "cacute;", [263%N]); (L "Cap;", [8914%N]);
   (L "cap;", [8745%N]); (L "capand;", [10820%N]); (L "capbrcup;", [10825%N]);
   (L "capcap;", [10827%N]); (L "capcup;", [10823%N]);
   (L "capdot;", [10816%N]); (L "CapitalDifferentialD;", [8517%N]);
   (L "caps;", [8745%N; 65024%N]); (L "caret;", [8257%N]);
   (L "caron;", [711%N]); (L "Cayleys;", [8493%N]); (L "ccaps;", [10829%N]);
   (L "Ccaron;", [268%N]); (L "ccaron;", [269%N]); (L "Ccedil", [199%N]);
   (L "ccedil", [231%N]); (L "Ccedil;", [199%N]); (L "ccedil;", [231%N]);
   (L "Ccirc;", [264%N]); (L "ccirc;", [265%N]); (L "Cconint;", [8752%N]);
   (L "ccups;", [10828%N]); (L "ccupssm;", [10832%N]); (L "Cdot;", [266%N]);
   (L "cdot;", [267%N]); (L "cedil", [184%N]); (L "cedil;", [184%N]);
   (L "Cedilla;", [184%N]); (L "cemptyv;", [10674%N]); (L "cent", [162%N]);
   (L "cent;", [162%N]); (L "CenterDot;", [183%N]); (L "centerdot;", [183%N]);
   (L "Cfr;", [8493%N]); (L "cfr;", [120096%N]); (L "CHcy;", [1063%N]);
   (L "chcy;", [1095%N]); (L "check;", [10003%N]);
   (L "checkmark;", [10003%N]); (L "Chi;", [935%N]); (L "chi;", [967%N]);
   (L "cir;", [9675%N]); (L "circ;", [710%N]); (L "circeq;", [8791%N]);
   (L "circlearrowleft;", [8634%N]); (L "circlearrowright;", [8635%N]);
   (L "circledast;", [8859%N]); (L "circledcirc;", [8858%N]);
   (L "circleddash;", [8861%N]); (L "CircleDot;", [8857%N]);
   (L "circledR;", [174%N]); (L "circledS;", [9416%N]);
   (L "CircleMinus;", [8854%N]); (L "CirclePlus;", [8853%N]);
   (L "CircleTimes;", [8855%N]); (L "cirE;", [10691%N]);
   (L "cire;", [8791%N]); (L "cirfnint;", [10768%N]);
   (L "cirmid;", [10991%N]); (L "cirscir;", [10690%N]);
   (L "ClockwiseContourIntegral;", [8754%N]);
   (L "CloseCurlyDoubleQuote;", [8221%N]); (L "CloseCurlyQuote;", [8217%N]);
   (L "clubs;", [9827%N]); (L "clubsuit;", [9827%N]); (L "Colon;", [8759%N]);
   (L "colon;", [58%N]); (L "Colone;", [10868%N]); (L "colone;", [8788%N]);
   (L "coloneq;", [8788%N]); (L "comma;", [44%N]); (L "commat;", [64%N]);
   (L "comp;", [8705%N]); (L "compfn;", [8728%N]);
   (L "complement;", [8705%N]); (L "complexes;", [8450%N]);
   (L "cong;", [8773%N]); (L "congdot;", [10861%N]);
   (L "Congruent;", [8801%N]); (L "Conint;", [8751%N]);
   (L "conint;", [8750%N]); (L "ContourIntegral;", [8750%N]);
   (L "Copf;", [8450%N]); (L "copf;", [120148%N]); (L "coprod;", [8720%N]);
   (L "Coproduct;", [8720%N]); (L "COPY", [169%N]); (L "copy", [169%N]);
   (L "COPY;", [169%N]); (L "copy;", [169%N]); (L "copysr;", [8471%N]);
   (L "CounterClockwiseContourIntegral;", [8755%N]); (L "crarr;", [8629%N]);
   (L "Cross;", [10799%N]); (L "cross;", [10007%N]); (L "Cscr;", [119966%N]);
   (L "cscr;", [119992%N]); (L "csub;", [10959%N]); (L "csube;", [10961%N]);
   (L "csup;", [10960%N]); (L "csupe;", [10962%N]); (L "ctdot;", [8943%N]);
   (L "cudarrl;", [10552%N]); (L "cudarrr;", [10549%N]);
   (L "cuepr;", [8926%N]); (L "cuesc;", [8927%N]); (L "cularr;", [8630%N]);
   (L "cularrp;", [10557%N]); (L "Cup;", [8915%N]); (L "cup;", [8746%N]);
   (L "cupbrcap;", [10824%N]); (L "CupCap;", [8781%N]);
   (L "cupcap;", [10822%N]); (L "cupcup;", [10826%N]);
   (L "cupdot;", [8845%N]); (L "cupor;", [10821%N]);
   (L "cups;", [8746%N; 65024%N]); (L "curarr;", [8631%N]);
   (L "curarrm;", [10556%N]); (L "curlyeqprec;", [8926%N]);
   (L "curlyeqsucc;", [8927%N]); (L "curlyvee;", [8910%N]);
   (L "curlywedge;", [8911%N]); (L "curren", [164%N]); (L "curren;", [164%N]);
   (L "curvearrowleft;", [8630%N]); (L "curvearrowright;", [8631%N]);
   (L "cuvee;", [8910%N]); (L "cuwed;", [8911%N]); (L "cwconint;", [8754%N]);
   (L "cwint;", [8753%N]); (L "cylcty;", [9005%N]); (L "Dagger;", [8225%N]);
   (L "dagger;", [8224%N]); (L "daleth;", [8504%N]); (L "Darr;", [8609%N]);
   (L "dArr;", [8659%N]); (L "darr;", [8595%N]); (L "dash;", [8208%N]);
   (L "Dashv;", [10980%N]); (L "dashv;", [8867%N]); (L "dbkarow;", [10511%N]);
   (L "dblac;", [733%N]); (L "Dcaron;", [270%N]); (L "dcaron;", [271%N]);
   (L "Dcy;", [1044%N]); (L "dcy;", [1076%N]); (L "DD;", [8517%N]);
   (L "dd;", [8518%N]); (L "ddagger;", [8225%N]); (L "ddarr;", [8650%N]);
   (L "DDotrahd;", [10513%N]); (L "ddotseq;", [10871%N]); (L "deg", [176%N]);
   (L "deg;", [176%N]); (L "Del;", [8711%N]); (L "Delta;", [916%N]);
   (L "delta;", [948%N]); (L "demptyv;", [10673%N]); (L "dfisht;", [10623%N]);
   (L "Dfr;", [120071%N]); (L "dfr;", [120097%N]); (L "dHar;", [10597%N]);
   (L "dharl;", [8643%N]); (L "dharr;", [8642%N]);
   (L "DiacriticalAcute;", [180%N]); (L "DiacriticalDot;", [729%N]);
   (L "DiacriticalDoubleAcute;", [733%N]); (L "DiacriticalGrave;", [96%N]);
   (L "DiacriticalTilde;", [732%N]); (L "diam;", [8900%N]);
   (L "Diamond;", [8900%N]); (L "diamond;", [8900%N]);
   (L "diamondsuit;", [9830%N]); (L "diams;", [9830%N]); (L "die;", [168%N]);
   (L "DifferentialD;", [8518%N]); (L "digamma;", [989%N]);
   (L "disin;", [8946%N]); (L "div;", [247%N]); (L "divide", [247%N]);
   (L "divide;", [247%N]); (L "divideontimes;", [8903%N]);
   (L "divonx;", [8903%N]); (L "DJcy;", [1026%N]); (L "djcy;", [1106%N]);
   (L "dlcorn;", [8990%N]); (L "dlcrop;", [8973%N]); (L "dollar;", [36%N]);
   (L "Dopf;", [120123%N]); (L "dopf;", [120149%N]); (L "Dot;", [168%N]);
   (L "dot;", [729%N]); (L "DotDot;", [8412%N]); (L "doteq;", [8784%N]);
   (L "doteqdot;", [8785%N]); (L "DotEqual;", [8784%N]);
   (L "dotminus;", [8760%N]); (L "dotplus;", [8724%N]);
   (L "dotsquare;", [8865%N]); (L "doublebarwedge;", [8966%N]);
   (L "DoubleContourIntegral;", [8751%N]); (L "DoubleDot;", [168%N]);
   (L "DoubleDownArrow;", [8659%N]); (L "DoubleLeftArrow;", [8656%N]);
   (L "DoubleLeftRightArrow;", [8660%N]); (L "DoubleLeftTee;", [10980%N]);
   (L "DoubleLongLeftArrow;", [10232%N]);
   (L "DoubleLongLeftRightArrow;", [10234%N]);
   (L "DoubleLongRightArrow;", [10233%N]); (L "DoubleRightArrow;", [8658%N]);
   (L "DoubleRightTee;", [8872%N]); (L "DoubleUpArrow;", [8657%N]);
   (L "DoubleUpDownArrow;", [8661%N]); (L "DoubleVerticalBar;", [8741%N]);
   (L "DownArrow;", [8595%N]); (L "Downarrow;", [8659%N]);
   (L "downarrow;", [8595%N]); (L "DownArrowBar;", [10515%N]);
   (L "DownArrowUpArrow;", [8693%N]); (L "DownBreve;", [785%N]);
   (L "downdownarrows;", [8650%N]); (L "downharpoonleft;", [8643%N]);
   (L "downharpoonright;", [8642%N]); (L "DownLeftRightVector;", [10576%N]);
   (L "DownLeftTeeVector;", [10590%N]); (L "DownLeftVector;", [8637%N]);
   (L "DownLeftVectorBar;", [10582%N]); (L "DownRightTeeVector;", [10591%N]);
   (L "DownRightVector;", [8641%N]); (L "DownRightVectorBar;", [10583%N]);
   (L "DownTee;", [8868%N]); (L "DownTeeArrow;", [8615%N]);
   (L "drbkarow;", [10512%N]); (L "drcorn;", [8991%N]);
   (L "drcrop;", [8972%N]); (L "Dscr;", [119967%N]); (L "dscr;", [119993%N]);
   (L "DScy;", [1029%N]); (L "dscy;", [1109%N]); (L "dsol;", [10742%N]);
   (L "Dstrok;", [272%N]); (L "dstrok;", [273%N]); (L "dtdot;", [8945%N]);
   (L "dtri;", [9663%N]); (L "dtrif;", [9662%N]); (L "duarr;", [8693%N]);
   (L "duhar;", [10607%N]); (L "dwangle;", [10662%N]); (L "DZcy;", [1039%N]);
   (L "dzcy;", [1119%N]); (L "dzigrarr;", [10239%N]); (L "Eacute", [201%N]);
   (L "eacute", [233%N]); (L "Eacute;", [201%N]); (L "eacute;", [233%N]);
   (L "easter;", [10862%N]); (L "Ecaron;", [282%N]); (L "ecaron;", [283%N]);
   (L "ecir;", [8790%N]); (L "Ecirc", [202%N]); (L "ecirc", [234%N]);
   (L "Ecirc;", [202%N]); (L "ecirc;", [234%N]); (L "ecolon;", [8789%N]);
   (L "Ecy;", [1069%N]); (L "ecy;", [1101%N]); (L "eDDot;", [10871%N]);
   (L "Edot;", [278%N]); (L "eDot;", [8785%N]); (L "edot;", [279%N]);
   (L "ee;", [8519%N]); (L "efDot;", [8786%N]); (L "Efr;", [120072%N]);
   (L "efr;", [120098%N]); (L "eg;", [10906%N]); (L "Egrave", [200%N]);
   (L "egrave", [232%N]); (L "Egrave;", [200%N]); (L "egrave;", [232%N]);
   (L "egs;", [10902%N]); (L "egsdot;", [10904%N]); (L "el;", [10905%N]);
   (L "Element;", [8712%N]); (L "elinters;", [9191%N]); (L "ell;", [8467%N]);
   (L "els;", [10901%N]); (L "elsdot;", [10903%N]); (L "Emacr;", [274%N]);
   (L "emacr;", [275%N]); (L "empty;", [8709%N]); (L "emptyset;", [8709%N]);
   (L "EmptySmallSquare;", [9723%N]); (L "emptyv;", [8709%N]);
   (L "EmptyVerySmallSquare;", [9643%N]); (L "emsp13;", [8196%N]);
   (L "emsp14;", [8197%N]); (L "emsp;", [8195%N]); (L "ENG;", [330%N]);
   (L "eng;", [331%N]); (L "ensp;", [8194%N]); (L "Eogon;", [280%N]);
   (L "eogon;", [281%N]); (L "Eopf;", [120124%N]); (L "eopf;", [120150%N]);
   (L "epar;", [8917%N]); (L "eparsl;", [10723%N]); (L "eplus;", [10865%N]);
   (L "epsi;", [949%N]); (L "Epsilon;", [917%N]); (L "epsilon;", [949%N]);
   (L "epsiv;", [1013%N]); (L "eqcirc;", [8790%N]); (L "eqcolon;", [8789%N]);
   (L "eqsim;", [8770%N]); (L "eqslantgtr;", [10902%N]);
   (L "eqslantless;", [10901%N]); (L "Equal;", [10869%N]);
   (L "equals;", [61%N]); (L "EqualTilde;", [8770%N]);
   (L "equest;", [8799%N]); (L "Equilibrium;", [8652%N]);
   (L "equiv;", [8801%N]); (L "equivDD;", [10872%N]);
   (L "eqvparsl;", [10725%N]); (L "erarr;", [10609%N]);
   (L "erDot;", [8787%N]); (L "Escr;", [8496%N]); (L "escr;", [8495%N]);
   (L "esdot;", [8784%N]); (L "Esim;", [10867%N]); (L "esim;", [8770%N]);
   (L "Eta;", [919%N]); (L "eta;", [951%N]); (L "ETH", [208%N]);
   (L "eth", [240%N]); (L "ETH;", [208%N]); (L "eth;", [240%N]);
   (L "Euml", [203%N]); (L "euml", [235%N]); (L "Euml;", [203%N]);
   (L "euml;", [235%N]); (L "euro;", [8364%N]); (L "excl;", [33%N]);
   (L "exist;", [8707%N]); (L "Exists;", [8707%N]);
   (L "expectation;", [8496%N]); (L "ExponentialE;", [8519%N]);
   (L "exponentiale;", [8519%N]); (L "fallingdotseq;", [8786%N]);
   (L "Fcy;", [1060%N]); (L "fcy;", [1092%N]); (L "female;", [9792%N]);
   (L "ffilig;", [64259%N]); (L "fflig;", [64256%N]);
   (L "ffllig;", [64260%N]); (L "Ffr;", [120073%N]); (L "ffr;", [120099%N]);
   (L "filig;", [64257%N]); (L "FilledSmallSquare;", [9724%N]);
   (L "FilledVerySmallSquare;", [9642%N]); (L "fjlig;", [102%N; 106%N]);
   (L "flat;", [9837%N]); (L "fllig;", [64258%N]); (L "fltns;", [9649%N]);
   (L "fnof;", [402%N]); (L "Fopf;", [120125%N]); (L "fopf;", [120151%N]);
   (L "ForAll;", [8704%N]); (L "forall;", [8704%N]); (L "fork;", [8916%N]);
   (L "forkv;", [10969%N]); (L "Fouriertrf;", [8497%N]);
   (L "fpartint;", [10765%N]); (L "frac12", [189%N]); (L "frac12;", [189%N]);
   (L "frac13;", [8531%N]); (L "frac14", [188%N]); (L "frac14;", [188%N]);
   (L "frac15;", [8533%N]); (L "frac16;", [8537%N]); (L "frac18;", [8539%N]);
   (L "frac23;", [8532%N]); (L "frac25;", [8534%N]); (L "frac34", [190%N]);
   (L "frac34;", [190%N]); (L "frac35;", [8535%N]); (L "frac38;", [8540%N]);
   (L "frac45;", [8536%N]); (L "frac56;", [8538%N]); (L "frac58;", [8541%N]);
   (L "frac78;", [8542%N]); (L "frasl;", [8260%N]); (L "frown;", [8994%N]);
   (L "Fscr;", [8497%N]); (L "fscr;", [119995%N]); (L "gacute;", [501%N]);
   (L "Gamma;", [915%N]); (L "gamma;", [947%N]); (L "Gammad;", [988%N]);
   (L "gammad;", [989%N]); (L "gap;", [10886%N]); (L "Gbreve;", [286%N]);
   (L "gbreve;", [287%N]); (L "Gcedil;", [290%N]); (L "Gcirc;", [284%N]);
   (L "gcirc;", [285%N]); (L "Gcy;", [1043%N]); (L "gcy;", [1075%N]);
   (L "Gdot;", [288%N]); (L "gdot;", [289%N]); (L "gE;", [8807%N]);
   (L "ge;", [8805%N]); (L "gEl;", [10892%N]); (L "gel;", [8923%N]);
   (L "geq;", [8805%N]); (L "geqq;", [8807%N]); (L "geqslant;", [10878%N]);
   (L "ges;", [10878%N]); (L "gescc;", [10921%N]); (L "gesdot;", [10880%N]);
   (L "gesdoto;", [10882%N]); (L "gesdotol;", [10884%N]);
   (L "gesl;", [8923%N; 65024%N]); (L "gesles;", [10900%N]);
   (L "Gfr;", [120074%N]); (L "gfr;", [120100%N]); (L "Gg;", [8921%N]);
   (L "gg;", [8811%N]); (L "ggg;", [8921%N]); (L "gimel;", [8503%N]);
   (L "GJcy;", [1027%N]); (L "gjcy;", [1107%N]); (L "gl;", [8823%N]);
   (L "gla;", [10917%N]); (L "glE;", [10898%N]); (L "glj;", [10916%N]);
   (L "gnap;", [10890%N]); (L "gnapprox;", [10890%N]); (L "gnE;", [8809%N]);
   (L "gne;", [10888%N]); (L "gneq;", [10888%N]); (L "gneqq;", [8809%N]);
   (L "gnsim;", [8935%N]); (L "Gopf;", [120126%N]); (L "gopf;", [120152%N]);
   (L "grave;", [96%N]); (L "GreaterEqual;", [8805%N]);
   (L "GreaterEqualLess;", [8923%N]); (L "GreaterFullEqual;", [8807%N]);
   (L "GreaterGreater;", [10914%N]); (L "GreaterLess;", [8823%N]);
   (L "GreaterSlantEqual;", [10878%N]); (L "GreaterTilde;", [8819%N]);
   (L "Gscr;", [119970%N]); (L "gscr;", [8458%N]); (L "gsim;", [8819%N]);
   (L "gsime;", [10894%N]); (L "gsiml;", [10896%N]); (L "GT", [62%N]);
   (L "gt", [62%N]); (L "GT;", [62%N]); (L "Gt;", [8811%N]);
   (L "gt;", [62%N]); (L "gtcc;", [10919%N]); (L "gtcir;", [10874%N]);
   (L "gtdot;", [8919%N]); (L "gtlPar;", [10645%N]);
   (L "gtquest;", [10876%N]); (L "gtrapprox;", [10886%N]);
   (L "gtrarr;", [10616%N]); (L "gtrdot;", [8919%N]);
   (L "gtreqless;", [8923%N]); (L "gtreqqless;", [10892%N]);
   (L "gtrless;", [8823%N]); (L "gtrsim;", [8819%N]);
   (L "gvertneqq;", [8809%N; 65024%N]); (L "gvnE;", [8809%N; 65024%N]);
   (L "Hacek;", [711%N]); (L "hairsp;", [8202%N]); (L "half;", [189%N]);
   (L "hamilt;", [8459%N]); (L "HARDcy;", [1066%N]); (L "hardcy;", [1098%N]);
   (L "hArr;", [8660%N]); (L "harr;", [8596%N]); (L "harrcir;", [10568%N]);
   (L "harrw;", [8621%N]); (L "Hat;", [94%N]); (L "hbar;", [8463%N]);
   (L "Hcirc;", [292%N]); (L "hcirc;", [293%N]); (L "hearts;", [9829%N]);
   (L "heartsuit;", [9829%N]); (L "hellip;", [8230%N]);
   (L "hercon;", [8889%N]); (L "Hfr;", [8460%N]); (L "hfr;", [120101%N]);
   (L "HilbertSpace;", [8459%N]); (L "hksearow;", [10533%N]);
   (L "hkswarow;", [10534%N]); (L "hoarr;", [8703%N]);
   (L "homtht;", [8763%N]); (L "hookleftarrow;", [8617%N]);
   (L "hookrightarrow;", [8618%N]); (L "Hopf;", [8461%N]);
   (L "hopf;", [120153%N]); (L "horbar;", [8213%N]);
   (L "HorizontalLine;", [9472%N]); (L "Hscr;", [8459%N]);
   (L "hscr;", [119997%N]); (L "hslash;", [8463%N]); (L "Hstrok;", [294%N]);
   (L "hstrok;", [295%N]); (L "HumpDownHump;", [8782%N]);
   (L "HumpEqual;", [8783%N]); (L "hybull;", [8259%N]);
   (L "hyphen;", [8208%N]); (L "Iacute", [205%N]); (L "iacute", [237%N]);
   (L "Iacute;", [205%N]); (L "iacute;", [237%N]); (L "ic;", [8291%N]);
   (L "Icirc", [206%N]); (L "icirc", [238%N]); (L "Icirc;", [206%N]);
   (L "icirc;", [238%N]); (L "Icy;", [1048%N]); (L "icy;", [1080%N]);
   (L "Idot;", [304%N]); (L "IEcy;", [1045%N]); (L "iecy;", [1077%N]);
   (L "iexcl", [161%N]); (L "iexcl;", [161%N]); (L "iff;", [8660%N]);
   (L "Ifr;", [8465%N]); (L "ifr;", [120102%N]); (L "Igrave", [204%N]);
   (L "igrave", [236%N]); (L "Igrave;", [204%N]); (L "igrave;", [236%N]);
   (L "ii;", [8520%N]); (L "iiiint;", [10764%N]); (L "iiint;", [8749%N]);
   (L "iinfin;", [10716%N]); (L "iiota;", [8489%N]); (L "IJlig;", [306%N]);
   (L "ijlig;", [307%N]); (L "Im;", [8465%N]); (L "Imacr;", [298%N]);
   (L "imacr;", [299%N]); (L "image;", [8465%N]); (L "ImaginaryI;", [8520%N]);
   (L "imagline;", [8464%N]); (L "imagpart;", [8465%N]);
   (L "imath;", [305%N]); (L "imof;", [8887%N]); (L "imped;", [437%N]);
   (L "Implies;", [8658%N]); (L "in;", [8712%N]); (L "incare;", [8453%N]);
   (L "infin;", [8734%N]); (L "infintie;", [10717%N]); (L "inodot;", [305%N]);
   (L "Int;", [8748%N]); (L "int;", [8747%N]); (L "intcal;", [8890%N]);
   (L "integers;", [8484%N]); (L "Integral;", [8747%N]);
   (L "intercal;", [8890%N]); (L "Intersection;", [8898%N]);
   (L "intlarhk;", [10775%N]); (L "intprod;", [10812%N]);
   (L "InvisibleComma;", [8291%N]); (L "InvisibleTimes;", [8290%N]);
   (L "IOcy;", [1025%N]); (L "iocy;", [1105%N]); (L "Iogon;", [302%N]);
   (L "iogon;", [303%N]); (L "Iopf;", [120128%N]); (L "iopf;", [120154%N]);
   (L "Iota;", [921%N]); (L "iota;", [953%N]); (L "iprod;", [10812%N]);
   (L "iquest", [191%N]); (L "iquest;", [191%N]); (L "Iscr;", [8464%N]);
   (L "iscr;", [119998%N]); (L "isin;", [8712%N]); (L "isindot;", [8949%N]);
   (L "isinE;", [8953%N]); (L "isins;", [8948%N]); (L "isinsv;", [8947%N]);
   (L "isinv;", [8712%N]); (L "it;", [8290%N]); (L "Itilde;", [296%N]);
   (L "itilde;", [297%N]); (L "Iukcy;", [1030%N]); (L "iukcy;", [1110%N]);
   (L "Iuml", [207%N]); (L "iuml", [239%N]); (L "Iuml;", [207%N]);
   (L "iuml;", [239%N]); (L "Jcirc;", [308%N]); (L "jcirc;", [309%N]);
   (L "Jcy;", [1049%N]); (L "jcy;", [1081%N]); (L "Jfr;", [120077%N]);
   (L "jfr;", [120103%N]); (L "jmath;", [567%N]); (L "Jopf;", [120129%N]);
   (L "jopf;", [120155%N]); (L "Jscr;", [119973%N]); (L "jscr;", [119999%N]);
   (L "Jsercy;", [1032%N]); (L "jsercy;", [1112%N]); (L "Jukcy;", [1028%N]);
   (L "jukcy;", [1108%N]); (L "Kappa;", [922%N]); (L "kappa;", [954%N]);
   (L "kappav;", [1008%N]); (L "Kcedil;", [310%N]); (L "kcedil;", [311%N]);
   (L "Kcy;", [1050%N]); (L "kcy;", [1082%N]); (L "Kfr;", [120078%N]);
   (L "kfr;", [120104%N]); (L "kgreen;", [312%N]); (L "KHcy;", [1061%N]);
   (L "khcy;", [1093%N]); (L "KJcy;", [1036%N]); (L "kjcy;", [1116%N]);
   (L "Kopf;", [120130%N]); (L "kopf;", [120156%N]); (L "Kscr;", [119974%N]);
   (L "kscr;", [120000%N]); (L "lAarr;", [8666%N]); (L "Lacute;", [313%N]);
   (L "lacute;", [314%N]); (L "laemptyv;", [10676%N]);
   (L "lagran;", [8466%N]); (L "Lambda;", [923%N]); (L "lambda;", [955%N]);
   (L "Lang;", [10218%N]); (L "lang;", [10216%N]); (L "langd;", [10641%N]);
   (L "langle;", [10216%N]); (L "lap;", [10885%N]);
   (L "Laplacetrf;", [8466%N]); (L "laquo", [171%N]); (L "laquo;", [171%N]);
   (L "Larr;", [8606%N]); (L "lArr;", [8656%N]); (L "larr;", [8592%N]);
   (L "larrb;", [8676%N]); (L "larrbfs;", [10527%N]);
   (L "larrfs;", [10525%N]); (L "larrhk;", [8617%N]); (L "larrlp;", [8619%N]);
   (L "larrpl;", [10553%N]); (L "larrsim;", [10611%N]);
   (L "larrtl;", [8610%N]); (L "lat;", [10923%N]); (L "lAtail;", [10523%N]);
   (L "latail;", [10521%N]); (L "late;", [10925%N]);
   (L "lates;", [10925%N; 65024%N]); (L "lBarr;", [10510%N]);
   (L "lbarr;", [10508%N]); (L "lbbrk;", [10098%N]); (L "lbrace;", [123%N]);
   (L "lbrack;", [91%N]); (L "lbrke;", [10635%N]); (L "lbrksld;", [10639%N]);
   (L "lbrkslu;", [10637%N]); (L "Lcaron;", [317%N]); (L "lcaron;", [318%N]);
   (L "Lcedil;", [315%N]); (L "lcedil;", [316%N]); (L "lceil;", [8968%N]);
   (L "lcub;", [123%N]); (L "Lcy;", [1051%N]); (L "lcy;", [1083%N]);
   (L "ldca;", [10550%N]); (L "ldquo;", [8220%N]); (L "ldquor;", [8222%N]);
   (L "ldrdhar;", [10599%N]); (L "ldrushar;", [10571%N]);
   (L "ldsh;", [8626%N]); (L "lE;", [8806%N]); (L "le;", [8804%N]);
   (L "LeftAngleBracket;", [10216%N]); (L "LeftArrow;", [8592%N]);
   (L "Leftarrow;", [8656%N]); (L "leftarrow;", [8592%N]);
   (L "LeftArrowBar;", [8676%N]); (L "LeftArrowRightArrow;", [8646%N]);
   (L "leftarrowtail;", [8610%N]); (L "LeftCeiling;", [8968%N]);
   (L "LeftDoubleBracket;", [10214%N]); (L "LeftDownTeeVector;", [10593%N]);
   (L "LeftDownVector;", [8643%N]); (L "LeftDownVectorBar;", [10585%N]);
   (L "LeftFloor;", [8970%N]); (L "leftharpoondown;", [8637%N]);
   (L "leftharpoonup;", [8636%N]); (L "leftleftarrows;", [8647%N]);
   (L "LeftRightArrow;", [8596%N]); (L "Leftrightarrow;", [8660%N]);
   (L "leftrightarrow;", [8596%N]); (L "leftrightarrows;", [8646%N]);
   (L "leftrightharpoons;", [8651%N]); (L "leftrightsquigarrow;", [8621%N]);
   (L "LeftRightVector;", [10574%N]); (L "LeftTee;", [8867%N]);
   (L "LeftTeeArrow;", [8612%N]); (L "LeftTeeVector;", [10586%N]);
   (L "leftthreetimes;", [8907%N]); (L "LeftTriangle;", [8882%N]);
   (L "LeftTriangleBar;", [10703%N]); (L "LeftTriangleEqual;", [8884%N]);
   (L "LeftUpDownVector;", [10577%N]); (L "LeftUpTeeVector;", [10592%N]);
   (L "LeftUpVector;", [8639%N]); (L "LeftUpVectorBar;", [10584%N]);
   (L "LeftVector;", [8636%N]); (L "LeftVectorBar;", [10578%N]);
   (L "lEg;", [10891%N]); (L "leg;", [8922%N]); (L "leq;", [8804%N]);
   (L "leqq;", [8806%N]); (L "leqslant;", [10877%N]); (L "les;", [10877%N]);
   (L "lescc;", [10920%N]); (L "lesdot;", [10879%N]);
   (L "lesdoto;", [10881%N]); (L "lesdotor;", [10883%N]);
   (L "lesg;", [8922%N; 65024%N]); (L "lesges;", [10899%N]);
   (L "lessapprox;", [10885%N]); (L "lessdot;", [8918%N]);
   (L "lesseqgtr;", [8922%N]); (L "lesseqqgtr;", [10891%N]);
   (L "LessEqualGreater;", [8922%N]); (L "LessFullEqual;", [8806%N]);
   (L "LessGreater;", [8822%N]); (L "lessgtr;", [8822%N]);
   (L "LessLess;", [10913%N]); (L "lesssim;", [8818%N]);
   (L "LessSlantEqual;", [10877%N]); (L "LessTilde;", [8818%N]);
   (L "lfisht;", [10620%N]); (L "lfloor;", [8970%N]); (L "Lfr;", [120079%N]);
   (L "lfr;", [120105%N]); (L "lg;", [8822%N]); (L "lgE;", [10897%N]);
   (L "lHar;", [10594%N]); (L "lhard;", [8637%N]); (L "lharu;", [8636%N]);
   (L "lharul;", [10602%N]); (L "lhblk;", [9604%N]); (L "LJcy;", [1033%N]);
   (L "ljcy;", [1113%N]); (L "Ll;", [8920%N]); (L "ll;", [8810%N]);
   (L "llarr;", [8647%N]); (L "llcorner;", [8990%N]);
   (L "Lleftarrow;", [8666%N]); (L "llhard;", [10603%N]);
   (L "lltri;", [9722%N]); (L "Lmidot;", [319%N]); (L "lmidot;", [320%N]);
   (L "lmoust;", [9136%N]); (L "lmoustache;", [9136%N]);
   (L "lnap;", [10889%N]); (L "lnapprox;", [10889%N]); (L "lnE;", [8808%N]);
   (L "lne;", [10887%N]); (L "lneq;", [10887%N]); (L "lneqq;", [8808%N]);
   (L "lnsim;", [8934%N]); (L "loang;", [10220%N]); (L "loarr;", [8701%N]);
   (L "lobrk;", [10214%N]); (L "LongLeftArrow;", [10229%N]);
   (L "Longleftarrow;", [10232%N]); (L "longleftarrow;", [10229%N]);
   (L "LongLeftRightArrow;", [10231%N]); (L "Longleftrightarrow;", [10234%N]);
   (L "longleftrightarrow;", [10231%N]); (L "longmapsto;", [10236%N]);
   (L "LongRightArrow;", [10230%N]); (L "Longrightarrow;", [10233%N]);
   (L "longrightarrow;", [10230%N]); (L "looparrowleft;", [8619%N]);
   (L "looparrowright;", [8620%N]); (L "lopar;", [10629%N]);
   (L "Lopf;", [120131%N]); (L "lopf;", [120157%N]); (L "loplus;", [10797%N]);
   (L "lotimes;", [10804%N]); (L "lowast;", [8727%N]); (L "lowbar;", [95%N]);
   (L "LowerLeftArrow;", [8601%N]); (L "LowerRightArrow;", [8600%N]);
   (L "loz;", [9674%N]); (L "lozenge;", [9674%N]); (L "lozf;", [10731%N]);
   (L "lpar;", [40%N]); (L "lparlt;", [10643%N]); (L "lrarr;", [8646%N]);
   (L "lrcorner;", [8991%N]); (L "lrhar;", [8651%N]);
   (L "lrhard;", [10605%N]); (L "lrm;", [8206%N]); (L "lrtri;", [8895%N]);
   (L "lsaquo;", [8249%N]); (L "Lscr;", [8466%N]); (L "lscr;", [120001%N]);
   (L "Lsh;", [8624%N]); (L "lsh;", [8624%N]); (L "lsim;", [8818%N]);
   (L "lsime;", [10893%N]); (L "lsimg;", [10895%N]); (L "lsqb;", [91%N]);
   (L "lsquo;", [8216%N]); (L "lsquor;", [8218%N]); (L "Lstrok;", [321%N]);
   (L "lstrok;", [322%N]); (L "LT", [60%N]); (L "lt", [60%N]);
   (L "LT;", [60%N]); (L "Lt;", [8810%N]); (L "lt;", [60%N]);
   (L "ltcc;", [10918%N]); (L "ltcir;", [10873%N]); (L "ltdot;", [8918%N]);
   (L "lthree;", [8907%N]); (L "ltimes;", [8905%N]); (L "ltlarr;", [10614%N]);
   (L "ltquest;", [10875%N]); (L "ltri;", [9667%N]); (L "ltrie;", [8884%N]);
   (L "ltrif;", [9666%N]); (L "ltrPar;", [10646%N]);
   (L "lurdshar;", [10570%N]); (L "luruhar;", [10598%N]);
   (L "lvertneqq;", [8808%N; 65024%N]); (L "lvnE;", [8808%N; 65024%N]);
   (L "macr", [175%N]); (L "macr;", [175%N]); (L "male;", [9794%N]);
   (L "malt;", [10016%N]); (L "maltese;", [10016%N]); (L "Map;", [10501%N]);
   (L "map;", [8614%N]); (L "mapsto;", [8614%N]); (L "mapstodown;", [8615%N]);
   (L "mapstoleft;", [8612%N]); (L "mapstoup;", [8613%N]);
   (L "marker;", [9646%N]); (L "mcomma;", [10793%N]); (L "Mcy;", [1052%N]);
   (L "mcy;", [1084%N]); (L "mdash;", [8212%N]); (L "mDDot;", [8762%N]);
   (L "measuredangle;", [8737%N]); (L "MediumSpace;", [8287%N]);
   (L "Mellintrf;", [8499%N]); (L "Mfr;", [120080%N]); (L "mfr;", [120106%N]);
   (L "mho;", [8487%N]); (L "micro", [181%N]); (L "micro;", [181%N]);
   (L "mid;", [8739%N]); (L "midast;", [42%N]); (L "midcir;", [10992%N]);
   (L "middot", [183%N]); (L "middot;", [183%N]); (L "minus;", [8722%N]);
   (L "minusb;", [8863%N]); (L "minusd;", [8760%N]);
   (L "minusdu;", [10794%N]); (L "MinusPlus;", [8723%N]);
   (L "mlcp;", [10971%N]); (L "mldr;", [8230%N]); (L "mnplus;", [8723%N]);
   (L "models;", [8871%N]); (L "Mopf;", [120132%N]); (L "mopf;", [120158%N]);
   (L "mp;", [8723%N]); (L "Mscr;", [8499%N]); (L "mscr;", [120002%N]);
   (L "mstpos;", [8766%N]); (L "Mu;", [924%N]); (L "mu;", [956%N]);
   (L "multimap;", [8888%N]); (L "mumap;", [8888%N]); (L "nabla;", [8711%N]);
   (L "Nacute;", [323%N]); (L "nacute;", [324%N]);
   (L "nang;", [8736%N; 8402%N]); (L "nap;", [8777%N]);
   (L "napE;", [10864%N; 824%N]); (L "napid;", [8779%N; 824%N]);
   (L "napos;", [329%N]); (L "napprox;", [8777%N]); (L "natur;", [9838%N]);
   (L "natural;", [9838%N]); (L "naturals;", [8469%N]); (L "nbsp", [160%N]);
   (L "nbsp;", [160%N]); (L "nbump;", [8782%N; 824%N]);
   (L "nbumpe;", [8783%N; 824%N]); (L "ncap;", [10819%N]);
   (L "Ncaron;", [327%N]); (L "ncaron;", [328%N]); (L "Ncedil;", [325%N]);
   (L "ncedil;", [326%N]); (L "ncong;", [8775%N]);
   (L "ncongdot;", [10861%N; 824%N]); (L "ncup;", [10818%N]);
   (L "Ncy;", [1053%N]); (L "ncy;", [1085%N]); (L "ndash;", [8211%N]);
   (L "ne;", [8800%N]); (L "nearhk;", [10532%N]); (L "neArr;", [8663%N]);
   (L "nearr;", [8599%N]); (L "nearrow;", [8599%N]);
   (L "nedot;", [8784%N; 824%N]); (L "NegativeMediumSpace;", [8203%N]);
   (L "NegativeThickSpace;", [8203%N]); (L "NegativeThinSpace;", [8203%N]);
   (L "NegativeVeryThinSpace;", [8203%N]); (L "nequiv;", [8802%N]);
   (L "nesear;", [10536%N]); (L "nesim;", [8770%N; 824%N]);
   (L "NestedGreaterGreater;", [8811%N]); (L "NestedLessLess;", [8810%N]);
   (L "NewLine;", [10%N]); (L "nexist;", [8708%N]); (L "nexists;", [8708%N]);
   (L "Nfr;", [120081%N]); (L "nfr;", [120107%N]);
   (L "ngE;", [8807%N; 824%N]); (L "nge;", [8817%N]); (L "ngeq;", [8817%N]);
   (L "ngeqq;", [8807%N; 824%N]); (L "ngeqslant;", [10878%N; 824%N]);
   (L "nges;", [10878%N; 824%N]); (L "nGg;", [8921%N; 824%N]);
   (L "ngsim;", [8821%N]); (L "nGt;", [8811%N; 8402%N]); (L "ngt;", [8815%N]);
   (L "ngtr;", [8815%N]); (L "nGtv;", [8811%N; 824%N]);
   (L "nhArr;", [8654%N]); (L "nharr;", [8622%N]); (L "nhpar;", [10994%N]);
   (L "ni;", [8715%N]); (L "nis;", [8956%N]); (L "nisd;", [8954%N]);
   (L "niv;", [8715%N]); (L "NJcy;", [1034%N]); (L "njcy;", [1114%N]);
   (L "nlArr;", [8653%N]); (L "nlarr;", [8602%N]); (L "nldr;", [8229%N]);
   (L "nlE;", [8806%N; 824%N]); (L "nle;", [8816%N]);
   (L "nLeftarrow;", [8653%N]); (L "nleftarrow;", [8602%N]);
   (L "nLeftrightarrow;", [8654%N]); (L "nleftrightarrow;", [8622%N]);
   (L "nleq;", [8816%N]); (L "nleqq;", [8806%N; 824%N]);
   (L "nleqslant;", [10877%N; 824%N]); (L "nles;", [10877%N; 824%N]);
   (L "nless;", [8814%N]); (L "nLl;", [8920%N; 824%N]);
   (L "nlsim;", [8820%N]); (L "nLt;", [8810%N; 8402%N]); (L "nlt;", [8814%N]);
   (L "nltri;", [8938%N]); (L "nltrie;", [8940%N]);
   (L "nLtv;", [8810%N; 824%N]); (L "nmid;", [8740%N]);
   (L "NoBreak;", [8288%N]); (L "NonBreakingSpace;", [160%N]);
   (L "Nopf;", [8469%N]); (L "nopf;", [120159%N]); (L "not", [172%N]);
   (L "Not;", [10988%N]); (L "not;", [172%N]); (L "NotCongruent;", [8802%N]);
   (L "NotCupCap;", [8813%N]); (L "NotDoubleVerticalBar;", [8742%N]);
   (L "NotElement;", [8713%N]); (L "NotEqual;", [8800%N]);
   (L "NotEqualTilde;", [8770%N; 824%N]); (L "NotExists;", [8708%N]);
   (L "NotGreater;", [8815%N]); (L "NotGreaterEqual;", [8817%N]);
   (L "NotGreaterFullEqual;", [8807%N; 824%N]);
   (L "NotGreaterGreater;", [8811%N; 824%N]); (L "NotGreaterLess;", [8825%N]);
   (L "NotGreaterSlantEqual;", [10878%N; 824%N]);
   (L "NotGreaterTilde;", [8821%N]); (L "NotHumpDownHump;", [8782%N; 824%N]);
   (L "NotHumpEqual;", [8783%N; 824%N]); (L "notin;", [8713%N]);
   (L "notindot;", [8949%N; 824%N]); (L "notinE;", [8953%N; 824%N]);
   (L "notinva;", [8713%N]); (L "notinvb;", [8951%N]);
   (L "notinvc;", [8950%N]); (L "NotLeftTriangle;", [8938%N]);
   (L "NotLeftTriangleBar;", [10703%N; 824%N]);
   (L "NotLeftTriangleEqual;", [8940%N]); (L "NotLess;", [8814%N]);
   (L "NotLessEqual;", [8816%N]); (L "NotLessGreater;", [8824%N]);
   (L "NotLessLess;", [8810%N; 824%N]);
   (L "NotLessSlantEqual;", [10877%N; 824%N]); (L "NotLessTilde;", [8820%N]);
   (L "NotNestedGreaterGreater;", [10914%N; 824%N]);
   (L "NotNestedLessLess;", [10913%N; 824%N]); (L "notni;", [8716%N]);
   (L "notniva;", [8716%N]); (L "notnivb;", [8958%N]);
   (L "notnivc;", [8957%N]); (L "NotPrecedes;", [8832%N]);
   (L "NotPrecedesEqual;", [10927%N; 824%N]);
   (L "NotPrecedesSlantEqual;", [8928%N]); (L "NotReverseElement;", [8716%N]);
   (L "NotRightTriangle;", [8939%N]);
   (L "NotRightTriangleBar;", [10704%N; 824%N]);
   (L "NotRightTriangleEqual;", [8941%N]);
   (L "NotSquareSubset;", [8847%N; 824%N]);
   (L "NotSquareSubsetEqual;", [8930%N]);
   (L "NotSquareSuperset;", [8848%N; 824%N]);
   (L "NotSquareSupersetEqual;", [8931%N]);
   (L "NotSubset;", [8834%N; 8402%N]); (L "NotSubsetEqual;", [8840%N]);
   (L "NotSucceeds;", [8833%N]); (L "NotSucceedsEqual;", [10928%N; 824%N]);
   (L "NotSucceedsSlantEqual;", [8929%N]);
   (L "NotSucceedsTilde;", [8831%N; 824%N]);
   (L "NotSuperset;", [8835%N; 8402%N]); (L "NotSupersetEqual;", [8841%N]);
   (L "NotTilde;", [8769%N]); (L "NotTildeEqual;", [8772%N]);
   (L "NotTildeFullEqual;", [8775%N]); (L "NotTildeTilde;", [8777%N]);
   (L "NotVerticalBar;", [8740%N]); (L "npar;", [8742%N]);
   (L "nparallel;", [8742%N]); (L "nparsl;", [11005%N; 8421%N]);
   (L "npart;", [8706%N; 824%N]); (L "npolint;", [10772%N]);
   (L "npr;", [8832%N]); (L "nprcue;", [8928%N]);
   (L "npre;", [10927%N; 824%N]); (L "nprec;", [8832%N]);
   (L "npreceq;", [10927%N; 824%N]); (L "nrArr;", [8655%N]);
   (L "nrarr;", [8603%N]); (L "nrarrc;", [10547%N; 824%N]);
   (L "nrarrw;", [8605%N; 824%N]); (L "nRightarrow;", [8655%N]);
   (L "nrightarrow;", [8603%N]); (L "nrtri;", [8939%N]);
   (L "nrtrie;", [8941%N]); (L "nsc;", [8833%N]); (L "nsccue;", [8929%N]);
   (L "nsce;", [10928%N; 824%N]); (L "Nscr;", [119977%N]);
   (L "nscr;", [120003%N]); (L "nshortmid;", [8740%N]);
   (L "nshortparallel;", [8742%N]); (L "nsim;", [8769%N]);
   (L "nsime;", [8772%N]); (L "nsimeq;", [8772%N]); (L "nsmid;", [8740%N]);
   (L "nspar;", [8742%N]); (L "nsqsube;", [8930%N]); (L "nsqsupe;", [8931%N]);
   (L "nsub;", [8836%N]); (L "nsubE;", [10949%N; 824%N]);
   (L "nsube;", [8840%N]); (L "nsubset;", [8834%N; 8402%N]);
   (L "nsubseteq;", [8840%N]); (L "nsubseteqq;", [10949%N; 824%N]);
   (L "nsucc;", [8833%N]); (L "nsucceq;", [10928%N; 824%N]);
   (L "nsup;", [8837%N]); (L "nsupE;", [10950%N; 824%N]);
   (L "nsupe;", [8841%N]); (L "nsupset;", [8835%N; 8402%N]);
   (L "nsupseteq;", [8841%N]); (L "nsupseteqq;", [10950%N; 824%N]);
   (L "ntgl;", [8825%N]); (L "Ntilde", [209%N]); (L "ntilde", [241%N]);
   (L "Ntilde;", [209%N]); (L "ntilde;", [241%N]); (L "ntlg;", [8824%N]);
   (L "ntriangleleft;", [8938%N]); (L "ntrianglelefteq;", [8940%N]);
   (L "ntriangleright;", [8939%N]); (L "ntrianglerighteq;", [8941%N]);
   (L "Nu;", [925%N]); (L "nu;", [957%N]); (L "num;", [35%N]);
   (L "numero;", [8470%N]); (L "numsp;", [8199%N]);
   (L "nvap;", [8781%N; 8402%N]); (L "nVDash;", [8879%N]);
   (L "nVdash;", [8878%N]); (L "nvDash;", [8877%N]); (L "nvdash;", [8876%N]);
   (L "nvge;", [8805%N; 8402%N]); (L "nvgt;", [62%N; 8402%N]);
   (L "nvHarr;", [10500%N]); (L "nvinfin;", [10718%N]);
   (L "nvlArr;", [10498%N]); (L "nvle;", [8804%N; 8402%N]);
   (L "nvlt;", [60%N; 8402%N]); (L "nvltrie;", [8884%N; 8402%N]);
   (L "nvrArr;", [10499%N]); (L "nvrtrie;", [8885%N; 8402%N]);
   (L "nvsim;", [8764%N; 8402%N]); (L "nwarhk;", [10531%N]);
   (L "nwArr;", [8662%N]); (L "nwarr;", [8598%N]); (L "nwarrow;", [8598%N]);
   (L "nwnear;", [10535%N]); (L "Oacute", [211%N]); (L "oacute", [243%N]);
   (L "Oacute;", [211%N]); (L "oacute;", [243%N]); (L "oast;", [8859%N]);
   (L "ocir;", [8858%N]); (L "Ocirc", [212%N]); (L "ocirc", [244%N]);
   (L "Ocirc;", [212%N]); (L "ocirc;", [244%N]); (L "Ocy;", [1054%N]);
   (L "ocy;", [1086%N]); (L "odash;", [8861%N]); (L "Odblac;", [336%N]);
   (L "odblac;", [337%N]); (L "odiv;", [10808%N]); (L "odot;", [8857%N]);
   (L "odsold;", [10684%N]); (L "OElig;", [338%N]); (L "oelig;", [339%N]);
   (L "ofcir;", [10687%N]); (L "Ofr;", [120082%N]); (L "ofr;", [120108%N]);
   (L "ogon;", [731%N]); (L "Ograve", [210%N]); (L "ograve", [242%N]);
   (L "Ograve;", [210%N]); (L "ograve;", [242%N]); (L "ogt;", [10689%N]);
   (L "ohbar;", [10677%N]); (L "ohm;", [937%N]); (L "oint;", [8750%N]);
   (L "olarr;", [8634%N]); (L "olcir;", [10686%N]); (L "olcross;", [10683%N]);
   (L "oline;", [8254%N]); (L "olt;", [10688%N]); (L "Omacr;", [332%N]);
   (L "omacr;", [333%N]); (L "Omega;", [937%N]); (L "omega;", [969%N]);
   (L "Omicron;", [927%N]); (L "omicron;", [959%N]); (L "omid;", [10678%N]);
   (L "ominus;", [8854%N]); (L "Oopf;", [120134%N]); (L "oopf;", [120160%N]);
   (L "opar;", [10679%N]); (L "OpenCurlyDoubleQuote;", [8220%N]);
   (L "OpenCurlyQuote;", [8216%N]); (L "operp;", [10681%N]);
   (L "oplus;", [8853%N]); (L "Or;", [10836%N]); (L "or;", [8744%N]);
   (L "orarr;", [8635%N]); (L "ord;", [10845%N]); (L "order;", [8500%N]);
   (L "orderof;", [8500%N]); (L "ordf", [170%N]); (L "ordf;", [170%N]);
   (L "ordm", [186%N]); (L "ordm;", [186%N]); (L "origof;", [8886%N]);
   (L "oror;", [10838%N]); (L "orslope;", [10839%N]); (L "orv;", [10843%N]);
   (L "oS;", [9416%N]); (L "Oscr;", [119978%N]); (L "oscr;", [8500%N]);
   (L "Oslash", [216%N]); (L "oslash", [248%N]); (L "Oslash;", [216%N]);
   (L "oslash;", [248%N]); (L "osol;", [8856%N]); (L "Otilde", [213%N]);
   (L "otilde", [245%N]); (L "Otilde;", [213%N]); (L "otilde;", [245%N]);
   (L "Otimes;", [10807%N]); (L "otimes;", [8855%N]);
   (L "otimesas;", [10806%N]); (L "Ouml", [214%N]); (L "ouml", [246%N]);
   (L "Ouml;", [214%N]); (L "ouml;", [246%N]); (L "ovbar;", [9021%N]);
   (L "OverBar;", [8254%N]); (L "OverBrace;", [9182%N]);
   (L "OverBracket;", [9140%N]); (L "OverParenthesis;", [9180%N]);
   (L "par;", [8741%N]); (L "para", [182%N]); (L "para;", [182%N]);
   (L "parallel;", [8741%N]); (L "parsim;", [10995%N]);
   (L "parsl;", [11005%N]); (L "part;", [8706%N]); (L "PartialD;", [8706%N]);
   (L "Pcy;", [1055%N]); (L "pcy;", [1087%N]); (L "percnt;", [37%N]);
   (L "period;", [46%N]); (L "permil;", [8240%N]); (L "perp;", [8869%N]);
   (L "pertenk;", [8241%N]); (L "Pfr;", [120083%N]); (L "pfr;", [120109%N]);
   (L "Phi;", [934%N]); (L "phi;", [966%N]); (L "phiv;", [981%N]);
   (L "phmmat;", [8499%N]); (L "phone;", [9742%N]); (L "Pi;", [928%N]);
   (L "pi;", [960%N]); (L "pitchfork;", [8916%N]); (L "piv;", [982%N]);
   (L "planck;", [8463%N]); (L "planckh;", [8462%N]); (L "plankv;", [8463%N]);
   (L "plus;", [43%N]); (L "plusacir;", [10787%N]); (L "plusb;", [8862%N]);
   (L "pluscir;", [10786%N]); (L "plusdo;", [8724%N]);
   (L "plusdu;", [10789%N]); (L "pluse;", [10866%N]);
   (L "PlusMinus;", [177%N]); (L "plusmn", [177%N]); (L "plusmn;", [177%N]);
   (L "plussim;", [10790%N]); (L "plustwo;", [10791%N]); (L "pm;", [177%N]);
   (L "Poincareplane;", [8460%N]); (L "pointint;", [10773%N]);
   (L "Popf;", [8473%N]); (L "popf;", [120161%N]); (L "pound", [163%N]);
   (L "pound;", [163%N]); (L "Pr;", [10939%N]); (L "pr;", [8826%N]);
   (L "prap;", [10935%N]); (L "prcue;", [8828%N]); (L "prE;", [10931%N]);
   (L "pre;", [10927%N]); (L "prec;", [8826%N]); (L "precapprox;", [10935%N]);
   (L "preccurlyeq;", [8828%N]); (L "Precedes;", [8826%N]);
   (L "PrecedesEqual;", [10927%N]); (L "PrecedesSlantEqual;", [8828%N]);
   (L "PrecedesTilde;", [8830%N]); (L "preceq;", [10927%N]);
   (L "precnapprox;", [10937%N]); (L "precneqq;", [10933%N]);
   (L "precnsim;", [8936%N]); (L "precsim;", [8830%N]);
   (L "Prime;", [8243%N]); (L "prime;", [8242%N]); (L "primes;", [8473%N]);
   (L "prnap;", [10937%N]); (L "prnE;", [10933%N]); (L "prnsim;", [8936%N]);
   (L "prod;", [8719%N]); (L "Product;", [8719%N]); (L "profalar;", [9006%N]);
   (L "profline;", [8978%N]); (L "profsurf;", [8979%N]);
   (L "prop;", [8733%N]); (L "Proportion;", [8759%N]);
   (L "Proportional;", [8733%N]); (L "propto;", [8733%N]);
   (L "prsim;", [8830%N]); (L "prurel;", [8880%N]); (L "Pscr;", [119979%N]);
   (L "pscr;", [120005%N]); (L "Psi;", [936%N]); (L "psi;", [968%N]);
   (L "puncsp;", [8200%N]); (L "Qfr;", [120084%N]); (L "qfr;", [120110%N]);
   (L "qint;", [10764%N]); (L "Qopf;", [8474%N]); (L "qopf;", [120162%N]);
   (L "qprime;", [8279%N]); (L "Qscr;", [119980%N]); (L "qscr;", [120006%N]);
   (L "quaternions;", [8461%N]); (L "quatint;", [10774%N]);
   (L "quest;", [63%N]); (L "questeq;", [8799%N]); (L "QUOT", [34%N]);
   (L "quot", [34%N]); (L "QUOT;", [34%N]); (L "quot;", [34%N]);
   (L "rAarr;", [8667%N]); (L "race;", [8765%N; 817%N]);
   (L "Racute;", [340%N]); (L "racute;", [341%N]); (L "radic;", [8730%N]);
   (L "raemptyv;", [10675%N]); (L "Rang;", [10219%N]); (L "rang;", [10217%N]);
   (L "rangd;", [10642%N]); (L "range;", [10661%N]); (L "rangle;", [10217%N]);
   (L "raquo", [187%N]); (L "raquo;", [187%N]); (L "Rarr;", [8608%N]);
   (L "rArr;", [8658%N]); (L "rarr;", [8594%N]); (L "rarrap;", [10613%N]);
   (L "rarrb;", [8677%N]); (L "rarrbfs;", [10528%N]); (L "rarrc;", [10547%N]);
   (L "rarrfs;", [10526%N]); (L "rarrhk;", [8618%N]); (L "rarrlp;", [8620%N]);
   (L "rarrpl;", [10565%N]); (L "rarrsim;", [10612%N]);
   (L "Rarrtl;", [10518%N]); (L "rarrtl;", [8611%N]); (L "rarrw;", [8605%N]);
   (L "rAtail;", [10524%N]); (L "ratail;", [10522%N]); (L "ratio;", [8758%N]);
   (L "rationals;", [8474%N]); (L "RBarr;", [10512%N]);
   (L "rBarr;", [10511%N]); (L "rbarr;", [10509%N]); (L "rbbrk;", [10099%N]);
   (L "rbrace;", [125%N]); (L "rbrack;", [93%N]); (L "rbrke;", [10636%N]);
   (L "rbrksld;", [10638%N]); (L "rbrkslu;", [10640%N]);
   (L "Rcaron;", [344%N]); (L "rcaron;", [345%N]); (L "Rcedil;", [342%N]);
   (L "rcedil;", [343%N]); (L "rceil;", [8969%N]); (L "rcub;", [125%N]);
   (L "Rcy;", [1056%N]); (L "rcy;", [1088%N]); (L "rdca;", [10551%N]);
   (L "rdldhar;", [10601%N]); (L "rdquo;", [8221%N]); (L "rdquor;", [8221%N]);
   (L "rdsh;", [8627%N]); (L "Re;", [8476%N]); (L "real;", [8476%N]);
   (L "realine;", [8475%N]); (L "realpart;", [8476%N]);
   (L "reals;", [8477%N]); (L "rect;", [9645%N]); (L "REG", [174%N]);
   (L "reg", [174%N]); (L "REG;", [174%N]); (L "reg;", [174%N]);
   (L "ReverseElement;", [8715%N]); (L "ReverseEquilibrium;", [8651%N]);
   (L "ReverseUpEquilibrium;", [10607%N]); (L "rfisht;", [10621%N]);
   (L "rfloor;", [8971%N]); (L "Rfr;", [8476%N]); (L "rfr;", [120111%N]);
   (L "rHar;", [10596%N]); (L "rhard;", [8641%N]); (L "rharu;", [8640%N]);
   (L "rharul;", [10604%N]); (L "Rho;", [929%N]); (L "rho;", [961%N]);
   (L "rhov;", [1009%N]); (L "RightAngleBracket;", [10217%N]);
   (L "RightArrow;", [8594%N]); (L "Rightarrow;", [8658%N]);
   (L "rightarrow;", [8594%N]); (L "RightArrowBar;", [8677%N]);
   (L "RightArrowLeftArrow;", [8644%N]); (L "rightarrowtail;", [8611%N]);
   (L "RightCeiling;", [8969%N]); (L "RightDoubleBracket;", [10215%N]);
   (L "RightDownTeeVector;", [10589%N]); (L "RightDownVector;", [8642%N]);
   (L "RightDownVectorBar;", [10581%N]); (L "RightFloor;", [8971%N]);
   (L "rightharpoondown;", [8641%N]); (L "rightharpoonup;", [8640%N]);
   (L "rightleftarrows;", [8644%N]); (L "rightleftharpoons;", [8652%N]);
   (L "rightrightarrows;", [8649%N]); (L "rightsquigarrow;", [8605%N]);
   (L "RightTee;", [8866%N]); (L "RightTeeArrow;", [8614%N]);
   (L "RightTeeVector;", [10587%N]); (L "rightthreetimes;", [8908%N]);
   (L "RightTriangle;", [8883%N]); (L "RightTriangleBar;", [10704%N]);
   (L "RightTriangleEqual;", [8885%N]); (L "RightUpDownVector;", [10575%N]);
   (L "RightUpTeeVector;", [10588%N]); (L "RightUpVector;", [8638%N]);
   (L "RightUpVectorBar;", [10580%N]); (L "RightVector;", [8640%N]);
   (L "RightVectorBar;", [10579%N]); (L "ring;", [730%N]);
   (L "risingdotseq;", [8787%N]); (L "rlarr;", [8644%N]);
   (L "rlhar;", [8652%N]); (L "rlm;", [8207%N]); (L "rmoust;", [9137%N]);
   (L "rmoustache;", [9137%N]); (L "rnmid;", [10990%N]);
   (L "roang;", [10221%N]); (L "roarr;", [8702%N]); (L "robrk;", [10215%N]);
   (L "ropar;", [10630%N]); (L "Ropf;", [8477%N]); (L "ropf;", [120163%N]);
   (L "roplus;", [10798%N]); (L "rotimes;", [10805%N]);
   (L "RoundImplies;", [10608%N]); (L "rpar;", [41%N]);
   (L "rpargt;", [10644%N]); (L "rppolint;", [10770%N]);
   (L "rrarr;", [8649%N]); (L "Rrightarrow;", [8667%N]);
   (L "rsaquo;", [8250%N]); (L "Rscr;", [8475%N]); (L "rscr;", [120007%N]);
   (L "Rsh;", [8625%N]); (L "rsh;", [8625%N]); (L "rsqb;", [93%N]);
   (L "rsquo;", [8217%N]); (L "rsquor;", [8217%N]); (L "rthree;", [8908%N]);
   (L "rtimes;", [8906%N]); (L "rtri;", [9657%N]); (L "rtrie;", [8885%N]);
   (L "rtrif;", [9656%N]); (L "rtriltri;", [10702%N]);
   (L "RuleDelayed;", [10740%N]); (L "ruluhar;", [10600%N]);
   (L "rx;", [8478%N]); (L "Sacute;", [346%N]); (L "sacute;", [347%N]);
   (L "sbquo;", [8218%N]); (L "Sc;", [10940%N]); (L "sc;", [8827%N]);
   (L "scap;", [10936%N]); (L "Scaron;", [352%N]); (L "scaron;", [353%N]);
   (L "sccue;", [8829%N]); (L "scE;", [10932%N]); (L "sce;", [10928%N]);
   (L "Scedil;", [350%N]); (L "scedil;", [351%N]); (L "Scirc;", [348%N]);
   (L "scirc;", [349%N]); (L "scnap;", [10938%N]); (L "scnE;", [10934%N]);
   (L "scnsim;", [8937%N]); (L "scpolint;", [10771%N]);
   (L "scsim;", [8831%N]); (L "Scy;", [1057%N]); (L "scy;", [1089%N]);
   (L "sdot;", [8901%N]); (L "sdotb;", [8865%N]); (L "sdote;", [10854%N]);
   (L "searhk;", [10533%N]); (L "seArr;", [8664%N]); (L "searr;", [8600%N]);
   (L "searrow;", [8600%N]); (L "sect", [167%N]); (L "sect;", [167%N]);
   (L "semi;", [59%N]); (L "seswar;", [10537%N]); (L "setminus;", [8726%N]);
   (L "setmn;", [8726%N]); (L "sext;", [10038%N]); (L "Sfr;", [120086%N]);
   (L "sfr;", [120112%N]); (L "sfrown;", [8994%N]); (L "sharp;", [9839%N]);
   (L "SHCHcy;", [1065%N]); (L "shchcy;", [1097%N]); (L "SHcy;", [1064%N]);
   (L "shcy;", [1096%N]); (L "ShortDownArrow;", [8595%N]);
   (L "ShortLeftArrow;", [8592%N]); (L "shortmid;", [8739%N]);
   (L "shortparallel;", [8741%N]); (L "ShortRightArrow;", [8594%N]);
   (L "ShortUpArrow;", [8593%N]); (L "shy", [173%N]); (L "shy;", [173%N]);
   (L "Sigma;", [931%N]); (L "sigma;", [963%N]); (L "sigmaf;", [962%N]);
   (L "sigmav;", [962%N]); (L "sim;", [8764%N]); (L "simdot;", [10858%N]);
   (L "sime;", [8771%N]); (L "simeq;", [8771%N]); (L "simg;", [10910%N]);
   (L "simgE;", [10912%N]); (L "siml;", [10909%N]); (L "simlE;", [10911%N]);
   (L "simne;", [8774%N]); (L "simplus;", [10788%N]);
   (L "simrarr;", [10610%N]); (L "slarr;", [8592%N]);
   (L "SmallCircle;", [8728%N]); (L "smallsetminus;", [8726%N]);
   (L "smashp;", [10803%N]); (L "smeparsl;", [10724%N]);
   (L "smid;", [8739%N]); (L "smile;", [8995%N]); (L "smt;", [10922%N]);
   (L "smte;", [10924%N]); (L "smtes;", [10924%N; 65024%N]);
   (L "SOFTcy;", [1068%N]); (L "softcy;", [1100%N]); (L "sol;", [47%N]);
   (L "solb;", [10692%N]); (L "solbar;", [9023%N]); (L "Sopf;", [120138%N]);
   (L "sopf;", [120164%N]); (L "spades;", [9824%N]);
   (L "spadesuit;", [9824%N]); (L "spar;", [8741%N]); (L "sqcap;", [8851%N]);
   (L "sqcaps;", [8851%N; 65024%N]); (L "sqcup;", [8852%N]);
   (L "sqcups;", [8852%N; 65024%N]); (L "Sqrt;", [8730%N]);
   (L "sqsub;", [8847%N]); (L "sqsube;", [8849%N]); (L "sqsubset;", [8847%N]);
   (L "sqsubseteq;", [8849%N]); (L "sqsup;", [8848%N]);
   (L "sqsupe;", [8850%N]); (L "sqsupset;", [8848%N]);
   (L "sqsupseteq;", [8850%N]); (L "squ;", [9633%N]); (L "Square;", [9633%N]);
   (L "square;", [9633%N]); (L "SquareIntersection;", [8851%N]);
   (L "SquareSubset;", [8847%N]); (L "SquareSubsetEqual;", [8849%N]);
   (L "SquareSuperset;", [8848%N]); (L "SquareSupersetEqual;", [8850%N]);
   (L "SquareUnion;", [8852%N]); (L "squarf;", [9642%N]);
   (L "squf;", [9642%N]); (L "srarr;", [8594%N]); (L "Sscr;", [119982%N]);
   (L "sscr;", [120008%N]); (L "ssetmn;", [8726%N]); (L "ssmile;", [8995%N]);
   (L "sstarf;", [8902%N]); (L "Star;", [8902%N]); (L "star;", [9734%N]);
   (L "starf;", [9733%N]); (L "straightepsilon;", [1013%N]);
   (L "straightphi;", [981%N]); (L "strns;", [175%N]); (L "Sub;", [8912%N]);
   (L "sub;", [8834%N]); (L "subdot;", [10941%N]); (L "subE;", [10949%N]);
   (L "sube;", [8838%N]); (L "subedot;", [10947%N]);
   (L "submult;", [10945%N]); (L "subnE;", [10955%N]); (L "subne;", [8842%N]);
   (L "subplus;", [10943%N]); (L "subrarr;", [10617%N]);
   (L "Subset;", [8912%N]); (L "subset;", [8834%N]);
   (L "subseteq;", [8838%N]); (L "subseteqq;", [10949%N]);
   (L "SubsetEqual;", [8838%N]); (L "subsetneq;", [8842%N]);
   (L "subsetneqq;", [10955%N]); (L "subsim;", [10951%N]);
   (L "subsub;", [10965%N]); (L "subsup;", [10963%N]); (L "succ;", [8827%N]);
   (L "succapprox;", [10936%N]); (L "succcurlyeq;", [8829%N]);
   (L "Succeeds;", [8827%N]); (L "SucceedsEqual;", [10928%N]);
   (L "SucceedsSlantEqual;", [8829%N]); (L "SucceedsTilde;", [8831%N]);
   (L "succeq;", [10928%N]); (L "succnapprox;", [10938%N]);
   (L "succneqq;", [10934%N]); (L "succnsim;", [8937%N]);
   (L "succsim;", [8831%N]); (L "SuchThat;", [8715%N]); (L "Sum;", [8721%N]);
   (L "sum;", [8721%N]); (L "sung;", [9834%N]); (L "sup1", [185%N]);
   (L "sup1;", [185%N]); (L "sup2", [178%N]); (L "sup2;", [178%N]);
   (L "sup3", [179%N]); (L "sup3;", [179%N]); (L "Sup;", [8913%N]);
   (L "sup;", [8835%N]); (L "supdot;", [10942%N]); (L "supdsub;", [10968%N]);
   (L "supE;", [10950%N]); (L "supe;", [8839%N]); (L "supedot;", [10948%N]);
   (L "Superset;", [8835%N]); (L "SupersetEqual;", [8839%N]);
   (L "suphsol;", [10185%N]); (L "suphsub;", [10967%N]);
   (L "suplarr;", [10619%N]); (L "supmult;", [10946%N]);
   (L "supnE;", [10956%N]); (L "supne;", [8843%N]); (L "supplus;", [10944%N]);
   (L "Supset;", [8913%N]); (L "supset;", [8835%N]);
   (L "supseteq;", [8839%N]); (L "supseteqq;", [10950%N]);
   (L "supsetneq;", [8843%N]); (L "supsetneqq;", [10956%N]);
   (L "supsim;", [10952%N]); (L "supsub;", [10964%N]);
   (L "supsup;", [10966%N]); (L "swarhk;", [10534%N]); (L "swArr;", [8665%N]);
   (L "swarr;", [8601%N]); (L "swarrow;", [8601%N]); (L "swnwar;", [10538%N]);
   (L "szlig", [223%N]); (L "szlig;", [223%N]); (L "Tab;", [9%N]);
   (L "target;", [8982%N]); (L "Tau;", [932%N]); (L "tau;", [964%N]);
   (L "tbrk;", [9140%N]); (L "Tcaron;", [356%N]); (L "tcaron;", [357%N]);
   (L "Tcedil;", [354%N]); (L "tcedil;", [355%N]); (L "Tcy;", [1058%N]);
   (L "tcy;", [1090%N]); (L "tdot;", [8411%N]); (L "telrec;", [8981%N]);
   (L "Tfr;", [120087%N]); (L "tfr;", [120113%N]); (L "there4;", [8756%N]);
   (L "Therefore;", [8756%N]); (L "therefore;", [8756%N]);
   (L "Theta;", [920%N]); (L "theta;", [952%N]); (L "thetasym;", [977%N]);
   (L "thetav;", [977%N]); (L "thickapprox;", [8776%N]);
   (L "thicksim;", [8764%N]); (L "ThickSpace;", [8287%N; 8202%N]);
   (L "thinsp;", [8201%N]); (L "ThinSpace;", [8201%N]);
   (L "thkap;", [8776%N]); (L "thksim;", [8764%N]); (L "THORN", [222%N]);
   (L "thorn", [254%N]); (L "THORN;", [222%N]); (L "thorn;", [254%N]);
   (L "Tilde;", [8764%N]); (L "tilde;", [732%N]); (L "TildeEqual;", [8771%N]);
   (L "TildeFullEqual;", [8773%N]); (L "TildeTilde;", [8776%N]);
   (L "times", [215%N]); (L "times;", [215%N]); (L "timesb;", [8864%N]);
   (L "timesbar;", [10801%N]); (L "timesd;", [10800%N]);
   (L "tint;", [8749%N]); (L "toea;", [10536%N]); (L "top;", [8868%N]);
   (L "topbot;", [9014%N]); (L "topcir;", [10993%N]); (L "Topf;", [120139%N]);
   (L "topf;", [120165%N]); (L "topfork;", [10970%N]); (L "tosa;", [10537%N]);
   (L "tprime;", [8244%N]); (L "TRADE;", [8482%N]); (L "trade;", [8482%N]);
   (L "triangle;", [9653%N]); (L "triangledown;", [9663%N]);
   (L "triangleleft;", [9667%N]); (L "trianglelefteq;", [8884%N]);
   (L "triangleq;", [8796%N]); (L "triangleright;", [9657%N]);
   (L "trianglerighteq;", [8885%N]); (L "tridot;", [9708%N]);
   (L "trie;", [8796%N]); (L "triminus;", [10810%N]);
   (L "TripleDot;", [8411%N]); (L "triplus;", [10809%N]);
   (L "trisb;", [10701%N]); (L "tritime;", [10811%N]);
   (L "trpezium;", [9186%N]); (L "Tscr;", [119983%N]);
   (L "tscr;", [120009%N]); (L "TScy;", [1062%N]); (L "tscy;", [1094%N]);
   (L "TSHcy;", [1035%N]); (L "tshcy;", [1115%N]); (L "Tstrok;", [358%N]);
   (L "tstrok;", [359%N]); (L "twixt;", [8812%N]);
   (L "twoheadleftarrow;", [8606%N]); (L "twoheadrightarrow;", [8608%N]);
   (L "Uacute", [218%N]); (L "uacute", [250%N]); (L "Uacute;", [218%N]);
   (L "uacute;", [250%N]); (L "Uarr;", [8607%N]); (L "uArr;", [8657%N]);
   (L "uarr;", [8593%N]); (L "Uarrocir;", [10569%N]); (L "Ubrcy;", [1038%N]);
   (L "ubrcy;", [1118%N]); (L "Ubreve;", [364%N]); (L "ubreve;", [365%N]);
   (L "Ucirc", [219%N]); (L "ucirc", [251%N]); (L "Ucirc;", [219%N]);
   (L "ucirc;", [251%N]); (L "Ucy;", [1059%N]); (L "ucy;", [1091%N]);
   (L "udarr;", [8645%N]); (L "Udblac;", [368%N]); (L "udblac;", [369%N]);
   (L "udhar;", [10606%N]); (L "ufisht;", [10622%N]); (L "Ufr;", [120088%N]);
   (L "ufr;", [120114%N]); (L "Ugrave", [217%N]); (L "ugrave", [249%N]);
   (L "Ugrave;", [217%N]); (L "ugrave;", [249%N]); (L "uHar;", [10595%N]);
   (L "uharl;", [8639%N]); (L "uharr;", [8638%N]); (L "uhblk;", [9600%N]);
   (L "ulcorn;", [8988%N]); (L "ulcorner;", [8988%N]);
   (L "ulcrop;", [8975%N]); (L "ultri;", [9720%N]); (L "Umacr;", [362%N]);
   (L "umacr;", [363%N]); (L "uml", [168%N]); (L "uml;", [168%N]);
   (L "UnderBar;", [95%N]); (L "UnderBrace;", [9183%N]);
   (L "UnderBracket;", [9141%N]); (L "UnderParenthesis;", [9181%N]);
   (L "Union;", [8899%N]); (L "UnionPlus;", [8846%N]); (L "Uogon;", [370%N]);
   (L "uogon;", [371%N]); (L "Uopf;", [120140%N]); (L "uopf;", [120166%N]);
   (L "UpArrow;", [8593%N]); (L "Uparrow;", [8657%N]);
   (L "uparrow;", [8593%N]); (L "UpArrowBar;", [10514%N]);
   (L "UpArrowDownArrow;", [8645%N]); (L "UpDownArrow;", [8597%N]);
   (L "Updownarrow;", [8661%N]); (L "updownarrow;", [8597%N]);
   (L "UpEquilibrium;", [10606%N]); (L "upharpoonleft;", [8639%N]);
   (L "upharpoonright;", [8638%N]); (L "uplus;", [8846%N]);
   (L "UpperLeftArrow;", [8598%N]); (L "UpperRightArrow;", [8599%N]);
   (L "Upsi;", [978%N]); (L "upsi;", [965%N]); (L "upsih;", [978%N]);
   (L "Upsilon;", [933%N]); (L "upsilon;", [965%N]); (L "UpTee;", [8869%N]);
   (L "UpTeeArrow;", [8613%N]); (L "upuparrows;", [8648%N]);
   (L "urcorn;", [8989%N]); (L "urcorner;", [8989%N]);
   (L "urcrop;", [8974%N]); (L "Uring;", [366%N]); (L "uring;", [367%N]);
   (L "urtri;", [9721%N]); (L "Uscr;", [119984%N]); (L "uscr;", [120010%N]);
   (L "utdot;", [8944%N]); (L "Utilde;", [360%N]); (L "utilde;", [361%N]);
   (L "utri;", [9653%N]); (L "utrif;", [9652%N]); (L "uuarr;", [8648%N]);
   (L "Uuml", [220%N]); (L "uuml", [252%N]); (L "Uuml;", [220%N]);
   (L "uuml;", [252%N]); (L "uwangle;", [10663%N]); (L "vangrt;", [10652%N]);
   (L "varepsilon;", [1013%N]); (L "varkappa;", [1008%N]);
   (L "varnothing;", [8709%N]); (L "varphi;", [981%N]); (L "varpi;", [982%N]);
   (L "varpropto;", [8733%N]); (L "vArr;", [8661%N]); (L "varr;", [8597%N]);
   (L "varrho;", [1009%N]); (L "varsigma;", [962%N]);
   (L "varsubsetneq;", [8842%N; 65024%N]);
   (L "varsubsetneqq;", [10955%N; 65024%N]);
   (L "varsupsetneq;", [8843%N; 65024%N]);
   (L "varsupsetneqq;", [10956%N; 65024%N]); (L "vartheta;", [977%N]);
   (L "vartriangleleft;", [8882%N]); (L "vartriangleright;", [8883%N]);
   (L "Vbar;", [10987%N]); (L "vBar;", [10984%N]); (L "vBarv;", [10985%N]);
   (L "Vcy;", [1042%N]); (L "vcy;", [1074%N]); (L "VDash;", [8875%N]);
   (L "Vdash;", [8873%N]); (L "vDash;", [8872%N]); (L "vdash;", [8866%N]);
   (L "Vdashl;", [10982%N]); (L "Vee;", [8897%N]); (L "vee;", [8744%N]);
   (L "veebar;", [8891%N]); (L "veeeq;", [8794%N]); (L "vellip;", [8942%N]);
   (L "Verbar;", [8214%N]); (L "verbar;", [124%N]); (L "Vert;", [8214%N]);
   (L "vert;", [124%N]); (L "VerticalBar;", [8739%N]);
   (L "VerticalLine;", [124%N]); (L "VerticalSeparator;", [10072%N]);
   (L "VerticalTilde;", [8768%N]); (L "VeryThinSpace;", [8202%N]);
   (L "Vfr;", [120089%N]); (L "vfr;", [120115%N]); (L "vltri;", [8882%N]);
   (L "vnsub;", [8834%N; 8402%N]); (L "vnsup;", [8835%N; 8402%N]);
   (L "Vopf;", [120141%N]); (L "vopf;", [120167%N]); (L "vprop;", [8733%N]);
   (L "vrtri;", [8883%N]); (L "Vscr;", [119985%N]); (L "vscr;", [120011%N]);
   (L "vsubnE;", [10955%N; 65024%N]); (L "vsubne;", [8842%N; 65024%N]);
   (L "vsupnE;", [10956%N; 65024%N]); (L "vsupne;", [8843%N; 65024%N]);
   (L "Vvdash;", [8874%N]); (L "vzigzag;", [10650%N]); (L "Wcirc;", [372%N]);
   (L "wcirc;", [373%N]); (L "wedbar;", [10847%N]); (L "Wedge;", [8896%N]);
   (L "wedge;", [8743%N]); (L "wedgeq;", [8793%N]); (L "weierp;", [8472%N]);
   (L "Wfr;", [120090%N]); (L "wfr;", [120116%N]); (L "Wopf;", [120142%N]);
   (L "wopf;", [120168%N]); (L "wp;", [8472%N]); (L "wr;", [8768%N]);
   (L "wreath;", [8768%N]); (L "Wscr;", [119986%N]); (L "wscr;", [120012%N]);
   (L "xcap;", [8898%N]); (L "xcirc;", [9711%N]); (L "xcup;", [8899%N]);
   (L "xdtri;", [9661%N]); (L "Xfr;", [120091%N]); (L "xfr;", [120117%N]);
   (L "xhArr;", [10234%N]); (L "xharr;", [10231%N]); (L "Xi;", [926%N]);
   (L "xi;", [958%N]); (L "xlArr;", [10232%N]); (L "xlarr;", [10229%N]);
   (L "xmap;", [10236%N]); (L "xnis;", [8955%N]); (L "xodot;", [10752%N]);
   (L "Xopf;", [120143%N]); (L "xopf;", [120169%N]); (L "xoplus;", [10753%N]);
   (L "xotime;", [10754%N]); (L "xrArr;", [10233%N]); (L "xrarr;", [10230%N]);
   (L "Xscr;", [119987%N]); (L "xscr;", [120013%N]); (L "xsqcup;", [10758%N]);
   (L "xuplus;", [10756%N]); (L "xutri;", [9651%N]); (L "xvee;", [8897%N]);
   (L "xwedge;", [8896%N]); (L "Yacute", [221%N]); (L "yacute", [253%N]);
   (L "Yacute;", [221%N]); (L "yacute;", [253%N]); (L "YAcy;", [1071%N]);
   (L "yacy;", [1103%N]); (L "Ycirc;", [374%N]); (L "ycirc;", [375%N]);
   (L "Ycy;", [1067%N]); (L "ycy;", [1099%N]); (L "yen", [165%N]);
   (L "yen;", [165%N]); (L "Yfr;", [120092%N]); (L "yfr;", [120118%N]);
   (L "YIcy;", [1031%N]); (L "yicy;", [1111%N]); (L "Yopf;", [120144%N]);
   (L "yopf;", [120170%N]); (L "Yscr;", [119988%N]); (L "yscr;", [120014%N]);
   (L "YUcy;", [1070%N]); (L "yucy;", [1102%N]); (L "yuml", [255%N]);
   (L "Yuml;", [376%N]); (L "yuml;", [255%N]); (L "Zacute;", [377%N]);
   (L "zacute;", [378%N]); (L "Zcaron;", [381%N]); (L "zcaron;", [382%N]);
   (L "Zcy;", [1047%N]); (L "zcy;", [1079%N]); (L "Zdot;", [379%N]);
   (L "zdot;", [380%N]); (L "zeetrf;", [8488%N]);
   (L "ZeroWidthSpace;", [8203%N]); (L "Zeta;", [918%N]);
   (L "zeta;", [950%N]); (L "Zfr;", [8488%N]); (L "zfr;", [120119%N]);
   (L "ZHcy;", [1046%N]); (L "zhcy;", [1078%N]); (L "zigrarr;", [8669%N]);
   (L "Zopf;", [8484%N]); (L "zopf;", [120171%N]); (L "Zscr;", [119989%N]);
   (L "zscr;", [120015%N]); (L "zwj;", [8205%N]); (L "zwnj;", [8204%N])].

(** [for x in range(len(s)-1, 1, -1)]: the longest proper prefix of at
    least two characters that is a name; [x] runs down from [n]. *)
Fixpoint longest_name (s : str) (x : nat) : option str :=
  match x with
  | S (S _ as x') =>
      match assoc str_eqb (firstn x s) html5 with
      | Some v => Some (v ++ skipn x s)
      | None => longest_name s x'
      end
  | _ => None
  end.

Definition numeric_charref (s1 : str) : str :=
  let num := match s1 with
             | c :: s2 => if among (L "xX") c then int_of 16%N s2
                          else int_of 10%N s1
             | [] => 0%N
             end in
  match find (fun kv => N.eqb (fst kv) num) invalid_charrefs with
  | Some (_, v) => [v]
  | None =>
      if between 55296%N 57343%N num || N.ltb 1114111%N num then [65533%N]
      else if invalid_codepoints num then []
      else [num]
  end.

Definition named_charref (s : str) : str :=
  match assoc str_eqb s html5 with
  | Some v => v
  | None =>
      match longest_name s (length s - 1) with
      | Some v => v
      | None => chr "&" :: s
      end
  end.

Definition replace_charref (m : mtch) : str :=
  let s := group 1 m in
  match s with
  | c :: s1 => if N.eqb c (chr "#") then numeric_charref s1 else named_charref s
  | [] => named_charref s
  end.

Definition unescape (s : str) : str :=
  if has_char (chr "&") s then sub_fun charref replace_charref s else s.

(** The ValueError of [int] in [html.unescape]: a decimal reference with
    more digits than [int] accepts.  [unescape] is the result for the texts
    on which this is [false]. *)
Definition numeric_charref_raises (s1 : str) : bool :=
  match s1 with
  | c :: _ => if among (L "xX") c then false
              else int_max_str_digits <? length (filter digit s1)
  | [] => false
  end.

Definition replace_charref_raises (m : mtch) : bool :=
  match group 1 m with
  | c :: s1 => N.eqb c (chr "#") && numeric_charref_raises s1
  | [] => false
  end.

Definition unescape_raises (s : str) : bool :=
  has_char (chr "&") s
  && existsb replace_charref_raises (matches (pieces charref 0 s)).

(** [s.replace(c, by)] for a single character [c]. *)
Definition replace_char (c : char) (by_ : str) (s : str) : str :=
  flat_map (fun x => if N.eqb x c then by_ else [x]) s.

(** [html.escape(s)], with [quote=True]: the ampersand first. *)
Definition escape (s : str) : str :=
  let s := replace_char (chr "&") (L "&amp;") s in
  let s := replace_char (chr "<") (L "&lt;") s in
  let s := replace_char (chr ">") (L "&gt;") s in
  let s := replace_char dquote (L "&quot;") s in
  replace_char (chr "'") (L "&#x27;") s.

End Html.

(** ** [HTMLDiffer] *)

Import Re.

(** *** The patterns of the script

    In the comments a pattern is written with ['] for its double quotes. *)

(** [<main[^>]*>(.*?)</main>], with re.DOTALL *)
Definition main_pattern : regex :=
  cat [Lit (L "<main"); star (except (chr ">")); Lit (L ">");
       Grp 1 (lazy_star any); Lit (L "</main>")].

(** [<div[^>]*class='[^']*content[^']*'[^>]*>(.*?)</div>], with re.DOTALL *)
Definition content_pattern : regex :=
  cat [Lit (L "<div"); star (except (chr ">")); Lit (Lq "class='");
       star (except dquote); Lit (L "content"); star (except dquote);
       Lit [dquote]; star (except (chr ">")); Lit (L ">");
       Grp 1 (lazy_star any); Lit (L "</div>")].

(** [\s+] *)
Definition spaces_pattern : regex := plus isspace.

(** [<!--.*?-->] *)
Definition comment_pattern : regex :=
  cat [Lit (L "<!--"); lazy_star any; Lit (L "-->")].

(** [\S+|\s+] *)
Definition word_pattern : regex :=
  Alt (plus (fun c => negb (isspace c))) (plus isspace).

(** [<[^>]+>] *)
Definition tag_pattern : regex :=
  cat [Lit (L "<"); plus (except (chr ">")); Lit (L ">")].

(** [(<[^>]+>|[^<]+)] *)
Definition token_pattern : regex :=
  Grp 1 (Alt tag_pattern (plus (except (chr "<")))).

(** [p|h[1-6]|li|blockquote] *)
Definition COMPARABLE_ELEMENTS : regex :=
  Alt (Lit (L "p"))
 (Alt (Cat (Lit (L "h")) (One (between (chr "1") (chr "6"))))
 (Alt (Lit (L "li")) (Lit (L "blockquote")))).

(** [(<(?:p|h[1-6]|li|blockquote)[^>]*>.*?</(?:p|h[1-6]|li|blockquote)>)] *)
Definition element_pattern : regex :=
  Grp 1 (cat [Lit (L "<"); COMPARABLE_ELEMENTS; star (except (chr ">"));
              Lit (L ">"); lazy_star any; Lit (L "</"); COMPARABLE_ELEMENTS;
              Lit (L ">")]).

(** Three groups in a row, with re.DOTALL: [(<[^>]+>)], a greedy [.*] and
    [(</[^>]+>)]. *)
Definition outer_tags_pattern : regex :=
  cat [Grp 1 tag_pattern; Grp 2 (star any);
       Grp 3 (cat [Lit (L "</"); plus (except (chr ">")); Lit (L ">")])].

(** [(<a[^>]*href='[^']*FILE[^']*'[^>]*class='[^']*')([^']*'[^>]*>)], with
    [FILE] the escaped file name. *)
Definition toc_pattern (html_file : str) : regex :=
  cat [Grp 1 (cat [Lit (L "<a"); star (except (chr ">")); Lit (Lq "href='");
                   star (except dquote); Lit html_file; star (except dquote);
                   Lit [dquote]; star (except (chr ">")); Lit (Lq "class='");
                   star (except dquote); Lit [dquote]]);
       Grp 2 (cat [star (except dquote); Lit [dquote];
                   star (except (chr ">")); Lit (L ">")])].

(** *** The methods *)

Definition extract_main_content (html : str) : str :=
  match search main_pattern html with
  | Some main_match => group 1 main_match
  | None =>
      match search content_pattern html with
      | Some content_match => group 1 content_match
      | None => html
      end
  end.

Definition normalize_html (html : str) : str :=
  let html := sub_plain spaces_pattern (L " ") html in
  let html := sub_plain comment_pattern [] html in
  strip html.

Definition extract_text_from_element (element_html : str) : str :=
  let text := sub_plain tag_pattern [] element_html in
  strip (Html.unescape text).

(** A changed range: [(start_pos, end_pos, tag)]. *)
Definition range := (nat * nat * Difflib.tag)%type.

(** The order of the tuples [(int, int, str)], the tags by their names
    'delete' < 'equal' < 'insert' < 'replace'. *)
Definition tag_rank (t : Difflib.tag) : nat :=
  match t with
  | Difflib.Delete => 0
  | Difflib.Equal => 1
  | Difflib.Insert => 2
  | Difflib.Replace => 3
  end.

Definition range_leb (x y : range) : bool :=
  let '(s1, e1, t1) := x in
  let '(s2, e2, t2) := y in
  (s1 <? s2) || ((s1 =? s2) && ((e1 <? e2) || ((e1 =? e2)
                                  && (tag_rank t1 <=? tag_rank t2)))).

Fixpoint insert_range (x : range) (l : list range) : list range :=
  match l with
  | [] => [x]
  | y :: l' => if range_leb x y then x :: l else y :: insert_range x l'
  end.

(** [overlapping.sort()] *)
Definition sort_ranges (l : list range) : list range :=
  fold_right insert_range [] l.

Definition mark (class : str) (body : str) : str :=
  Lq "<mark class='" ++ class ++ Lq "'>" ++ body ++ L "</mark>".

(** The loop that builds the result of [apply_highlights_to_text]. *)
Fixpoint build_highlights (text : str) (overlapping : list range)
    (last_end : nat) : str :=
  match overlapping with
  | [] => if last_end <? length text then skipn last_end text else []
  | (overlap_start, overlap_end, change_type) :: rest =>
      (if last_end <? overlap_start
       then slice last_end overlap_start text else [])
      ++ (let highlighted_text := slice overlap_start overlap_end text in
          match change_type with
          | Difflib.Replace => mark (L "preview-text-changed") highlighted_text
          | Difflib.Insert => mark (L "preview-text-added") highlighted_text
          | _ => []
          end)
      ++ build_highlights text rest overlap_end
  end.

Definition apply_highlights_to_text (text : str) (text_start_pos : nat)
    (changed_ranges : list range) : str :=
  if negb (nonempty (strip text)) then text
  else
    let text_end_pos := text_start_pos + length text in
    let overlapping :=
      flat_map
        (fun r => let '(start, end_, change_type) := r in
           if (start <? text_end_pos) && (text_start_pos <? end_)
           then [(start - text_start_pos,
                  Nat.min (length text) (end_ - text_start_pos),
                  change_type)]
           else [])
        changed_ranges in
    match overlapping with
    | [] => text
    | _ :: _ => build_highlights text (sort_ranges overlapping) 0
    end.

Definition is_tag (token : str) : bool :=
  match token with
  | c :: _ => N.eqb c (chr "<")
  | [] => false
  end.

(** The loop over [html_tokens] of [highlight_html_diff]; [text_pos] is the
    running position. *)
Fixpoint annotate_tokens (html_tokens : list str) (text_pos : nat)
    (changed_ranges : list range) : list str :=
  match html_tokens with
  | [] => []
  | token :: rest =>
      if is_tag token
      then token :: annotate_tokens rest text_pos changed_ranges
      else
        let token_end := text_pos + length token in
        apply_highlights_to_text token text_pos changed_ranges
          :: annotate_tokens rest token_end changed_ranges
  end.

(** The ranges of the [replace] and [insert] opcodes, in characters of
    [new_text]. *)
Definition changed_ranges_of (old_words new_words : list str) : list range :=
  flat_map
    (fun op => let '(tag, i1, i2, j1, j2) := op in
       match tag with
       | Difflib.Replace | Difflib.Insert =>
           [(length (join (firstn j1 new_words)),
             length (join (firstn j2 new_words)), tag)]
       | _ => []
       end)
    (Difflib.get_opcodes str_eqb old_words new_words).

Definition div (html : str) : str := L "<div>" ++ html ++ L "</div>".

Definition highlight_html_diff (old_html new_html : str) : str :=
  let old_text := extract_text_from_element (div old_html) in
  let new_text := extract_text_from_element (div new_html) in
  if negb (nonempty old_text) || negb (nonempty new_text) then new_html
  else
    let old_words := findall word_pattern old_text in
    let new_words := findall word_pattern new_text in
    let changed_ranges := changed_ranges_of old_words new_words in
    match changed_ranges with
    | [] => new_html
    | _ :: _ =>
        let html_tokens := findall token_pattern new_html in
        join (annotate_tokens html_tokens 0 changed_ranges)
    end.

(** [l[a:b]] for a list of words. *)
Definition words_slice (a b : nat) (l : list str) : list str :=
  firstn (b - a) (skipn a l).

(** The opening tag of a changed run in [highlight_text_diff], with the old
    words in its title. *)
Definition changed_with_title (old_run : str) : str :=
  L "preview-text-changed" ++ Lq "' title='Modified from: "
    ++ Html.escape old_run.

(** What one opcode adds to [result] in [highlight_text_diff]; a mark with
    a title is the mark of the class followed by the title attribute. *)
Definition text_pieces (old_words new_words : list str)
    (op : Difflib.tag * nat * nat * nat * nat) : list str :=
  let '(tag, i1, i2, j1, j2) := op in
  match tag with
  | Difflib.Equal => words_slice j1 j2 new_words
  | Difflib.Replace =>
      let changed_text := join (words_slice j1 j2 new_words) in
      [mark (changed_with_title (join (words_slice i1 i2 old_words)))
            changed_text]
  | Difflib.Insert =>
      let added_text := join (words_slice j1 j2 new_words) in
      [mark (L "preview-text-added") added_text]
  | Difflib.Delete => []
  end.

(** [highlight_text_diff(old_text, new_text)] *)
Definition highlight_text_diff (old_text new_text : str) : str :=
  let old_words := findall word_pattern old_text in
  let new_words := findall word_pattern new_text in
  join (flat_map (text_pieces old_words new_words)
          (Difflib.get_opcodes str_eqb old_words new_words)).

(** *** The unit matcher and the splice: [highlight_changed_elements] *)

Definition SIMILARITY_THRESHOLD_MIN : Q := 5 # 10.
Definition SIMILARITY_THRESHOLD_MAX : Q := 99 # 100.

(** [x < y] on ratios. *)
Definition Qltb (x y : Q) : bool := negb (Qle_bool y x).

(** [difflib.SequenceMatcher(None, old_text, new_text).ratio()] *)
Definition text_ratio (old_text new_text : str) : Q :=
  Difflib.ratio N.eqb old_text new_text.

(** The loop [for idx, (old_text, old_elem) in enumerate(old_elem_list)]. *)
Fixpoint best_match (old_elem_list : list (str * str)) (idx : nat)
    (used_old_indices : list nat) (new_text : str)
    (best_match_idx : option nat) (best_ratio : Q) : option nat * Q :=
  match old_elem_list with
  | [] => (best_match_idx, best_ratio)
  | (old_text, _) :: rest =>
      if existsb (Nat.eqb idx) used_old_indices
      then best_match rest (S idx) used_old_indices new_text
                      best_match_idx best_ratio
      else
        let ratio := text_ratio old_text new_text in
        if Qltb best_ratio ratio
        then best_match rest (S idx) used_old_indices new_text (Some idx) ratio
        else best_match rest (S idx) used_old_indices new_text
                        best_match_idx best_ratio
  end.

(** The branch the loop takes for a new element with text. *)
Inductive verdict : Type :=
| Modified (old_idx : nat)     (* the [if]: paired with an old element *)
| Added                        (* the [elif]: a completely new element *)
| Unhighlighted.               (* neither *)

(** The two tests of the [if] and the [elif]; [new_text] is not empty
    there. *)
Definition classify (best_match_idx : option nat) (best_ratio : Q) : verdict :=
  match best_match_idx with
  | Some idx =>
      if Qltb SIMILARITY_THRESHOLD_MIN best_ratio
         && Qltb best_ratio SIMILARITY_THRESHOLD_MAX
      then Modified idx
      else if Qltb best_ratio SIMILARITY_THRESHOLD_MIN then Added
      else Unhighlighted
  | None => Added
  end.

(** The state of the loop over [new_elements].  [log] is not in the script:
    it records, for the position of each new element with text, the branch
    the loop took. *)
Record state := {
  used_old_indices : list nat;
  highlighted_new_html : str;
  changes_made : nat;
  log : list (nat * verdict)
}.

Definition add_used (idx : nat) (st : state) : state :=
  {| used_old_indices := idx :: used_old_indices st;
     highlighted_new_html := highlighted_new_html st;
     changes_made := changes_made st;
     log := log st |}.

Definition add_log (n : nat) (v : verdict) (st : state) : state :=
  {| used_old_indices := used_old_indices st;
     highlighted_new_html := highlighted_new_html st;
     changes_made := changes_made st;
     log := log st ++ [(n, v)] |}.

(** [re.match(...).groups()] against the pattern of the outer tags. *)
Definition outer_tags (elem : str) : option (str * str * str) :=
  match match_ outer_tags_pattern elem with
  | Some tag_match =>
      Some (group 1 tag_match, group 2 tag_match, group 3 tag_match)
  | None => None
  end.

(** [highlighted_new_html = re.sub(re.escape(new_elem), highlighted_elem,
    highlighted_new_html, count=1)] and [changes_made += 1]; the second
    component is the exception, if [re.sub] raises one. *)
Definition splice (new_elem highlighted_elem : str) (st : state)
    : state * option str :=
  match sub_literal_once new_elem highlighted_elem (highlighted_new_html st) with
  | Returned html =>
      ({| used_old_indices := used_old_indices st;
          highlighted_new_html := html;
          changes_made := changes_made st + 1;
          log := log st |}, None)
  | Raised e => (st, Some e)
  end.

(** One round of the loop [for new_elem in new_elements]; [n] is the
    position of [new_elem] in [new_elements]. *)
Definition step (old_elem_list : list (str * str)) (st : state) (n : nat)
    (new_elem : str) : state * option str :=
  let new_text := extract_text_from_element new_elem in
  if negb (nonempty new_text) then (st, None)
  else
    let '(best_match_idx, best_ratio) :=
      best_match old_elem_list 0 (used_old_indices st) new_text None 0 in
    let v := classify best_match_idx best_ratio in
    let st := add_log n v st in
    match v with
    | Modified idx =>
        let st := add_used idx st in
        let old_elem := snd (nth idx old_elem_list ([], [])) in
        match outer_tags new_elem with
        | Some (open_tag, inner_content, close_tag) =>
            let old_inner_content :=
              match outer_tags old_elem with
              | Some (_, inner, _) => inner
              | None => []
              end in
            let highlighted_inner :=
              highlight_html_diff old_inner_content inner_content in
            splice new_elem (open_tag ++ highlighted_inner ++ close_tag) st
        | None => (st, None)
        end
    | Added =>
        match outer_tags new_elem with
        | Some (open_tag, inner_content, close_tag) =>
            splice new_elem
                   (open_tag ++ mark (L "preview-element-added") inner_content
                             ++ close_tag) st
        | None => (st, None)
        end
    | Unhighlighted => (st, None)
    end.

Fixpoint loop (old_elem_list : list (str * str)) (st : state) (n : nat)
    (new_elements : list str) : state * option str :=
  match new_elements with
  | [] => (st, None)
  | new_elem :: rest =>
      match step old_elem_list st n new_elem with
      | (st', None) => loop old_elem_list st' (S n) rest
      | (st', Some e) => (st', Some e)
      end
  end.

(** [old_elem_list]: the old elements with text, each with its text. *)
Definition old_elements_with_text (old_content : str) : list (str * str) :=
  flat_map (fun elem => let text := extract_text_from_element elem in
                        if nonempty text then [(text, elem)] else [])
           (findall element_pattern old_content).

(** The body of [highlight_changed_elements] below its first test: the
    final state of the loop, and the exception if one was raised. *)
Definition match_and_splice (old_html new_html : str) : state * option str :=
  let old_content := extract_main_content old_html in
  let new_content := extract_main_content new_html in
  let old_elem_list := old_elements_with_text old_content in
  let new_elements := findall element_pattern new_content in
  loop old_elem_list
       {| used_old_indices := []; highlighted_new_html := new_html;
          changes_made := 0; log := [] |}
       0 new_elements.

(** [highlight_changed_elements(old_html, new_html)]; [old_html] is [None]
    when there is no base version. *)
Definition highlight_changed_elements (old_html : option str) (new_html : str)
    : outcome (str * nat) :=
  match old_html with
  | None | Some [] => Returned (new_html, 0)
  | Some old_html =>
      match match_and_splice old_html new_html with
      | (st, None) => Returned (highlighted_new_html st, changes_made st)
      | (_, Some e) => Raised e
      end
  end.

(** The pairs [(old index, new position)] the matcher formed. *)
Definition matched_pairs (l : list (nat * verdict)) : list (nat * nat) :=
  flat_map (fun e => match e with
                     | (n, Modified idx) => [(idx, n)]
                     | _ => []
                     end) l.

(** *** The whole-document similarity: [find_changed_sections]

    The second component of the pair the method returns; the first one, the
    lines of a unified diff, is not modelled. *)
Definition find_changed_sections_similarity (old_html : option str)
    (new_html : str) : Q :=
  match old_html with
  | None | Some [] => 0
  | Some old_html =>
      let old_content := normalize_html (extract_main_content old_html) in
      let new_content := normalize_html (extract_main_content new_html) in
      Difflib.ratio N.eqb old_content new_content
  end.

(** *** The table of contents: [highlight_toc_entries] *)

Definition add_toc_highlight_class (m : mtch) : str :=
  group 1 m ++ L " preview-toc-changed" ++ group 2 m.

(** The files of [set(changed_files)] are taken in the order of their first
    occurrence (the order of a Python set is not specified). *)
Definition highlight_toc_entries (html : str) (changed_files : list str) : str :=
  match changed_files with
  | [] => html
  | _ :: _ =>
      fold_left (fun html html_file =>
                   sub_fun (toc_pattern html_file) add_toc_highlight_class html)
                (nodup (list_eq_dec N.eq_dec) changed_files) html
  end.

(** *** Removing the highlights

    Not in the script: the inverse the specification names, which deletes
    every opening [<mark>] tag of the three preview classes and every
    [</mark>]. *)
Definition mark_pattern : regex :=
  Alt (Lit (Lq "<mark class='preview-text-changed'>"))
 (Alt (Lit (Lq "<mark class='preview-text-added'>"))
 (Alt (Lit (Lq "<mark class='preview-element-added'>"))
      (Lit (L "</mark>")))).

Definition strip_marks (html : str) : str := sub_plain mark_pattern [] html.

(** * Vocabulary of the statements and of the invariants *)

(** An old element at position [p] of [rest] is a candidate when its
    index [k + p] has not been used; [r] is its ratio with [new_text]. *)
Definition candidate (used : list nat) (new_text : str)
    (rest : list (str * str)) (k p : nat) (r : Q) : Prop :=
  exists old_text old_elem,
    nth_error rest p = Some (old_text, old_elem)
    /\ ~ In (k + p) used
    /\ r = text_ratio old_text new_text.

(** The invariant of the loop before the new element at position [n]. *)
Record matching_ok (st : state) (n : nat) : Prop := {
  ok_used : forall idx, In idx (map fst (matched_pairs (log st))) ->
                        In idx (used_old_indices st);
  ok_old : NoDup (map fst (matched_pairs (log st)));
  ok_seen : forall m, In m (map snd (matched_pairs (log st))) -> m < n;
  ok_new : NoDup (map snd (matched_pairs (log st)))
}.

(** The length [j2len] gives to [j]: [j2lenget(j-1, 0) + 1]. *)
Definition kval (M : Difflib.dict) (j : nat) : nat :=
  match j with O => 0 | S j' => Difflib.dict_get M j' 0 end + 1.

(** [run_before eqb s i]: the number of elements before position [i] in the
    longest run of elements of [s] that are not popular and ends there. *)
Fixpoint run_before {A : Type} (eqb : A -> A -> bool) (s : list A) (i : nat)
    : nat :=
  match i with
  | O => 0
  | S i' => match nth_error s i' with
            | Some x => if Difflib.popular eqb s x then 0
                        else run_before eqb s i' + 1
            | None => 0
            end
  end.

(** The state of [find_longest_match(0, n, 0, n)] over [s] and [s] before
    row [i]: [M] is [j2len], the best match is [(bi, bi, bs)]. *)
Record diag_inv {A : Type} (eqb : A -> A -> bool) (s : list A) (i : nat)
    (M : Difflib.dict) (bi bs : nat) : Prop := {
  inv_all : forall j, Difflib.dict_get M j 0 <= run_before eqb s i;
  inv_past : forall j, S j < i ->
                       Difflib.dict_get M j 0 <= run_before eqb s (S j);
  inv_diag : forall i', i = S i' ->
                        Difflib.dict_get M i' 0 = run_before eqb s i;
  inv_fit : bi + bs <= i;
  inv_best : forall i', i' <= i -> run_before eqb s i' <= bs
}.

(** In the window that starts at [alo] and [blo] and ends before [bhi]:
    what [j2len] can hold before row [i], and where the best match lies. *)
Definition dict_fits (alo blo bhi i : nat) (M : Difflib.dict) : Prop :=
  forall j, Difflib.dict_get M j 0 <= i - alo
            /\ (0 < Difflib.dict_get M j 0 ->
                Difflib.dict_get M j 0 + blo <= S j /\ j < bhi).

Definition best_fits (alo blo bhi i : nat) (best : Difflib.block) : Prop :=
  let '(bi, bj, bs) := best in
  alo <= bi /\ blo <= bj /\ bi + bs <= i /\ bj + bs <= bhi.

(** An entry of the queue of [get_matching_blocks]. *)
Definition window := (nat * nat * nat * nat)%type.

Definition window_ok (w : window) : Prop :=
  let '(alo, ahi, blo, bhi) := w in alo <= ahi /\ blo <= bhi.

(** The rounds a window can take: itself and the windows cut from it. *)
Definition cost (queue : list window) : nat :=
  fold_right (fun w c => let '(alo, ahi, _, _) := w in 2 * (ahi - alo) + 1 + c)
             0 queue.

(** [sub in s] *)
Definition occurs (sub s : str) : bool :=
  match search (Lit sub) s with
  | Some _ => true
  | None => false
  end.

(** A unit is flagged added in [out] when [out] holds the unit with its
    inner content wrapped in the mark of an added element. *)
Definition flagged_added (elem out : str) : bool :=
  match outer_tags elem with
  | Some (open_tag, inner_content, close_tag) =>
      occurs (open_tag ++ mark (L "preview-element-added") inner_content
                       ++ close_tag) out
  | None => false
  end.

(** The matched elements of a list of blocks, as [ratio] adds them up. *)
Definition total_size (l : list Difflib.block) : nat :=
  fold_right (fun t acc => let '(_, _, k) := t in k + acc) 0 l.

(** The elements of [a], and of [b], that the windows of a queue cover. *)
Definition width_a (queue : list window) : nat :=
  fold_right (fun w c => let '(alo, ahi, _, _) := w in (ahi - alo) + c) 0 queue.

Definition width_b (queue : list window) : nat :=
  fold_right (fun w c => let '(_, _, blo, bhi) := w in (bhi - blo) + c) 0 queue.

(** Ranges as the word aligner gives them: not empty, of kind [replace] or
    [insert], in ascending order and apart, none starting before [lo]. *)
Fixpoint ordered_ranges (lo : nat) (l : list range) : Prop :=
  match l with
  | [] => True
  | (start, end_, change_type) :: l' =>
      lo <= start /\ start < end_
      /\ (change_type = Difflib.Replace \/ change_type = Difflib.Insert)
      /\ ordered_ranges end_ l'
  end.

(** A piece of annotated text: plain, or wrapped in a mark of a class. *)
Definition seg := (option str * str)%type.

Definition render_seg (sg : seg) : str :=
  match fst sg with
  | Some class => mark class (snd sg)
  | None => snd sg
  end.

(** What a pattern can match, read off its syntax: [sem r pre c c'] holds
    when [r] matches the text [pre] and turns the groups [c] into [c'].  It
    says which texts are matches, not which of them the matcher prefers. *)
Fixpoint sem (r : regex) (pre : str) (c c' : caps) : Prop :=
  match r with
  | Lit l => pre = l /\ c' = c
  | One p => (exists x, pre = [x] /\ p x = true) /\ c' = c
  | Rep p lo hi _ =>
      Forall (fun x => p x = true) pre
      /\ lo <= length pre
      /\ match hi with Some h => length pre <= h | None => True end
      /\ c' = c
  | Cat r1 r2 =>
      exists p1 p2 c1, pre = p1 ++ p2 /\ sem r1 p1 c c1 /\ sem r2 p2 c1 c'
  | Alt r1 r2 => sem r1 pre c c' \/ sem r2 pre c c'
  | Grp n r1 => exists c1, sem r1 pre c c1 /\ c' = (n, pre) :: c1
  end.

(** [t] is a part of [s]: some characters of [s] in a row. *)
Definition part (t s : str) : Prop := exists pre post, s = pre ++ t ++ post.

(** [t] is [s] with some characters left out. *)
Inductive subseq : str -> str -> Prop :=
| subseq_nil : subseq [] []
| subseq_skip (x : char) (t s : str) : subseq t s -> subseq t (x :: s)
| subseq_take (x : char) (t s : str) : subseq t s -> subseq (x :: t) (x :: s).

(** The text a piece of a scan stands for. *)
Definition piece_text (p : piece) : str :=
  match p with
  | Plain x => [x]
  | Match m => text m
  end.

(** A pattern without capture groups. *)
Fixpoint groupfree (r : regex) : bool :=
  match r with
  | Grp _ _ => false
  | Cat r1 r2 | Alt r1 r2 => groupfree r1 && groupfree r2
  | _ => true
  end.

(** What [re.sub] puts for a piece, with [f] for the matches. *)
Definition piece_sub (f : mtch -> str) (p : piece) : str :=
  match p with
  | Plain x => [x]
  | Match m => f m
  end.

(** Blocks in a staircase from the corner [(i, j)] that ends within
    [(ie, je)]: each block starts at or after the end of the one before, in
    both sequences. *)
Fixpoint stairs (i j : nat) (l : list Difflib.block) (ie je : nat) : Prop :=
  match l with
  | [] => i <= ie /\ j <= je
  | (bi, bj, bk) :: l' =>
      i <= bi /\ j <= bj /\ stairs (bi + bk) (bj + bk) l' ie je
  end.

(** The work of [get_matching_blocks] laid out in order: the blocks found
    and the windows still to search, each after the one before. *)
Inductive item : Type :=
| Blk (b : Difflib.block)
| Win (w : window).

Fixpoint lay (i j : nat) (l : list item) (ie je : nat) : Prop :=
  match l with
  | [] => i <= ie /\ j <= je
  | Blk (bi, bj, bk) :: l' =>
      i <= bi /\ j <= bj /\ 1 <= bk /\ lay (bi + bk) (bj + bk) l' ie je
  | Win (alo, ahi, blo, bhi) :: l' =>
      i <= alo /\ j <= blo /\ alo <= ahi /\ blo <= bhi /\ lay ahi bhi l' ie je
  end.

Definition blocks_of (l : list item) : list Difflib.block :=
  flat_map (fun x => match x with Blk b => [b] | Win _ => [] end) l.

Definition wins_of (l : list item) : list window :=
  flat_map (fun x => match x with Win w => [w] | Blk _ => [] end) l.

(** The order of [matching_blocks.sort()] as a proposition. *)
Definition block_le (x y : Difflib.block) : Prop :=
  let '(i1, j1, k1) := x in
  let '(i2, j2, k2) := y in
  i1 < i2 \/ (i1 = i2 /\ (j1 < j2 \/ (j1 = j2 /\ k1 <= k2))).


(** A pair [(old index, new position)] of two elements that are there and
    whose texts have a ratio between the two thresholds. *)
Definition similar_pair (old_elem_list : list (str * str))
    (new_elements : list str) (p : nat * nat) : Prop :=
  exists old_text old_elem new_elem,
    nth_error old_elem_list (fst p) = Some (old_text, old_elem)
    /\ nth_error new_elements (snd p) = Some new_elem
    /\ (SIMILARITY_THRESHOLD_MIN
        < text_ratio old_text (extract_text_from_element new_elem))%Q
    /\ (text_ratio old_text (extract_text_from_element new_elem)
        < SIMILARITY_THRESHOLD_MAX)%Q.

(** The text [body] stands in [html] between a [<main ...>] tag and a
    [</main>]. *)
Definition main_region (html body : str) : Prop :=
  exists pre attrs post,
    html = pre ++ L "<main" ++ attrs ++ L ">" ++ body ++ L "</main>" ++ post
    /\ ~ In (chr ">") attrs.

(** The text [body] stands in [html] between a [<div ...>] tag with
    [content] in its class and a [</div>]. *)
Definition content_region (html body : str) : Prop :=
  exists pre a1 v1 v2 a2 post,
    html = pre ++ L "<div" ++ a1 ++ Lq "class='" ++ v1 ++ L "content"
               ++ v2 ++ [dquote] ++ a2 ++ L ">" ++ body ++ L "</div>" ++ post
    /\ ~ In (chr ">") a1 /\ ~ In dquote v1 /\ ~ In dquote v2
    /\ ~ In (chr ">") a2.

(** A text with no more decimal digits than [int] accepts in one numeral:
    no character reference in it, nor in a text made of its parts, is
    refused by [html.unescape]. *)
Definition digits_within_limit (s : str) : Prop :=
  length (filter digit s) <= Html.int_max_str_digits.

(** * Properties *)

(** ** Ratios *)

Lemma Qltb_lt (x y : Q) : Qltb x y = true <-> (x < y)%Q.
Proof.
  unfold Qltb. rewrite negb_true_iff. split.
  - intros H. apply Qnot_le_lt. intros Hle.
    apply Qle_bool_iff in Hle. congruence.
  - intros H. destruct (Qle_bool y x) eqn:E; [|reflexivity].
    apply Qle_bool_iff in E. exfalso. exact (Qlt_not_le _ _ H E).
Qed.

Lemma Qltb_ge (x y : Q) : Qltb x y = false <-> (y <= x)%Q.
Proof.
  unfold Qltb. rewrite negb_false_iff. apply Qle_bool_iff.
Qed.

(** ** The inner loop of the matcher *)

Section BestMatch.
Variable used : list nat.
Variable new_text : str.

Lemma existsb_used (i : nat) :
  existsb (Nat.eqb i) used = true <-> In i used.
Proof.
  rewrite existsb_exists. split.
  - intros [x [Hin Hx]]. apply Nat.eqb_eq in Hx. subst. exact Hin.
  - intros Hin. exists i. split; [exact Hin | apply Nat.eqb_refl].
Qed.

Lemma best_match_spec (rest : list (str * str)) :
  forall k bi br ri rr,
    best_match rest k used new_text bi br = (ri, rr) ->
    (br <= rr)%Q
    /\ (forall p r, candidate used new_text rest k p r -> (r <= rr)%Q)
    /\ ((ri = bi /\ rr = br)
        \/ (exists p, ri = Some (k + p)
              /\ candidate used new_text rest k p rr
              /\ (br < rr)%Q
              /\ forall p' r', p' < p -> candidate used new_text rest k p' r' -> (r' < rr)%Q)).
Proof.
  induction rest as [|[old_text old_elem] rest IH]; intros k bi br ri rr H.
  - simpl in H. inversion H; subst. split; [apply Qle_refl|]. split.
    + intros p r (ot & oe & Hn & _). destruct p; discriminate.
    + left. split; reflexivity.
  - simpl in H.
    assert (Hshift : forall p r, candidate used new_text rest (S k) p r
                                 <-> candidate used new_text ((old_text, old_elem) :: rest) k (S p) r).
    { intros p r. unfold candidate. simpl.
      replace (k + S p) with (S k + p) by lia. reflexivity. }
    destruct (existsb (Nat.eqb k) used) eqn:Eu.
    + (* the element is used: skipped *)
      apply existsb_used in Eu.
      destruct (IH _ _ _ _ _ H) as (Hle & Hmax & Hsel).
      split; [exact Hle|]. split.
      * intros [|p] r Hc.
        -- destruct Hc as (ot & oe & _ & Hnot & _).
           rewrite Nat.add_0_r in Hnot. contradiction.
        -- apply Hmax with p. apply Hshift. exact Hc.
      * destruct Hsel as [Hsame | (p & Hri & Hc & Hlt & Hfirst)];
          [left; exact Hsame|].
        right. exists (S p). split; [rewrite Hri; f_equal; lia|].
        split; [apply Hshift; exact Hc|]. split; [exact Hlt|].
        intros [|p'] r' Hp' Hc'.
        -- destruct Hc' as (ot & oe & _ & Hnot & _).
           rewrite Nat.add_0_r in Hnot. contradiction.
        -- apply Hfirst with p'; [lia | apply Hshift; exact Hc'].
    + assert (Hfree : ~ In k used).
      { intros Hin. apply existsb_used in Hin. congruence. }
      assert (Hhere : forall r, candidate used new_text ((old_text, old_elem) :: rest) k 0 r
                                -> r = text_ratio old_text new_text).
      { intros r (ot & oe & Hn & _ & Hr). simpl in Hn.
        inversion Hn; subst. reflexivity. }
      destruct (Qltb br (text_ratio old_text new_text)) eqn:Eb.
      * (* a strictly greater ratio: the element becomes the best *)
        apply Qltb_lt in Eb.
        destruct (IH _ _ _ _ _ H) as (Hle & Hmax & Hsel).
        split; [apply Qle_trans with (text_ratio old_text new_text);
                [apply Qlt_le_weak; exact Eb | exact Hle]|].
        split.
        -- intros [|p] r Hc.
           ++ rewrite (Hhere _ Hc). exact Hle.
           ++ apply Hmax with p. apply Hshift. exact Hc.
        -- right.
           destruct Hsel as [[Hri Hrr] | (p & Hri & Hc & Hlt & Hfirst)].
           ++ exists 0. subst ri rr.
              split; [f_equal; lia|]. split.
              { exists old_text, old_elem. rewrite Nat.add_0_r.
                repeat split; auto. }
              split; [exact Eb|]. intros p' r' Hp'. lia.
           ++ exists (S p). split; [rewrite Hri; f_equal; lia|].
              split; [apply Hshift; exact Hc|].
              split; [apply Qlt_trans with (text_ratio old_text new_text);
                      assumption|].
              intros [|p'] r' Hp' Hc'.
              ** rewrite (Hhere _ Hc'). exact Hlt.
              ** apply Hfirst with p'; [lia | apply Hshift; exact Hc'].
      * (* not greater: the best stays *)
        apply Qltb_ge in Eb.
        destruct (IH _ _ _ _ _ H) as (Hle & Hmax & Hsel).
        split; [exact Hle|]. split.
        -- intros [|p] r Hc.
           ++ rewrite (Hhere _ Hc). apply Qle_trans with br; assumption.
           ++ apply Hmax with p. apply Hshift. exact Hc.
        -- destruct Hsel as [Hsame | (p & Hri & Hc & Hlt & Hfirst)];
             [left; exact Hsame|].
           right. exists (S p). split; [rewrite Hri; f_equal; lia|].
           split; [apply Hshift; exact Hc|]. split; [exact Hlt|].
           intros [|p'] r' Hp' Hc'.
           ++ rewrite (Hhere _ Hc').
              apply Qle_lt_trans with br; assumption.
           ++ apply Hfirst with p'; [lia | apply Hshift; exact Hc'].
Qed.

End BestMatch.

Lemma best_match_unused :
  forall old_elem_list used new_text idx r,
    best_match old_elem_list 0 used new_text None 0 = (Some idx, r) ->
    ~ In idx used.
Proof.
  intros olds used new_text idx r H.
  destruct (best_match_spec used new_text olds _ _ _ _ _ H)
    as (_ & _ & [[Hri _] | (p & Hri & Hc & _)]); [discriminate|].
  inversion Hri; subst idx. destruct Hc as (_ & _ & _ & Hfree & _).
  exact Hfree.
Qed.

(** C10, as worded, fails when the maximal ratio is 0: two old elements,
    neither used, tie against the new text at the maximal ratio 0, and the
    matcher selects neither of them, since a candidate replaces the best
    only with a ratio strictly greater than the initial [0.0]. *)
Example tie_at_zero_selects_none :
  let olds := [(L "ab", L "<p>ab</p>"); (L "cd", L "<p>cd</p>")] in
  candidate [] (L "xy") olds 0 0 (0 # 4)
  /\ candidate [] (L "xy") olds 0 1 (0 # 4)
  /\ (forall j rj, candidate [] (L "xy") olds 0 j rj -> (rj <= 0 # 4)%Q)
  /\ best_match olds 0 [] (L "xy") None 0 = (None, 0%Q).
Proof.
  cbv zeta.
  assert (Hb : best_match [(L "ab", L "<p>ab</p>"); (L "cd", L "<p>cd</p>")]
                 0 [] (L "xy") None 0 = (None, 0%Q))
    by (vm_compute; reflexivity).
  split; [|split; [|split; [|exact Hb]]].
  - exists (L "ab"), (L "<p>ab</p>").
    split; [reflexivity|]. split; [intros []|]. vm_compute. reflexivity.
  - exists (L "cd"), (L "<p>cd</p>").
    split; [reflexivity|]. split; [intros []|]. vm_compute. reflexivity.
  - intros j rj Hc.
    destruct (best_match_spec [] (L "xy") _ _ _ _ _ _ Hb) as (_ & Hmax & _).
    apply Qle_trans with 0%Q; [exact (Hmax j rj Hc) | discriminate].
Qed.

(** C10, amended: what [best_match] returns, in full.  Either some unused
    old element has a ratio above 0, and then the matcher returns the
    maximal ratio among the unused elements with the index of the earliest
    one that reaches it (a later element replaces the best only with a
    strictly greater ratio); or none has, and then it returns no index and
    the ratio [0]. *)
Theorem best_match_earliest_positive_tie :
  forall old_elem_list used new_text,
    (exists idx r,
       best_match old_elem_list 0 used new_text None 0 = (Some idx, r)
       /\ (0 < r)%Q
       /\ candidate used new_text old_elem_list 0 idx r
       /\ (forall j rj, candidate used new_text old_elem_list 0 j rj ->
                        (rj <= r)%Q)
       /\ (forall j rj, candidate used new_text old_elem_list 0 j rj ->
                        (rj == r)%Q -> idx <= j))
    \/ (best_match old_elem_list 0 used new_text None 0 = (None, 0%Q)
        /\ forall j rj, candidate used new_text old_elem_list 0 j rj ->
                        (rj <= 0)%Q).
Proof.
  intros olds used new_text.
  destruct (best_match olds 0 used new_text None 0) as [ri rr] eqn:H.
  destruct (best_match_spec used new_text olds _ _ _ _ _ H)
    as (_ & Hmax & [[Hri Hrr] | (p & Hri & Hc & Hpos & Hfirst)]).
  - right. subst ri rr. split; [reflexivity | exact Hmax].
  - left. exists p, rr. simpl in Hri. subst ri.
    split; [reflexivity|]. split; [exact Hpos|]. split; [exact Hc|].
    split; [exact Hmax|].
    intros j rj Hj Heq.
    destruct (Nat.le_gt_cases p j) as [Hle | Hgt]; [exact Hle|].
    exfalso. pose proof (Hfirst j rj Hgt Hj) as Hlt.
    rewrite Heq in Hlt. exact (Qlt_irrefl _ Hlt).
Qed.

(** A tie above 0: the first of two old elements at ratio 1/2 is the one
    returned. *)
Example best_match_tie_at_half :
  best_match [(L "ab", L "<p>ab</p>"); (L "ad", L "<p>ad</p>")] 0 []
             (L "ac") None 0
  = (Some 0, 2 # 4).
Proof. vm_compute. reflexivity. Qed.

(** ** The loop of the matcher *)

Lemma classify_modified (bi : option nat) (br : Q) (idx : nat) :
  classify bi br = Modified idx ->
  bi = Some idx
  /\ (SIMILARITY_THRESHOLD_MIN < br)%Q /\ (br < SIMILARITY_THRESHOLD_MAX)%Q.
Proof.
  unfold classify. destruct bi as [i|]; [|discriminate].
  destruct (Qltb SIMILARITY_THRESHOLD_MIN br) eqn:E1;
    destruct (Qltb br SIMILARITY_THRESHOLD_MAX) eqn:E2; simpl;
    try (destruct (Qltb br SIMILARITY_THRESHOLD_MIN); discriminate).
  intros H. inversion H; subst.
  apply Qltb_lt in E1. apply Qltb_lt in E2. auto.
Qed.

(** The three bands of the best ratio, as the two tests cut them. *)
Lemma classify_bands (bi : option nat) (br : Q) :
  match classify bi br with
  | Modified idx =>
      bi = Some idx
      /\ (SIMILARITY_THRESHOLD_MIN < br)%Q /\ (br < SIMILARITY_THRESHOLD_MAX)%Q
  | Added => bi = None \/ (br < SIMILARITY_THRESHOLD_MIN)%Q
  | Unhighlighted =>
      bi <> None
      /\ ((br == SIMILARITY_THRESHOLD_MIN)%Q
          \/ (SIMILARITY_THRESHOLD_MAX <= br)%Q)
  end.
Proof.
  destruct (classify bi br) as [idx| |] eqn:E.
  - apply classify_modified. exact E.
  - unfold classify in E. destruct bi as [i|]; [|left; reflexivity].
    right.
    destruct (Qltb SIMILARITY_THRESHOLD_MIN br && Qltb br SIMILARITY_THRESHOLD_MAX);
      [discriminate|].
    destruct (Qltb br SIMILARITY_THRESHOLD_MIN) eqn:E1; [|discriminate].
    apply Qltb_lt. exact E1.
  - unfold classify in E. destruct bi as [i|]; [|discriminate].
    split; [discriminate|].
    destruct (Qltb SIMILARITY_THRESHOLD_MIN br) eqn:E1;
      destruct (Qltb br SIMILARITY_THRESHOLD_MAX) eqn:E2; simpl in E;
      try discriminate;
      destruct (Qltb br SIMILARITY_THRESHOLD_MIN) eqn:E3; try discriminate.
    + right. apply Qltb_ge. exact E2.
    + left. apply Qltb_ge in E1. apply Qltb_ge in E3.
      apply Qle_antisym; assumption.
    + right. apply Qltb_ge. exact E2.
Qed.

Lemma splice_keeps (new_elem highlighted_elem : str) (st : state) :
  log (fst (splice new_elem highlighted_elem st)) = log st
  /\ used_old_indices (fst (splice new_elem highlighted_elem st))
     = used_old_indices st.
Proof.
  unfold splice.
  destruct (sub_literal_once new_elem highlighted_elem (highlighted_new_html st));
    simpl; auto.
Qed.

(** What one round does to the log and to the set of used indices. *)
Lemma step_effect (olds : list (str * str)) (st : state) (n : nat)
    (new_elem : str) :
  let st' := fst (step olds st n new_elem) in
  (log st' = log st /\ used_old_indices st' = used_old_indices st)
  \/ (exists idx,
        log st' = log st ++ [(n, Modified idx)]
        /\ ~ In idx (used_old_indices st)
        /\ used_old_indices st' = idx :: used_old_indices st)
  \/ (exists v,
        (v = Added \/ v = Unhighlighted)
        /\ log st' = log st ++ [(n, v)]
        /\ used_old_indices st' = used_old_indices st).
Proof.
  unfold step.
  destruct (nonempty (extract_text_from_element new_elem)); simpl;
    [|left; auto].
  destruct (best_match olds 0 (used_old_indices st)
              (extract_text_from_element new_elem) None 0) as [bi br] eqn:Eb.
  destruct (classify bi br) as [idx| |] eqn:Ec.
  - right; left. exists idx.
    apply classify_modified in Ec. destruct Ec as (-> & _).
    pose proof (best_match_unused _ _ _ _ _ Eb) as Hfree.
    destruct (outer_tags new_elem) as [[[open_tag inner] close_tag]|].
    + match goal with
      | |- context [splice ?a ?b ?s] =>
          destruct (splice_keeps a b s) as (Hl & Hu); rewrite Hl, Hu
      end.
      simpl. auto.
    + simpl. auto.
  - right; right. exists Added. split; [auto|].
    destruct (outer_tags new_elem) as [[[open_tag inner] close_tag]|].
    + match goal with
      | |- context [splice ?a ?b ?s] =>
          destruct (splice_keeps a b s) as (Hl & Hu); rewrite Hl, Hu
      end.
      simpl. auto.
    + simpl. auto.
  - right; right. exists Unhighlighted. simpl. auto.
Qed.

Lemma matched_pairs_app (l1 l2 : list (nat * verdict)) :
  matched_pairs (l1 ++ l2) = matched_pairs l1 ++ matched_pairs l2.
Proof. unfold matched_pairs. apply flat_map_app. Qed.

Lemma NoDup_snoc {A} (l : list A) (x : A) :
  NoDup l -> ~ In x l -> NoDup (l ++ [x]).
Proof.
  intros Hl Hx. apply NoDup_rev in Hl.
  rewrite <- (rev_involutive (l ++ [x])). apply NoDup_rev.
  rewrite rev_app_distr. simpl. constructor; [|exact Hl].
  rewrite <- in_rev. exact Hx.
Qed.

Lemma step_matching_ok (olds : list (str * str)) (st : state) (n : nat)
    (new_elem : str) :
  matching_ok st n -> matching_ok (fst (step olds st n new_elem)) (S n).
Proof.
  intros [Hused Hold Hseen Hnew].
  destruct (step_effect olds st n new_elem)
    as [(Hl & Hu) | [(idx & Hl & Hfree & Hu) | (v & Hv & Hl & Hu)]].
  - constructor; rewrite ?Hl, ?Hu; auto.
    intros m Hm. specialize (Hseen m Hm). lia.
  - constructor; rewrite ?Hl, ?Hu, matched_pairs_app, map_app; simpl.
    + intros i Hi. apply in_app_or in Hi. destruct Hi as [Hi | [Hi | []]].
      * right. auto.
      * left. exact Hi.
    + apply NoDup_snoc; [exact Hold|]. intros Hin. apply Hfree. auto.
    + intros m Hm. apply in_app_or in Hm. destruct Hm as [Hm | [Hm | []]].
      * specialize (Hseen m Hm). lia.
      * subst. lia.
    + apply NoDup_snoc; [exact Hnew|]. intros Hin.
      specialize (Hseen n Hin). lia.
  - assert (Hnone : matched_pairs [(n, v)] = []).
    { destruct Hv; subst; reflexivity. }
    constructor; rewrite ?Hl, ?Hu, matched_pairs_app, Hnone, app_nil_r; auto.
    intros m Hm. specialize (Hseen m Hm). lia.
Qed.

Lemma loop_matching_ok (olds : list (str * str)) (new_elements : list str) :
  forall st n,
    matching_ok st n ->
    exists n', matching_ok (fst (loop olds st n new_elements)) n'.
Proof.
  induction new_elements as [|e rest IH]; intros st n Hok; simpl.
  - exists n. exact Hok.
  - pose proof (step_matching_ok olds st n e Hok) as Hstep.
    destruct (step olds st n e) as [st' [exn|]]; simpl in *.
    + exists (S n). exact Hstep.
    + apply (IH st' (S n)). exact Hstep.
Qed.

(** C8: the pairs formed by the matcher are a partial injective matching: no
    old element and no new element is in two pairs.  The statement covers
    every run, also one that an exception ends. *)
Theorem matched_pairs_injective :
  forall old_html new_html,
    let pairs := matched_pairs (log (fst (match_and_splice old_html new_html))) in
    NoDup (map fst pairs) /\ NoDup (map snd pairs).
Proof.
  intros old_html new_html. unfold match_and_splice.
  match goal with
  | |- context [loop ?olds ?st ?n ?news] =>
      destruct (loop_matching_ok olds news st n) as [n' [_ Hold _ Hnew]]
  end.
  - constructor; simpl; try constructor; intros ? [].
  - split; assumption.
Qed.

(** A run with two pairs: the first new paragraph takes the old paragraph
    that the second one resembles more. *)
Example matched_pairs_two :
  matched_pairs
    (log (fst (match_and_splice
                 (L "<p>The cat sat down.</p><p>Dogs bark.</p>")
                 (L "<p>The cat sat up.</p><p>The cat sat down!</p><p>Dogs barked.</p>"))))
  = [(0, 0); (1, 2)].
Proof. vm_compute. reflexivity. Qed.

(** ** A sequence compared with itself

    [find_longest_match] over the whole of [s] and [s] returns the whole
    diagonal [(0, 0, len(s))], whatever elements [autojunk] made popular:
    the longest run of elements that are not popular is first reached on
    the diagonal, and the two loops that extend the match go along it. *)

Section Self.
Context {A : Type}.
Variable eqb : A -> A -> bool.
Hypothesis eqb_spec : forall x y, reflect (x = y) (eqb x y).

Import Difflib.

Lemma eqb_refl (x : A) : eqb x x = true.
Proof. destruct (eqb_spec x x); congruence. Qed.

Lemma indices_in (x : A) (l : list A) :
  forall o j, In j (indices eqb x l o) ->
              o <= j /\ nth_error l (j - o) = Some x.
Proof.
  induction l as [|y l IH]; intros o j Hin; simpl in Hin; [contradiction|].
  assert (Hrest : In j (indices eqb x l (S o)) ->
                  o <= j /\ nth_error (y :: l) (j - o) = Some x).
  { intros H. destruct (IH _ _ H) as (Hle & Hn). split; [lia|].
    replace (j - o) with (S (j - S o)) by lia. exact Hn. }
  destruct (eqb_spec y x) as [->|Hne].
  - destruct Hin as [<- | Hin]; [|auto].
    split; [lia|]. rewrite Nat.sub_diag. reflexivity.
  - auto.
Qed.

(** The positions of [x] are listed in ascending order. *)
Lemma indices_split (x : A) (l : list A) :
  forall o p, nth_error l p = Some x ->
    exists l1 l2,
      indices eqb x l o = l1 ++ (o + p) :: l2
      /\ Forall (fun j => j < o + p) l1
      /\ Forall (fun j => o + p < j) l2.
Proof.
  induction l as [|y l IH]; intros o p Hn; [destruct p; discriminate|].
  destruct p as [|p]; simpl in Hn.
  - inversion Hn; subst y. simpl. rewrite eqb_refl.
    exists [], (indices eqb x l (S o)). rewrite Nat.add_0_r.
    split; [reflexivity|]. split; [constructor|].
    apply Forall_forall. intros j Hj.
    destruct (indices_in _ _ _ _ Hj). lia.
  - destruct (IH (S o) p Hn) as (l1 & l2 & Heq & H1 & H2).
    replace (o + S p) with (S o + p) by lia.
    simpl. destruct (eqb y x).
    + exists (o :: l1), l2. rewrite Heq. split; [reflexivity|].
      split; [constructor; [lia | exact H1] | exact H2].
    + exists l1, l2. auto.
Qed.

Lemma row_get (i blo bhi : nat) (M : dict) (js : list nat) :
  forall newM best j,
    Forall (fun j => blo <= j < bhi) js ->
    dict_get (fst (row js i blo bhi M newM best)) j 0
    = if existsb (Nat.eqb j) js then kval M j else dict_get newM j 0.
Proof.
  induction js as [|j0 js IH]; intros newM best j Hjs; [reflexivity|].
  inversion Hjs as [|? ? [Hlo Hhi] Hjs']; subst. simpl.
  destruct (Nat.ltb_spec j0 blo); [lia|].
  destruct (Nat.leb_spec bhi j0); [lia|].
  destruct best as [[bi bj] bs].
  rewrite IH by exact Hjs'. simpl.
  destruct (Nat.eqb_spec j j0) as [->|Hne]; simpl.
  - rewrite Nat.eqb_refl. destruct (existsb _ js); reflexivity.
  - destruct (Nat.eqb_spec j0 j); [congruence|]. reflexivity.
Qed.

Lemma row_best_same (i blo bhi : nat) (M : dict) (js : list nat) :
  forall newM bi bj bs,
    Forall (fun j => kval M j <= bs) js ->
    snd (row js i blo bhi M newM (bi, bj, bs)) = (bi, bj, bs).
Proof.
  induction js as [|j0 js IH]; intros newM bi bj bs Hjs; [reflexivity|].
  inversion Hjs as [|? ? Hk Hjs']; subst. simpl.
  destruct (j0 <? blo); [apply IH; exact Hjs'|].
  destruct (bhi <=? j0); [reflexivity|].
  fold (kval M j0).
  destruct (Nat.ltb_spec bs (kval M j0)); [lia|].
  apply IH. exact Hjs'.
Qed.

Lemma row_app (i blo bhi : nat) (M : dict) (l1 l2 : list nat) :
  forall newM best,
    Forall (fun j => j < bhi) l1 ->
    row (l1 ++ l2) i blo bhi M newM best
    = row l2 i blo bhi M (fst (row l1 i blo bhi M newM best))
                         (snd (row l1 i blo bhi M newM best)).
Proof.
  induction l1 as [|j0 l1 IH]; intros newM best Hl1; [reflexivity|].
  inversion Hl1 as [|? ? Hhi Hl1']; subst. simpl.
  destruct (j0 <? blo); [apply IH; exact Hl1'|].
  destruct (Nat.leb_spec bhi j0); [lia|].
  destruct best as [[bi bj] bs]. apply IH. exact Hl1'.
Qed.

Variable s : list A.

Lemma run_before_le (i : nat) : run_before eqb s i <= i.
Proof.
  induction i as [|i IH]; simpl; [lia|].
  destruct (nth_error s i); [|lia]. destruct (popular eqb s a); lia.
Qed.

Lemma rows_diag :
  forall m i M bi bs,
    i + m = length s ->
    diag_inv eqb s i M bi bs ->
    exists bi' bs',
      rows eqb s s (seq i m) 0 (length s) M (bi, bi, bs) = (bi', bi', bs')
      /\ bi' + bs' <= length s.
Proof.
  induction m as [|m IH]; intros i M bi bs Hlen Hinv.
  - simpl. exists bi, bs. split; [reflexivity|].
    destruct Hinv as [_ _ _ Hfit _]. lia.
  - simpl.
    destruct (nth_error s i) as [x|] eqn:Hx;
      [|apply nth_error_None in Hx; lia].
    assert (Hrun : run_before eqb s (S i)
                   = if popular eqb s x then 0 else run_before eqb s i + 1).
    { simpl. rewrite Hx. reflexivity. }
    unfold b2j. destruct (popular eqb s x) eqn:Hpop.
    + (* a popular element: the row is empty *)
      simpl. apply IH; [lia|].
      destruct Hinv as [Hall Hpast Hdiag Hfit Hbest].
      constructor.
      * intros j. cbn [dict_get]. lia.
      * intros j Hj. cbn [dict_get]. lia.
      * intros i' Hi'. cbn [dict_get]. rewrite Hrun. reflexivity.
      * lia.
      * intros i' Hi'. destruct (Nat.eq_dec i' (S i)) as [->|];
          [rewrite Hrun; lia | apply Hbest; lia].
    + destruct (indices_split x s 0 i Hx) as (l1 & l2 & Hjs & H1 & H2).
      simpl in Hjs, H1, H2.
      destruct Hinv as [Hall Hpast Hdiag Hfit Hbest].
      pose proof (run_before_le i) as Hrle.
      assert (Hin : forall j, In j (indices eqb x s 0) ->
                              j < length s /\ nth_error s j = Some x).
      { intros j Hj. destruct (indices_in _ _ _ _ Hj) as (_ & Hn).
        rewrite Nat.sub_0_r in Hn. split; [|exact Hn].
        apply nth_error_Some. congruence. }
      assert (Hrange : Forall (fun j => 0 <= j < length s) (indices eqb x s 0)).
      { apply Forall_forall. intros j Hj. destruct (Hin j Hj). lia. }
      assert (Hki : kval M i = run_before eqb s i + 1).
      { unfold kval. destruct i as [|i']; [reflexivity|].
        rewrite (Hdiag i' eq_refl). reflexivity. }
      assert (Hk1 : Forall (fun j => kval M j <= bs) l1).
      { apply Forall_forall. intros j Hj.
        assert (Hlt : j < i) by (rewrite Forall_forall in H1; auto).
        destruct (Hin j) as (_ & Hnj); [rewrite Hjs; apply in_or_app; auto|].
        apply Nat.le_trans with (run_before eqb s (S j)); [|apply Hbest; lia].
        simpl. rewrite Hnj, Hpop. unfold kval.
        destruct j as [|j']; [simpl; lia|].
        specialize (Hpast j' Hlt). lia. }
      assert (Hkall : forall j, kval M j <= run_before eqb s i + 1).
      { intros j. unfold kval. destruct j as [|j']; [lia|].
        specialize (Hall j'). lia. }
      (* the best match after the row *)
      set (best2 := if bs <? kval M i
                    then (i + 1 - kval M i, i + 1 - kval M i, kval M i)
                    else (bi, bi, bs)).
      assert (Hsnd : forall newM,
                 snd (row (indices eqb x s 0) i 0 (length s) M newM (bi, bi, bs))
                 = best2).
      { intros newM. rewrite Hjs, row_app.
        2:{ apply Forall_forall. intros j Hj.
            destruct (Hin j); [rewrite Hjs; apply in_or_app; auto | lia]. }
        rewrite (row_best_same i 0 (length s) M l1 newM bi bi bs Hk1).
        simpl. destruct (Nat.leb_spec (length s) i); [lia|].
        fold (kval M i). fold best2.
        assert (Hk2 : forall s0, kval M i <= s0 ->
                        Forall (fun j => kval M j <= s0) l2).
        { intros s0 Hs0. apply Forall_forall. intros j _.
          specialize (Hkall j). lia. }
        unfold best2. destruct (Nat.ltb_spec bs (kval M i)).
        - apply row_best_same. apply Hk2. lia.
        - apply row_best_same. apply Hk2. lia. }
      destruct (row (indices eqb x s 0) i 0 (length s) M [] (bi, bi, bs))
        as [newM best'] eqn:Hrow.
      assert (Hbest' : best' = best2).
      { rewrite <- (Hsnd []), Hrow. reflexivity. }
      assert (Hget : forall j, dict_get newM j 0
                   = if existsb (Nat.eqb j) (indices eqb x s 0)
                     then kval M j else 0).
      { intros j.
        pose proof (row_get i 0 (length s) M (indices eqb x s 0) []
                            (bi, bi, bs) j Hrange) as Hg.
        rewrite Hrow in Hg. exact Hg. }
      assert (Hmem : forall j, existsb (Nat.eqb j) (indices eqb x s 0) = true
                               -> nth_error s j = Some x).
      { intros j Hj. apply existsb_exists in Hj.
        destruct Hj as (j' & Hj' & Heq). apply Nat.eqb_eq in Heq. subst j'.
        apply Hin. exact Hj'. }
      subst best'. unfold best2.
      destruct (Nat.ltb_spec bs (kval M i)) as [Hup | Hkeep].
      * apply IH; [lia|]. constructor.
        -- intros j. rewrite Hget, Hrun.
           destruct (existsb _ _); [apply Hkall | lia].
        -- intros j Hj. rewrite Hget.
           destruct (existsb _ _) eqn:Ej; [|lia].
           simpl. rewrite (Hmem j Ej), Hpop. unfold kval.
           destruct j as [|j']; [simpl; lia|].
           assert (S j' < i) by lia. specialize (Hpast j' H). lia.
        -- intros i' Hi'. inversion Hi'; subst i'. rewrite Hget, Hrun.
           replace (existsb (Nat.eqb i) (indices eqb x s 0)) with true;
             [exact Hki|].
           symmetry. apply existsb_exists. exists i.
           split; [rewrite Hjs; apply in_or_app; right; left; reflexivity
                  | apply Nat.eqb_refl].
        -- lia.
        -- intros i' Hi'. destruct (Nat.eq_dec i' (S i)) as [->|].
           ++ rewrite Hrun. lia.
           ++ assert (i' <= i) by lia. specialize (Hbest i' H). lia.
      * apply IH; [lia|]. constructor.
        -- intros j. rewrite Hget, Hrun.
           destruct (existsb _ _); [apply Hkall | lia].
        -- intros j Hj. rewrite Hget.
           destruct (existsb _ _) eqn:Ej; [|lia].
           simpl. rewrite (Hmem j Ej), Hpop. unfold kval.
           destruct j as [|j']; [simpl; lia|].
           assert (S j' < i) by lia. specialize (Hpast j' H). lia.
        -- intros i' Hi'. inversion Hi'; subst i'. rewrite Hget, Hrun.
           replace (existsb (Nat.eqb i) (indices eqb x s 0)) with true;
             [exact Hki|].
           symmetry. apply existsb_exists. exists i.
           split; [rewrite Hjs; apply in_or_app; right; left; reflexivity
                  | apply Nat.eqb_refl].
        -- lia.
        -- intros i' Hi'. destruct (Nat.eq_dec i' (S i)) as [->|].
           ++ rewrite Hrun. lia.
           ++ apply Hbest. lia.
Qed.

End Self.

Section SelfRatio.
Context {A : Type}.
Variable eqb : A -> A -> bool.
Hypothesis eqb_spec : forall x y, reflect (x = y) (eqb x y).
Variable s : list A.

Import Difflib.

Lemma same_at_diag (i : nat) : i < length s -> same_at eqb s s i i = true.
Proof.
  intros Hi. unfold same_at.
  destruct (nth_error s i) eqn:E; [apply (eqb_refl eqb eqb_spec)|].
  apply nth_error_None in E. lia.
Qed.

Lemma extend_left_diag :
  forall bi bs, bi <= length s ->
                extend_left eqb s s 0 0 bi bi bs = (0, 0, bs + bi).
Proof.
  induction bi as [|bi IH]; intros bs Hle; simpl.
  - rewrite Nat.add_0_r. reflexivity.
  - rewrite Nat.sub_0_r, same_at_diag by lia. simpl.
    rewrite IH by lia. f_equal. lia.
Qed.

Lemma extend_right_diag :
  forall gap bs, bs + gap = length s ->
                 extend_right eqb s s gap (length s) 0 0 bs = (0, 0, length s).
Proof.
  induction gap as [|gap IH]; intros bs Hlen; simpl.
  - rewrite Nat.add_0_r in Hlen. subst. reflexivity.
  - destruct (Nat.ltb_spec bs (length s)); [|lia].
    rewrite same_at_diag by lia. simpl. apply IH. lia.
Qed.

Lemma find_longest_match_self :
  find_longest_match eqb s s 0 (length s) 0 (length s) = (0, 0, length s).
Proof.
  unfold find_longest_match. rewrite Nat.sub_0_r.
  destruct (rows_diag eqb eqb_spec s (length s) 0 [] 0 0)
    as (bi & bs & Hrows & Hfit).
  - reflexivity.
  - constructor; simpl; intros; try lia.
    assert (i' = 0) by lia. subst. reflexivity.
  - rewrite Hrows, extend_left_diag by lia.
    apply extend_right_diag. lia.
Qed.

Lemma blocks_loop_nil (fuel : nat) (acc : list block) :
  blocks_loop eqb s s fuel [] acc = acc.
Proof. destruct fuel; reflexivity. Qed.

Lemma get_matching_blocks_self :
  get_matching_blocks eqb s s
  = match s with
    | [] => [(0, 0, 0)]
    | _ :: _ => [(0, 0, length s); (length s, length s, 0)]
    end.
Proof.
  unfold get_matching_blocks.
  replace (2 * length s + 1) with (S (2 * length s)) by lia.
  cbn [blocks_loop]. rewrite find_longest_match_self.
  rewrite Nat.add_0_l, !Nat.ltb_irrefl. cbn [andb].
  rewrite !blocks_loop_nil.
  destruct s as [|x l]; [reflexivity|].
  cbn [length Nat.eqb app sort_blocks fold_right insert_block collapse
       Nat.add andb].
  reflexivity.
Qed.

(** A sequence has ratio 1 with itself. *)
Lemma ratio_self : (ratio eqb s s == 1)%Q.
Proof.
  unfold ratio. rewrite get_matching_blocks_self.
  destruct s as [|x l]; [reflexivity|].
  cbn [fold_right]. unfold calculate_ratio.
  destruct (length (x :: l) + length (x :: l)) eqn:E; [simpl in E; lia|].
  rewrite <- E. unfold Qeq. cbn [Qnum Qden].
  rewrite Z.mul_1_r, Z.mul_1_l.
  rewrite <- positive_nat_Z, Nat2Pos.id by (simpl; lia).
  f_equal. lia.
Qed.

End SelfRatio.

(** ** Identical units

    Two units with the same inner markup give no changed range: the new
    markup is returned as it is. *)

Lemma str_eqb_spec (a b : str) : reflect (a = b) (str_eqb a b).
Proof.
  unfold str_eqb. destruct (list_eq_dec N.eq_dec a b); constructor; assumption.
Qed.

Lemma changed_ranges_same (words : list str) :
  changed_ranges_of words words = [].
Proof.
  unfold changed_ranges_of, Difflib.get_opcodes.
  rewrite (get_matching_blocks_self str_eqb str_eqb_spec).
  destruct words as [|w ws]; [reflexivity|].
  cbn [Difflib.opcodes].
  rewrite !Nat.ltb_irrefl. cbn [length Nat.eqb andb app flat_map].
  reflexivity.
Qed.

Lemma highlight_html_diff_same (html : str) :
  highlight_html_diff html html = html.
Proof.
  unfold highlight_html_diff.
  destruct (negb (nonempty (extract_text_from_element (div html)))
            || negb (nonempty (extract_text_from_element (div html))));
    [reflexivity|].
  rewrite changed_ranges_same. reflexivity.
Qed.

(** ** The whole-document similarity *)

(** C9 as stated fails: the ratio of [difflib] is not symmetric (its
    documentation gives this very pair), and an empty old document counts as
    absent, with similarity 0. *)
Lemma similarity_not_symmetric :
  ~ (find_changed_sections_similarity (Some (L "tide")) (L "diet")
     == find_changed_sections_similarity (Some (L "diet")) (L "tide"))%Q
  /\ ~ (find_changed_sections_similarity (Some []) [] == 1)%Q.
Proof. split; vm_compute; discriminate. Qed.

(** C9, amended: a document that is not empty has similarity 1 with itself;
    nothing is claimed about symmetry. *)
Theorem similarity_with_itself :
  forall doc : str,
    doc <> [] ->
    (find_changed_sections_similarity (Some doc) doc == 1)%Q.
Proof.
  intros doc Hdoc. unfold find_changed_sections_similarity.
  destruct doc as [|c doc]; [congruence|].
  apply ratio_self. exact N.eqb_spec.
Qed.

Lemma similarity_with_itself_witness :
  L "<p>Hello.</p>" <> []
  /\ (find_changed_sections_similarity (Some (L "<p>Hello.</p>"))
        (L "<p>Hello.</p>") == 1)%Q.
Proof.
  split; [discriminate|].
  apply (similarity_with_itself (L "<p>Hello.</p>")). discriminate.
Defined.

(** ** No old document *)

(** C4 as stated fails on scenario C of the specification: without an old
    document the unit of the new document is not flagged. *)
Lemma absent_old_flags_nothing :
  let new_html := L "<p>Brand new page.</p>" in
  In new_html (findall element_pattern (extract_main_content new_html))
  /\ exists out n,
       highlight_changed_elements None new_html = Returned (out, n)
       /\ flagged_added new_html out = false.
Proof.
  split; [vm_compute; auto|].
  eexists; eexists. split; [reflexivity | vm_compute; reflexivity].
Qed.

(** C4, amended: without an old document ([None], or the empty string) the
    new document is returned as it is, with no change counted, and the
    similarity reported is 0. *)
Theorem absent_old_short_circuits :
  forall new_html : str,
    highlight_changed_elements None new_html = Returned (new_html, 0)
    /\ highlight_changed_elements (Some []) new_html = Returned (new_html, 0)
    /\ (find_changed_sections_similarity None new_html == 0)%Q
    /\ (find_changed_sections_similarity (Some []) new_html == 0)%Q.
Proof. intros new_html. repeat split; reflexivity. Qed.

(** ** Whitespace *)

(** C6 as stated fails: a run of whitespace inside a token with other text
    is wrapped when a range covers it.  The second part shows the word
    aligner producing such a range. *)
Lemma whitespace_span_wrapped :
  strip (L "  ") = []
  /\ apply_highlights_to_text (L "a  b") 0 [(1, 3, Difflib.Replace)]
     = L "a" ++ mark (L "preview-text-changed") (L "  ") ++ L "b"
  /\ highlight_html_diff (L "a b") (L "a  b")
     = L "a" ++ mark (L "preview-text-changed") (L "  ") ++ L "b".
Proof. repeat split; vm_compute; reflexivity. Qed.

(** C6, amended: a text token that consists only of whitespace is returned
    as it is, whatever ranges overlap it. *)
Theorem whitespace_token_never_wrapped :
  forall (text : str) (text_start_pos : nat) (changed_ranges : list range),
    strip text = [] ->
    apply_highlights_to_text text text_start_pos changed_ranges = text.
Proof.
  intros text pos ranges H. unfold apply_highlights_to_text.
  rewrite H. reflexivity.
Qed.

Lemma whitespace_token_never_wrapped_witness :
  strip (L "  ") = []
  /\ apply_highlights_to_text (L "  ") 0 [(0, 2, Difflib.Replace)] = L "  ".
Proof.
  split; [reflexivity|].
  apply (whitespace_token_never_wrapped (L "  ") 0 [(0, 2, Difflib.Replace)]).
  reflexivity.
Defined.

(** ** Where the script departs from the specification *)

(** C1: the word aligner measures the range of "world" as [6, 11) in the
    text projection, which has lost the leading space; the annotator counts
    the raw token and wraps " worl".  With a character reference the raw
    token is longer than its projection, and the mark meant for "left"
    lands on "eam ". *)
Theorem annotator_offsets_diverge :
  (let new_text := extract_text_from_element (div (L " Hello world")) in
   let old_text := extract_text_from_element (div (L " Hello there")) in
   changed_ranges_of (findall word_pattern old_text)
                     (findall word_pattern new_text)
   = [(6, 11, Difflib.Replace)]
   /\ slice 6 11 new_text = L "world"
   /\ highlight_html_diff (L " Hello there") (L " Hello world")
      = L " Hello" ++ mark (L "preview-text-changed") (L " worl") ++ L "d")
  /\ (let new_text := extract_text_from_element (div (L "R&amp;D team left")) in
      let old_text := extract_text_from_element (div (L "R&amp;D team met")) in
      changed_ranges_of (findall word_pattern old_text)
                        (findall word_pattern new_text)
      = [(9, 13, Difflib.Replace)]
      /\ slice 9 13 new_text = L "left"
      /\ highlight_html_diff (L "R&amp;D team met") (L "R&amp;D team left")
         = L "R&amp;D t" ++ mark (L "preview-text-changed") (L "eam ")
                         ++ L "left").
Proof. repeat split; vm_compute; reflexivity. Qed.

(** C2: a best ratio of exactly 0.5 passes neither test: the element is not
    paired (so not modified) and not added. *)
Theorem ratio_half_takes_no_branch :
  (text_ratio (L "ab") (L "ac") == 1 # 2)%Q
  /\ log (fst (match_and_splice (L "<p>ab</p>") (L "<p>ac</p>")))
     = [(0, Unhighlighted)]
  /\ highlight_changed_elements (Some (L "<p>ab</p>")) (L "<p>ac</p>")
     = Returned (L "<p>ac</p>", 0).
Proof. repeat split; vm_compute; reflexivity. Qed.

(** C3: the replacement handed to [re.sub] is read as a template, so the
    backslash and the [t] of the new document come out as a tab character;
    and a [<] that opens no tag is in no token of the annotator and is
    lost.  Removing the marks does not give the new document back. *)
Theorem stripped_output_differs :
  (exists out,
     highlight_changed_elements (Some (L "<p>x</p>")) (L "<p>angle \theta</p>")
     = Returned (out, 1)
     /\ strip_marks out = L "<p>angle " ++ [9%N] ++ L "heta</p>"
     /\ strip_marks out <> L "<p>angle \theta</p>")
  /\ (exists out,
        highlight_changed_elements (Some (L "<p>old words here a < b</p>"))
                                   (L "<p>new words here a < b</p>")
        = Returned (out, 1)
        /\ strip_marks out = L "<p>new words here a  b</p>").
Proof.
  split; eexists; (split; [vm_compute; reflexivity|]).
  - split; vm_compute; [reflexivity | discriminate].
  - vm_compute. reflexivity.
Qed.

(** C5: a backslash followed by a letter that is no escape of a template,
    or by a digit (a reference to a group the pattern does not have), makes
    [re.sub] raise; nothing catches the exception. *)
Theorem bad_escape_raises :
  highlight_changed_elements (Some (L "<p>x</p>")) (L "<p>\sigma</p>")
  = Raised (L "re.error: bad escape")
  /\ highlight_changed_elements (Some (L "<p>x</p>")) (L "<p>D:\1st</p>")
     = Raised (L "re.error: invalid group reference").
Proof. split; vm_compute; reflexivity. Qed.

(** C7: the marker class is put after the closing quote of the class
    attribute, not inside its value; and a link whose class attribute is the
    last one is not matched at all. *)
Theorem toc_class_outside_attribute :
  highlight_toc_entries (Lq "<a href='ch1.html' class='nav-link' id='x'>One</a>")
                        [L "ch1.html"]
  = Lq "<a href='ch1.html' class='nav-link' preview-toc-changed id='x'>One</a>"
  /\ highlight_toc_entries (Lq "<a href='ch1.html' class='nav-link'>One</a>")
                           [L "ch1.html"]
     = Lq "<a href='ch1.html' class='nav-link'>One</a>".
Proof. split; vm_compute; reflexivity. Qed.

(** ** The rounds of [get_matching_blocks]

    A match lies inside the window it was searched in, so the two windows
    put on the queue are smaller by at least one element of [a], and
    [2 * len(a) + 1] rounds empty the queue: more rounds change nothing. *)

Section Rounds.
Context {A : Type}.
Variable eqb : A -> A -> bool.
Variables a b : list A.
Variables alo blo bhi : nat.

Import Difflib.

Lemma row_fits (i : nat) (M : dict) (js : list nat) :
  alo <= i ->
  dict_fits alo blo bhi i M ->
  forall newM best,
    dict_fits alo blo bhi (S i) newM ->
    best_fits alo blo bhi (S i) best ->
    dict_fits alo blo bhi (S i) (fst (row js i blo bhi M newM best))
    /\ best_fits alo blo bhi (S i) (snd (row js i blo bhi M newM best)).
Proof.
  intros Hi HM. induction js as [|j js IH]; intros newM best HnewM Hbest;
    [simpl; auto|].
  simpl. destruct (Nat.ltb_spec j blo); [apply IH; assumption|].
  destruct (Nat.leb_spec bhi j); [simpl; auto|].
  destruct best as [[bi bj] bs].
  set (k := match j with O => 0 | S j' => dict_get M j' 0 end + 1).
  assert (Hk : k <= S i - alo /\ k + blo <= S j).
  { unfold k. destruct j as [|j']; [lia|].
    destruct (HM j') as (H1 & H2).
    destruct (Nat.eq_dec (dict_get M j' 0) 0) as [E|E]; [rewrite E; lia|].
    destruct H2; lia. }
  clearbody k. apply IH.
  - intros j0. unfold dict_set. cbn [dict_get].
    destruct (Nat.eqb_spec j j0) as [<-|Hne]; [lia | apply HnewM].
  - destruct (Nat.ltb_spec bs k); [|exact Hbest].
    simpl. lia.
Qed.

Lemma best_fits_mono (i i' : nat) (best : block) :
  i <= i' -> best_fits alo blo bhi i best -> best_fits alo blo bhi i' best.
Proof. destruct best as [[bi bj] bs]. simpl. lia. Qed.

Lemma rows_fits :
  forall m i M best,
    alo <= i ->
    dict_fits alo blo bhi i M ->
    best_fits alo blo bhi i best ->
    best_fits alo blo bhi (i + m) (rows eqb a b (seq i m) blo bhi M best).
Proof.
  induction m as [|m IH]; intros i M best Hi HM Hbest; simpl.
  - rewrite Nat.add_0_r. exact Hbest.
  - destruct (nth_error a i) as [x|];
      [|apply best_fits_mono with i; [lia | exact Hbest]].
    destruct (row_fits i M (b2j eqb b x) Hi HM [] best) as (HM' & Hbest').
    + intros j. simpl. lia.
    + apply best_fits_mono with i; [lia | exact Hbest].
    + destruct (row (b2j eqb b x) i blo bhi M [] best) as [newM best'].
      replace (i + S m) with (S i + m) by lia.
      apply IH; [lia | exact HM' | exact Hbest'].
Qed.

Lemma extend_left_fits :
  forall bi bj bs i,
    best_fits alo blo bhi i (bi, bj, bs) ->
    best_fits alo blo bhi i (extend_left eqb a b alo blo bi bj bs).
Proof.
  induction bi as [|bi IH]; intros bj bs i H; simpl; [exact H|].
  destruct (Nat.ltb_spec alo (S bi)); simpl; [|exact H].
  destruct (Nat.ltb_spec blo bj); simpl; [|exact H].
  destruct (same_at eqb a b bi (bj - 1)); [|exact H].
  apply IH. simpl in *. lia.
Qed.

Lemma extend_right_fits :
  forall gap bi bj bs i,
    best_fits alo blo bhi i (bi, bj, bs) ->
    best_fits alo blo bhi (i + gap) (extend_right eqb a b gap bhi bi bj bs).
Proof.
  induction gap as [|gap IH]; intros bi bj bs i H; cbn [extend_right].
  - rewrite Nat.add_0_r. exact H.
  - destruct (Nat.ltb_spec (bj + bs) bhi); cbn [andb];
      [|apply (best_fits_mono i); [lia | exact H]].
    destruct (same_at eqb a b (bi + bs) (bj + bs));
      [|apply (best_fits_mono i); [lia | exact H]].
    replace (i + S gap) with (S i + gap) by lia.
    apply IH. simpl in *. lia.
Qed.

End Rounds.

Section Fuel.
Context {A : Type}.
Variable eqb : A -> A -> bool.
Variables a b : list A.

Import Difflib.

(** The match found in a window lies in the window. *)
Lemma find_longest_match_fits (alo ahi blo bhi : nat) :
  alo <= ahi -> blo <= bhi ->
  let '(i, j, k) := find_longest_match eqb a b alo ahi blo bhi in
  alo <= i /\ blo <= j /\ i + k <= ahi /\ j + k <= bhi.
Proof.
  intros Ha Hb. unfold find_longest_match.
  pose proof (rows_fits eqb a b alo blo bhi (ahi - alo) alo [] (alo, blo, 0))
    as Hrows.
  destruct (rows eqb a b (seq alo (ahi - alo)) blo bhi [] (alo, blo, 0))
    as [[bi bj] bs].
  assert (H1 : best_fits alo blo bhi ahi (bi, bj, bs)).
  { replace ahi with (alo + (ahi - alo)) at 1 by lia. apply Hrows.
    - lia.
    - intros j. simpl. lia.
    - simpl. lia. }
  pose proof (extend_left_fits eqb a b alo blo bhi bi bj bs ahi H1) as H2.
  destruct (extend_left eqb a b alo blo bi bj bs) as [[bi' bj'] bs'].
  assert (H3 : best_fits alo blo bhi (bi' + bs') (bi', bj', bs')).
  { simpl in *. lia. }
  pose proof (extend_right_fits eqb a b alo blo bhi (ahi - (bi' + bs'))
                                bi' bj' bs' (bi' + bs') H3) as H4.
  destruct (extend_right eqb a b (ahi - (bi' + bs')) bhi bi' bj' bs')
    as [[i j] k].
  simpl in *. lia.
Qed.

Lemma blocks_loop_fuel :
  forall fuel extra queue acc,
    Forall window_ok queue ->
    cost queue <= fuel ->
    blocks_loop eqb a b (fuel + extra) queue acc
    = blocks_loop eqb a b fuel queue acc.
Proof.
  induction fuel as [|fuel IH]; intros extra queue acc Hok Hcost.
  - destruct queue as [|[[[alo ahi] blo] bhi] queue];
      [destruct extra; reflexivity | simpl in Hcost; lia].
  - destruct queue as [|[[[alo ahi] blo] bhi] queue]; [reflexivity|].
    inversion Hok as [|? ? Hw Hok']; subst.
    simpl in Hw. destruct Hw as [Ha Hb].
    cbn [cost fold_right] in Hcost. fold (cost queue) in Hcost.
    cbn [Nat.add blocks_loop].
    pose proof (find_longest_match_fits alo ahi blo bhi Ha Hb) as Hfit.
    destruct (find_longest_match eqb a b alo ahi blo bhi) as [[i j] k].
    destruct Hfit as (Hi & Hj & Hik & Hjk).
    destruct (Nat.eqb_spec k 0) as [Hk|Hk]; [apply IH; [exact Hok' | lia]|].
    apply IH.
    + destruct ((alo <? i) && (blo <? j)), ((i + k <? ahi) && (j + k <? bhi));
        repeat (constructor; [simpl; lia|]); exact Hok'.
    + destruct ((alo <? i) && (blo <? j)), ((i + k <? ahi) && (j + k <? bhi));
        cbn [cost fold_right]; fold (cost queue); lia.
Qed.

(** The rounds granted in [get_matching_blocks] are enough. *)
Corollary get_matching_blocks_rounds (extra : nat) :
  blocks_loop eqb a b (2 * length a + 1 + extra) [(0, length a, 0, length b)] []
  = blocks_loop eqb a b (2 * length a + 1) [(0, length a, 0, length b)] [].
Proof.
  apply blocks_loop_fuel.
  - repeat constructor; simpl; lia.
  - simpl. lia.
Qed.

End Fuel.

(** * Further properties of the code *)

(** ** A ratio lies between 0 and 1

    The blocks found in a window use disjoint parts of it, so the matched
    elements are at most the elements of the shorter sequence. *)

Section RatioBounds.
Context {A : Type}.
Variable eqb : A -> A -> bool.
Variables a b : list A.

Import Difflib.

Lemma total_size_app (l1 l2 : list block) :
  total_size (l1 ++ l2) = total_size l1 + total_size l2.
Proof.
  induction l1 as [|[[i j] k] l1 IH]; simpl; [reflexivity|].
  rewrite IH. lia.
Qed.

Lemma blocks_loop_size (Na Nb : nat) :
  forall fuel queue acc,
    Forall window_ok queue ->
    total_size acc + width_a queue <= Na ->
    total_size acc + width_b queue <= Nb ->
    total_size (blocks_loop eqb a b fuel queue acc) <= Na
    /\ total_size (blocks_loop eqb a b fuel queue acc) <= Nb.
Proof.
  induction fuel as [|fuel IH]; intros queue acc Hok Ha Hb.
  - simpl. lia.
  - destruct queue as [|[[[alo ahi] blo] bhi] queue]; [simpl; lia|].
    inversion Hok as [|? ? Hw Hok']; subst.
    simpl in Hw. destruct Hw as [Hwa Hwb].
    cbn [width_a width_b fold_right] in Ha, Hb.
    fold (width_a queue) in Ha. fold (width_b queue) in Hb.
    cbn [blocks_loop].
    pose proof (find_longest_match_fits eqb a b alo ahi blo bhi Hwa Hwb) as Hfit.
    destruct (find_longest_match eqb a b alo ahi blo bhi) as [[i j] k].
    destruct Hfit as (Hi & Hj & Hik & Hjk).
    destruct (k =? 0); [apply IH; [exact Hok' | lia | lia]|].
    apply IH.
    + destruct ((alo <? i) && (blo <? j)), ((i + k <? ahi) && (j + k <? bhi));
        repeat (constructor; [simpl; lia|]); exact Hok'.
    + rewrite total_size_app.
      destruct ((alo <? i) && (blo <? j)), ((i + k <? ahi) && (j + k <? bhi));
        cbn [width_a total_size fold_right]; fold (width_a queue); lia.
    + rewrite total_size_app.
      destruct ((alo <? i) && (blo <? j)), ((i + k <? ahi) && (j + k <? bhi));
        cbn [width_b total_size fold_right]; fold (width_b queue); lia.
Qed.

Lemma total_size_insert (x : block) (l : list block) :
  total_size (insert_block x l) = total_size (x :: l).
Proof.
  destruct x as [[xi xj] xk].
  induction l as [|[[yi yj] yk] l IH]; [reflexivity|].
  cbn [insert_block]. destruct (block_leb (xi, xj, xk) (yi, yj, yk));
    [reflexivity|].
  unfold total_size in *. cbn [fold_right] in *. rewrite IH. lia.
Qed.

Lemma total_size_sort (l : list block) :
  total_size (sort_blocks l) = total_size l.
Proof.
  induction l as [|[[i j] k] l IH]; [reflexivity|].
  cbn [sort_blocks fold_right]. fold (sort_blocks l).
  rewrite total_size_insert.
  unfold total_size in *. cbn [fold_right]. rewrite IH. reflexivity.
Qed.

Lemma total_size_collapse (l : list block) :
  forall i1 j1 k1, total_size (collapse l i1 j1 k1) = k1 + total_size l.
Proof.
  induction l as [|[[i2 j2] k2] l IH]; intros i1 j1 k1; cbn [collapse].
  - destruct (Nat.eqb_spec k1 0); simpl; lia.
  - destruct ((i1 + k1 =? i2) && (j1 + k1 =? j2)).
    + rewrite IH. simpl. lia.
    + rewrite total_size_app, IH.
      destruct (Nat.eqb_spec k1 0); simpl; lia.
Qed.

(** The matched elements are at most the elements of either sequence. *)
Lemma matching_blocks_size :
  total_size (get_matching_blocks eqb a b) <= length a
  /\ total_size (get_matching_blocks eqb a b) <= length b.
Proof.
  unfold get_matching_blocks.
  rewrite total_size_app, total_size_collapse, total_size_sort.
  destruct (blocks_loop_size (length a) (length b) (2 * length a + 1)
              [(0, length a, 0, length b)] []) as (Ha & Hb).
  - repeat constructor; simpl; lia.
  - simpl. lia.
  - simpl. lia.
  - change (total_size [(length a, length b, 0)]) with 0. lia.
Qed.

Lemma ratio_bounds : (0 <= ratio eqb a b)%Q /\ (ratio eqb a b <= 1)%Q.
Proof.
  unfold ratio. fold (total_size (get_matching_blocks eqb a b)).
  destruct matching_blocks_size as (Ha & Hb).
  set (m := total_size (get_matching_blocks eqb a b)) in *.
  unfold calculate_ratio.
  destruct (length a + length b) as [|n] eqn:E.
  - split; [discriminate | apply Qle_refl].
  - split; unfold Qle; cbn [Qnum Qden].
    + rewrite Z.mul_1_r. lia.
    + rewrite Z.mul_1_r, Z.mul_1_l.
      rewrite <- positive_nat_Z, Nat2Pos.id by lia. lia.
Qed.

End RatioBounds.

(** X1: the similarity that [find_changed_sections] reports is a ratio
    between 0 and 1, whatever the two documents. *)
Theorem similarity_in_unit_interval :
  forall (old_html : option str) (new_html : str),
    (0 <= find_changed_sections_similarity old_html new_html)%Q
    /\ (find_changed_sections_similarity old_html new_html <= 1)%Q.
Proof.
  intros old_html new_html. unfold find_changed_sections_similarity.
  destruct old_html as [[|c old_html]|];
    try (split; [apply Qle_refl | discriminate]).
  apply ratio_bounds.
Qed.


(** ** A document compared with itself *)







(** ** When a unit is flagged as added *)

(** X3: a new unit with text is flagged as added exactly when no old unit
    that is still unused has a ratio of 0.5 or more with it (in particular
    when none is left). *)
Theorem added_iff_no_old_unit_reaches_half :
  forall (old_elem_list : list (str * str)) (used : list nat) (new_text : str),
    let '(best_match_idx, best_ratio) :=
      best_match old_elem_list 0 used new_text None 0 in
    classify best_match_idx best_ratio = Added
    <-> forall p r, candidate used new_text old_elem_list 0 p r ->
                    (r < SIMILARITY_THRESHOLD_MIN)%Q.
Proof.
  intros olds used new_text.
  destruct (best_match olds 0 used new_text None 0) as [bi br] eqn:Eb.
  destruct (best_match_spec used new_text olds _ _ _ _ _ Eb)
    as (_ & Hmax & Hsel).
  destruct Hsel as [[-> ->] | (q & -> & Hc & _)].
  - split; [|reflexivity].
    intros _ p r Hp. apply Qle_lt_trans with 0%Q; [|reflexivity].
    apply Hmax with p. exact Hp.
  - pose proof (classify_bands (Some (0 + q)) br) as Hbands.
    split.
    + intros Hadd p r Hp. rewrite Hadd in Hbands.
      destruct Hbands as [Hnone | Hlt]; [discriminate|].
      apply Qle_lt_trans with br; [apply Hmax with p; exact Hp | exact Hlt].
    + intros Hall. specialize (Hall q br Hc).
      destruct (classify (Some (0 + q)) br) as [idx| |]; [| reflexivity |].
      * destruct Hbands as (_ & Hmin & _).
        exfalso. exact (Qlt_irrefl _ (Qlt_trans _ _ _ Hall Hmin)).
      * destruct Hbands as (_ & [Heq | Hge]).
        -- exfalso. rewrite Heq in Hall. exact (Qlt_irrefl _ Hall).
        -- exfalso. apply (Qlt_not_le _ _ Hall).
           apply Qle_trans with SIMILARITY_THRESHOLD_MAX; [discriminate | exact Hge].
Qed.


(** ** The annotator keeps the text *)

Lemma ordered_ranges_weaken (l : list range) (lo lo' : nat) :
  lo' <= lo -> ordered_ranges lo l -> ordered_ranges lo' l.
Proof.
  destruct l as [|[[s e] t] l]; simpl; [auto|].
  intros Hle (H1 & H2 & H3 & H4). repeat split; auto. lia.
Qed.

Lemma sort_ranges_ordered (l : list range) :
  forall lo, ordered_ranges lo l -> sort_ranges l = l.
Proof.
  induction l as [|[[s e] t] l IH]; intros lo H; [reflexivity|].
  destruct H as (_ & Hse & _ & Hrest).
  cbn [sort_ranges fold_right]. fold (sort_ranges l).
  rewrite (IH e Hrest).
  destruct l as [|[[s2 e2] t2] l]; [reflexivity|].
  destruct Hrest as (Hes & _).
  cbn [insert_range range_leb].
  destruct (Nat.ltb_spec s s2); [reflexivity | lia].
Qed.

Lemma slice_skipn (a b : nat) (t : str) :
  a <= b -> slice a b t ++ skipn b t = skipn a t.
Proof.
  intros Hab. unfold slice.
  replace b with ((b - a) + a) at 2 by lia.
  rewrite <- skipn_skipn. apply firstn_skipn.
Qed.

Lemma build_highlights_segs (text : str) (overlapping : list range) :
  forall last_end,
    ordered_ranges last_end overlapping ->
    exists segs : list seg,
      build_highlights text overlapping last_end
      = concat (map render_seg segs)
      /\ concat (map snd segs) = skipn last_end text
      /\ Forall (fun sg => In (fst sg) [None; Some (L "preview-text-changed");
                                        Some (L "preview-text-added")]) segs.
Proof.
  induction overlapping as [|[[s e] t] rest IH]; intros last_end H.
  - exists [(None, skipn last_end text)]. cbn [build_highlights].
    split; [|split].
    + destruct (Nat.ltb_spec last_end (length text)); simpl.
      * rewrite app_nil_r. reflexivity.
      * rewrite skipn_all2 by lia. reflexivity.
    + simpl. apply app_nil_r.
    + repeat constructor.
  - destruct H as (Hlo & Hse & Ht & Hrest).
    destruct (IH e Hrest) as (segs & Hb & Hs & Hc).
    exists ((None, slice last_end s text)
              :: (Some (match t with
                        | Difflib.Insert => L "preview-text-added"
                        | _ => L "preview-text-changed"
                        end), slice s e text) :: segs).
    cbn [build_highlights]. split; [|split].
    + rewrite Hb. cbn [map concat render_seg fst snd].
      f_equal.
      * destruct (Nat.ltb_spec last_end s); [reflexivity|].
        unfold slice. replace (s - last_end) with 0 by lia. reflexivity.
      * f_equal. destruct Ht as [-> | ->]; reflexivity.
    + cbn [map concat snd]. rewrite Hs.
      rewrite slice_skipn by lia. apply slice_skipn. exact Hlo.
    + constructor; [simpl; auto|]. constructor; [|exact Hc].
      destruct Ht as [-> | ->]; simpl; auto.
Qed.

Lemma strip_nonempty (t : str) : nonempty (strip t) = true -> t <> [].
Proof. intros H ->. discriminate. Qed.

Lemma clip_ordered (pos len : nat) (ranges : list range) :
  0 < len ->
  forall lo,
    ordered_ranges lo ranges ->
    ordered_ranges (lo - pos)
      (flat_map
         (fun r : range => let '(start, end_, change_type) := r in
            if (start <? pos + len) && (pos <? end_)
            then [(start - pos, Nat.min len (end_ - pos), change_type)]
            else [])
         ranges).
Proof.
  intros Hlen. induction ranges as [|[[s e] t] rest IH]; intros lo H;
    [exact I|].
  destruct H as (Hlo & Hse & Ht & Hrest).
  specialize (IH e Hrest). cbn [flat_map].
  destruct (Nat.ltb_spec s (pos + len)); destruct (Nat.ltb_spec pos e);
    cbn [andb app];
    try (apply ordered_ranges_weaken with (e - pos); [lia | exact IH]).
  cbn [ordered_ranges]. repeat split; try lia; [exact Ht|].
  apply ordered_ranges_weaken with (e - pos); [lia | exact IH].
Qed.

(** The annotated token, piece by piece. *)
Lemma apply_highlights_segs :
  forall (text : str) (text_start_pos : nat) (changed_ranges : list range),
    ordered_ranges 0 changed_ranges ->
    exists segs : list seg,
      apply_highlights_to_text text text_start_pos changed_ranges
      = concat (map render_seg segs)
      /\ concat (map snd segs) = text
      /\ Forall (fun sg => In (fst sg) [None; Some (L "preview-text-changed");
                                        Some (L "preview-text-added")]) segs.
Proof.
  intros text pos ranges Hord. unfold apply_highlights_to_text.
  assert (Hplain : exists segs : list seg,
             text = concat (map render_seg segs)
             /\ concat (map snd segs) = text
             /\ Forall (fun sg => In (fst sg)
                          [None; Some (L "preview-text-changed");
                           Some (L "preview-text-added")]) segs).
  { exists [(None, text)]. cbn [map concat render_seg fst snd].
    rewrite app_nil_r. split; [reflexivity|]. split; [reflexivity|].
    constructor; [left; reflexivity | constructor]. }
  destruct (nonempty (strip text)) eqn:Estrip; cbn [negb]; [|exact Hplain].
  assert (Hlen : 0 < length text).
  { pose proof (strip_nonempty text Estrip). destruct text; simpl; [congruence | lia]. }
  pose proof (clip_ordered pos (length text) ranges Hlen 0 Hord) as Hclip.
  change (0 - pos) with 0 in Hclip.
  match goal with
  | |- context [match ?ov with [] => text | _ :: _ => _ end] =>
      destruct ov as [|r ov'] eqn:Eov; [exact Hplain|]
  end.
  assert (Hov : ordered_ranges 0 (r :: ov')).
  { rewrite <- Eov. exact Hclip. }
  rewrite (sort_ranges_ordered _ 0 Hov).
  destruct (build_highlights_segs text (r :: ov') 0 Hov) as (segs & H1 & H2 & H3).
  exists segs. auto.
Qed.

(** X4: for ranges as the word aligner gives them (ascending, apart, not
    empty, [replace] or [insert]), the annotated token is the token cut into
    pieces in order, some of them wrapped in a mark of class
    [preview-text-changed] or [preview-text-added]: no character of the
    token is lost, repeated or moved. *)
Theorem highlights_keep_the_text :
  forall (text : str) (text_start_pos : nat) (changed_ranges : list range),
    ordered_ranges 0 changed_ranges ->
    exists segs : list seg,
      apply_highlights_to_text text text_start_pos changed_ranges
      = concat (map render_seg segs)
      /\ concat (map snd segs) = text
      /\ Forall (fun sg => In (fst sg) [None; Some (L "preview-text-changed");
                                        Some (L "preview-text-added")]) segs.
Proof. exact apply_highlights_segs. Qed.

Lemma highlights_keep_the_text_witness :
  ordered_ranges 0 [(8, 14, Difflib.Replace)]
  /\ exists segs : list seg,
       apply_highlights_to_text (L "The cat slept.") 0 [(8, 14, Difflib.Replace)]
       = concat (map render_seg segs)
       /\ concat (map snd segs) = L "The cat slept."
       /\ Forall (fun sg => In (fst sg) [None; Some (L "preview-text-changed");
                                         Some (L "preview-text-added")]) segs.
Proof.
  assert (H : ordered_ranges 0 [(8, 14, Difflib.Replace)]).
  { simpl. repeat split; auto; lia. }
  split; [exact H|].
  apply (highlights_keep_the_text (L "The cat slept.") 0
           [(8, 14, Difflib.Replace)] H).
Defined.

(** X5: whatever the ranges, the annotator emits one piece per token, and a
    tag token is emitted as it is, at its place. *)
Theorem tags_pass_through :
  forall (html_tokens : list str) (text_pos : nat) (changed_ranges : list range),
    length (annotate_tokens html_tokens text_pos changed_ranges)
    = length html_tokens
    /\ forall i token,
         nth_error html_tokens i = Some token ->
         is_tag token = true ->
         nth_error (annotate_tokens html_tokens text_pos changed_ranges) i
         = Some token.
Proof.
  intros tokens. induction tokens as [|tok rest IH]; intros pos ranges.
  - split; [reflexivity|]. intros i token H. destruct i; discriminate.
  - cbn [annotate_tokens].
    destruct (is_tag tok) eqn:Etag.
    + destruct (IH pos ranges) as (Hlen & Hnth). split; [simpl; lia|].
      intros [|i] token H Ht; simpl in *; [exact H | auto].
    + destruct (IH (pos + length tok) ranges) as (Hlen & Hnth).
      split; [simpl; lia|].
      intros [|i] token H Ht; simpl in *; [|auto].
      inversion H; subst. congruence.
Qed.


(** ** The matcher finds matches of the pattern

    Whatever [run] hands to its continuation is the rest of the string
    after a text the pattern can match, with the groups that match sets. *)

Lemma rep_sound {A : Type} (p : char -> bool) (greedy : bool) (s : str) :
  forall lo hi (k : str -> option A) a,
    rep p greedy lo hi s k = Some a ->
    exists pre s',
      s = pre ++ s'
      /\ Forall (fun x => p x = true) pre
      /\ lo <= length pre
      /\ match hi with Some h => length pre <= h | None => True end
      /\ k s' = Some a.
Proof.
  induction s as [|x s IH]; intros lo hi k a H.
  - simpl in H. destruct lo; [|discriminate].
    exists [], []. repeat split; auto. destruct hi; [simpl; lia | exact I].
  - assert (Hstop : match lo with O => k (x :: s) | S _ => None end = Some a ->
                    exists pre s',
                      x :: s = pre ++ s'
                      /\ Forall (fun x => p x = true) pre
                      /\ lo <= length pre
                      /\ match hi with Some h => length pre <= h | None => True end
                      /\ k s' = Some a).
    { intros Hk. destruct lo; [|discriminate].
      exists [], (x :: s). repeat split; auto.
      destruct hi; [simpl; lia | exact I]. }
    assert (Hmore : match hi with
                    | Some O => None
                    | _ => if p x
                           then rep p greedy (pred lo) (option_map pred hi) s k
                           else None
                    end = Some a ->
                    exists pre s',
                      x :: s = pre ++ s'
                      /\ Forall (fun x => p x = true) pre
                      /\ lo <= length pre
                      /\ match hi with Some h => length pre <= h | None => True end
                      /\ k s' = Some a).
    { intros Hk.
      assert (Hrec : p x = true
                     /\ rep p greedy (pred lo) (option_map pred hi) s k = Some a
                     /\ hi <> Some 0).
      { destruct hi as [[|h]|]; [discriminate | |];
          destruct (p x); try discriminate; repeat split; auto; discriminate. }
      destruct Hrec as (Hpx & Hrep & Hhi).
      destruct (IH _ _ _ _ Hrep) as (pre & s' & Hs & Hall & Hlo & Hh & Hks).
      exists (x :: pre), s'. subst s. repeat split; auto.
      - simpl. lia.
      - destruct hi as [[|h]|]; simpl in *; [congruence | lia | exact I]. }
    cbn [rep] in H. destruct greedy.
    + destruct (match hi with
                | Some O => None
                | _ => if p x
                       then rep p true (pred lo) (option_map pred hi) s k
                       else None
                end) as [a'|] eqn:E.
      * inversion H; subst a'. apply Hmore. reflexivity.
      * apply Hstop. exact H.
    + destruct (match lo with O => k (x :: s) | S _ => None end) as [a'|] eqn:E.
      * inversion H; subst a'. apply Hstop. reflexivity.
      * apply Hmore. exact H.
Qed.

Lemma strip_prefix_sound (l s s' : str) :
  strip_prefix l s = Some s' -> s = l ++ s'.
Proof.
  revert s. induction l as [|x l IH]; intros s H; simpl in H.
  - inversion H. reflexivity.
  - destruct s as [|y s]; [discriminate|].
    destruct (N.eqb_spec x y); [|discriminate].
    subst y. rewrite (IH s H). reflexivity.
Qed.

Lemma run_sound {A : Type} (r : regex) :
  forall s c (k : str -> caps -> option A) a,
    run r s c k = Some a ->
    exists pre s' c',
      s = pre ++ s' /\ sem r pre c c' /\ k s' c' = Some a.
Proof.
  induction r as [l | p | p lo hi g | r1 IH1 r2 IH2 | r1 IH1 r2 IH2 | n r1 IH1];
    intros s c k a H; cbn [run] in H.
  - destruct (strip_prefix l s) as [s'|] eqn:E; [|discriminate].
    exists l, s', c. split; [apply strip_prefix_sound; exact E|].
    simpl. auto.
  - destruct s as [|x s]; [discriminate|].
    destruct (p x) eqn:E; [|discriminate].
    exists [x], s, c. simpl. repeat split; auto. exists x. auto.
  - destruct (rep_sound _ _ _ _ _ _ _ H) as (pre & s' & Hs & Hall & Hlo & Hh & Hk).
    exists pre, s', c. simpl. auto 10.
  - destruct (IH1 _ _ _ _ H) as (p1 & s1 & c1 & Hs1 & Hsem1 & Hk1).
    destruct (IH2 _ _ _ _ Hk1) as (p2 & s2 & c2 & Hs2 & Hsem2 & Hk2).
    exists (p1 ++ p2), s2, c2. subst. rewrite <- app_assoc.
    split; [reflexivity|]. split; [|exact Hk2].
    simpl. exists p1, p2, c1. auto.
  - destruct (run r1 s c k) as [a'|] eqn:E.
    + inversion H; subst a'.
      destruct (IH1 _ _ _ _ E) as (pre & s' & c' & Hs & Hsem & Hk).
      exists pre, s', c'. simpl. auto.
    + destruct (IH2 _ _ _ _ H) as (pre & s' & c' & Hs & Hsem & Hk).
      exists pre, s', c'. simpl. auto.
  - destruct (IH1 _ _ _ _ H) as (pre & s' & c1 & Hs & Hsem & Hk).
    exists pre, s', ((n, pre) :: c1). split; [exact Hs|]. split.
    + simpl. exists c1. auto.
    + rewrite <- Hk. subst s. rewrite length_app.
      replace (length pre + length s' - length s') with (length pre) by lia.
      rewrite firstn_app, Nat.sub_diag, firstn_all. simpl.
      rewrite app_nil_r. reflexivity.
Qed.

(** A match at the start of [s]: its text opens [s] and is a match of the
    pattern. *)
Lemma match_sound (r : regex) (s : str) (m : mtch) :
  match_ r s = Some m ->
  (exists s', s = text m ++ s') /\ sem r (text m) [] (groups m).
Proof.
  unfold match_. intros H.
  destruct (run_sound _ _ _ _ _ H) as (pre & s' & c' & Hs & Hsem & Hk).
  inversion Hk; subst m. cbn [text groups]. subst s.
  rewrite length_app.
  replace (length pre + length s' - length s') with (length pre) by lia.
  rewrite firstn_app, Nat.sub_diag, firstn_all. simpl. rewrite app_nil_r.
  split; [exists s'; reflexivity | exact Hsem].
Qed.

(** The pieces of a scan make up the string: nothing is skipped. *)
Lemma pieces_text (r : regex) (s : str) :
  forall skip, flat_map piece_text (pieces r skip s) = skipn skip s.
Proof.
  induction s as [|x s IH]; intros skip.
  - destruct skip as [|n]; [|reflexivity].
    cbn [pieces]. destruct (match_ r []) as [m|] eqn:E; [|reflexivity].
    destruct (match_sound _ _ _ E) as ([s' Hs] & _).
    symmetry in Hs. apply app_eq_nil in Hs. destruct Hs as [Ht _].
    simpl. rewrite Ht. reflexivity.
  - destruct skip as [|n]; [|cbn [pieces skipn]; apply IH].
    cbn [pieces]. destruct (match_ r (x :: s)) as [m|] eqn:E.
    + destruct (match_sound _ _ _ E) as ([s' Hs] & _).
      cbn [flat_map piece_text].
      destruct (text m) as [|y t] eqn:Et.
      * cbn [flat_map piece_text app]. rewrite IH. reflexivity.
      * rewrite IH. simpl in Hs. inversion Hs; subst.
        simpl. rewrite skipn_app, skipn_all, Nat.sub_diag. reflexivity.
    + cbn [flat_map piece_text app]. rewrite IH. reflexivity.
Qed.

(** Every match of a scan is a match of the pattern on a part of the
    string. *)
Lemma pieces_matches (r : regex) (s : str) :
  forall skip m,
    In (Match m) (pieces r skip s) ->
    part (text m) s /\ sem r (text m) [] (groups m).
Proof.
  assert (Hcons : forall x t s', part t s' -> part t (x :: s')).
  { intros x t s' (pre & post & ->). exists (x :: pre), post. reflexivity. }
  induction s as [|x s IH]; intros skip m H.
  - destruct skip as [|n]; [|contradiction].
    cbn [pieces] in H. destruct (match_ r []) as [m'|] eqn:E; [|contradiction].
    destruct H as [H | []]. inversion H; subst m'.
    destruct (match_sound _ _ _ E) as ([s' Hs] & Hsem).
    split; [exists [], s'; exact Hs | exact Hsem].
  - destruct skip as [|n].
    + cbn [pieces] in H. destruct (match_ r (x :: s)) as [m'|] eqn:E.
      * destruct H as [H | H].
        -- inversion H; subst m'.
           destruct (match_sound _ _ _ E) as ([s' Hs] & Hsem).
           split; [exists [], s'; exact Hs | exact Hsem].
        -- destruct (text m') as [|y t].
           ++ destruct H as [H | H]; [discriminate|].
              destruct (IH _ _ H). split; auto.
           ++ destruct (IH _ _ H). split; auto.
      * destruct H as [H | H]; [discriminate|].
        destruct (IH _ _ H). split; auto.
    + cbn [pieces] in H. destruct (IH _ _ H). split; auto.
Qed.

(** A character between the matches is a character of the string. *)
Lemma pieces_plain (r : regex) (s : str) :
  forall skip x, In (Plain x) (pieces r skip s) -> In x s.
Proof.
  induction s as [|x0 s IH]; intros skip x H.
  - destruct skip; cbn [pieces] in H; [|contradiction].
    destruct (match_ r []); [destruct H as [H | []]; discriminate | contradiction].
  - destruct skip as [|n]; cbn [pieces] in H.
    + destruct (match_ r (x0 :: s)) as [m|].
      * destruct H as [H | H]; [discriminate|].
        destruct (text m).
        -- destruct H as [H | H]; [inversion H; left; reflexivity|].
           right. exact (IH _ _ H).
        -- right. exact (IH _ _ H).
      * destruct H as [H | H]; [inversion H; left; reflexivity|].
        right. exact (IH _ _ H).
    + right. exact (IH _ _ H).
Qed.


Lemma matches_in (ps : list piece) (m : mtch) :
  In m (matches ps) <-> In (Match m) ps.
Proof.
  unfold matches. rewrite in_flat_map. split.
  - intros (p & Hp & Hm). destruct p as [x|m']; [contradiction|].
    destruct Hm as [<- | []]. exact Hp.
  - intros H. exists (Match m). split; [exact H | left; reflexivity].
Qed.

Lemma search_sound (r : regex) (s : str) (m : mtch) :
  search r s = Some m ->
  part (text m) s /\ sem r (text m) [] (groups m).
Proof.
  unfold search. intros H.
  apply (pieces_matches r s 0). apply matches_in.
  destruct (matches (pieces r 0 s)) as [|m' l]; [discriminate|].
  inversion H; subst. left. reflexivity.
Qed.

(** ** Words *)

Lemma rep_total {A : Type} (p : char -> bool) (greedy : bool) (s : str) :
  forall hi (k : str -> option A),
    (forall s', k s' <> None) ->
    rep p greedy 0 hi s k <> None.
Proof.
  induction s as [|x s IH]; intros hi k Hk; cbn [rep]; [apply Hk|].
  destruct greedy.
  - destruct (match hi with
              | Some O => None
              | _ => if p x then rep p true (pred 0) (option_map pred hi) s k
                     else None
              end); [discriminate | apply Hk].
  - destruct (k (x :: s)) eqn:E; [discriminate|].
    exfalso. exact (Hk _ E).
Qed.

Lemma word_starts (x : char) (s : str) : match_ word_pattern (x :: s) <> None.
Proof.
  unfold match_, word_pattern. cbn [run plus].
  set (k := fun s' : str => Some {| text := firstn (length (x :: s) - length s') (x :: s);
                                     groups := [] |}).
  assert (Hk : forall s', k s' <> None) by (intros s'; discriminate).
  destruct (isspace x) eqn:Ex.
  - replace (rep (fun c => negb (isspace c)) true 1 None (x :: s) k) with (@None mtch).
    + cbn [rep]. rewrite Ex.
      pose proof (rep_total isspace true s None k Hk) as Hr. cbn [pred option_map].
      destruct (rep isspace true 0 None s k); [discriminate | congruence].
    + cbn [rep]. rewrite Ex. reflexivity.
  - cbn [rep]. rewrite Ex. cbn [negb pred option_map].
    pose proof (rep_total (fun c => negb (isspace c)) true s None k Hk) as Hr.
    destruct (rep (fun c => negb (isspace c)) true 0 None s k);
      [discriminate | congruence].
Qed.

Lemma word_shape (w : str) (c c' : caps) :
  sem word_pattern w c c' ->
  w <> []
  /\ (Forall (fun x => isspace x = false) w \/ Forall (fun x => isspace x = true) w).
Proof.
  unfold word_pattern. cbn [sem plus].
  intros [(Hall & Hlen & _) | (Hall & Hlen & _)].
  - split; [destruct w; simpl in Hlen; [lia | discriminate]|].
    left. eapply Forall_impl; [|exact Hall].
    intros x Hx. apply negb_true_iff. exact Hx.
  - split; [destruct w; simpl in Hlen; [lia | discriminate]|].
    right. exact Hall.
Qed.

Lemma words_all_matches (s : str) :
  forall skip, flat_map piece_text (pieces word_pattern skip s)
               = concat (map text (matches (pieces word_pattern skip s))).
Proof.
  induction s as [|x s IH]; intros skip.
  - destruct skip; reflexivity.
  - destruct skip as [|n]; cbn [pieces]; [|apply IH].
    destruct (match_ word_pattern (x :: s)) as [m|] eqn:E;
      [|exfalso; exact (word_starts x s E)].
    destruct (match_sound _ _ _ E) as (_ & Hsem).
    destruct (word_shape _ _ _ Hsem) as (Hne & _).
    destruct (text m) as [|y t] eqn:Et; [congruence|].
    cbn [flat_map matches piece_text app map concat].
    fold (matches (pieces word_pattern (length t) s)).
    rewrite Et, IH. reflexivity.
Qed.

(** X6: the words and whitespace runs of a text, joined, are the text: the
    split loses nothing, so the length of the first [j] words is a position
    in the text.  Each word is a run, not empty, of characters that are all
    whitespace or all not. *)
Theorem words_rejoin :
  forall text : str,
    join (findall word_pattern text) = text
    /\ Forall (fun w => w <> []
                        /\ (Forall (fun x => isspace x = false) w
                            \/ Forall (fun x => isspace x = true) w))
              (findall word_pattern text).
Proof.
  intros t. unfold join, findall. split.
  - rewrite <- words_all_matches. apply (pieces_text word_pattern t 0).
  - apply Forall_forall. intros w Hw. apply in_map_iff in Hw.
    destruct Hw as (m & <- & Hm). apply matches_in in Hm.
    destruct (pieces_matches _ _ _ _ Hm) as (_ & Hsem).
    exact (word_shape _ _ _ Hsem).
Qed.

(** ** The main content *)

Lemma Forall_except (x : char) (l : str) :
  Forall (fun c => except x c = true) l -> ~ In x l.
Proof.
  intros H Hin. rewrite Forall_forall in H. specialize (H x Hin).
  unfold except in H. rewrite N.eqb_refl in H. discriminate.
Qed.

(** ** The matcher finds a match when there is one *)

Lemma rep_complete {A : Type} (p : char -> bool) (greedy : bool) (pre : str) :
  Forall (fun x => p x = true) pre ->
  forall lo hi rest (k : str -> option A),
    lo <= length pre ->
    match hi with Some h => length pre <= h | None => True end ->
    k rest <> None ->
    rep p greedy lo hi (pre ++ rest) k <> None.
Proof.
  induction 1 as [|x pre Hx Hpre IH]; intros lo hi rest k Hlo Hhi Hk.
  - simpl in Hlo. assert (lo = 0) by lia. subst lo. cbn [app].
    destruct rest as [|y rest]; cbn [rep]; [exact Hk|].
    destruct greedy.
    + destruct (match hi with
                | Some O => None
                | _ => if p y then rep p true (pred 0) (option_map pred hi) rest k
                       else None
                end); [discriminate | exact Hk].
    + destruct (k (y :: rest)); [discriminate | congruence].
  - cbn [app rep]. rewrite Hx. simpl in Hlo, Hhi.
    assert (Hmore : match hi with
                    | Some O => None
                    | _ => rep p greedy (pred lo) (option_map pred hi)
                             (pre ++ rest) k
                    end <> None).
    { destruct hi as [[|h]|].
      - lia.
      - apply IH; [lia | simpl; lia | exact Hk].
      - apply IH; [lia | exact I | exact Hk]. }
    destruct greedy.
    + destruct (match hi with
                | Some O => None
                | _ => rep p true (pred lo) (option_map pred hi) (pre ++ rest) k
                end); [discriminate | congruence].
    + destruct (match lo with O => k (x :: pre ++ rest) | S _ => None end);
        [discriminate | exact Hmore].
Qed.

Lemma strip_prefix_app (l rest : str) : strip_prefix l (l ++ rest) = Some rest.
Proof.
  induction l as [|x l IH]; [reflexivity|].
  cbn [app strip_prefix]. rewrite N.eqb_refl. exact IH.
Qed.

Lemma run_complete {A : Type} (r : regex) :
  forall pre c c', sem r pre c c' ->
  forall rest (k : str -> caps -> option A),
    k rest c' <> None -> run r (pre ++ rest) c k <> None.
Proof.
  induction r as [l | p | p lo hi g | r1 IH1 r2 IH2 | r1 IH1 r2 IH2 | n r1 IH1];
    intros pre c c' Hsem rest k Hk; cbn [run sem] in *.
  - destruct Hsem as (-> & ->). rewrite strip_prefix_app. exact Hk.
  - destruct Hsem as ((x & -> & Hx) & ->). cbn [app]. rewrite Hx. exact Hk.
  - destruct Hsem as (Hall & Hlo & Hhi & ->).
    apply rep_complete; assumption.
  - destruct Hsem as (p1 & p2 & c1 & -> & H1 & H2).
    rewrite <- app_assoc. apply (IH1 _ _ _ H1).
    apply (IH2 _ _ _ H2). exact Hk.
  - destruct (run r1 (pre ++ rest) c k) eqn:E; [discriminate|].
    destruct Hsem as [H1 | H2].
    + exfalso. exact (IH1 _ _ _ H1 _ _ Hk E).
    + exact (IH2 _ _ _ H2 _ _ Hk).
  - destruct Hsem as (c1 & H1 & ->).
    apply (IH1 _ _ _ H1).
    rewrite length_app.
    replace (length pre + length rest - length rest) with (length pre) by lia.
    rewrite firstn_app, Nat.sub_diag, firstn_all. cbn [firstn].
    rewrite app_nil_r. exact Hk.
Qed.

Lemma match_complete (r : regex) (pre rest : str) (c' : caps) :
  sem r pre [] c' -> match_ r (pre ++ rest) <> None.
Proof.
  intros H. unfold match_. apply (run_complete r _ _ _ H). discriminate.
Qed.

(** [re.search] finds a match in a text that holds one. *)
Lemma search_complete (r : regex) (m : str) (c' : caps) :
  sem r m [] c' ->
  forall p q, search r (p ++ m ++ q) <> None.
Proof.
  intros H p q. unfold search.
  induction p as [|x p IH].
  - cbn [app]. pose proof (match_complete r m q c' H) as Hm.
    destruct (m ++ q) as [|y s]; cbn [pieces];
      destruct (match_ r _); try congruence; discriminate.
  - cbn [app pieces].
    destruct (match_ r (x :: p ++ m ++ q)); [discriminate|].
    exact IH.
Qed.

Lemma except_Forall (x : char) (l : str) :
  ~ In x l -> Forall (fun c => except x c = true) l.
Proof.
  intros H. apply Forall_forall. intros c Hc. unfold except.
  destruct (N.eqb_spec c x) as [->|]; [contradiction | reflexivity].
Qed.

Lemma Forall_any (l : str) : Forall (fun c => any c = true) l.
Proof. apply Forall_forall. reflexivity. Qed.

Lemma no_main_region (html : str) :
  search main_pattern html = None -> forall body, ~ main_region html body.
Proof.
  intros Hs body (pre & attrs & post & -> & Hattrs).
  revert Hs.
  replace (pre ++ L "<main" ++ attrs ++ L ">" ++ body ++ L "</main>" ++ post)
    with (pre ++ (L "<main" ++ attrs ++ L ">" ++ body ++ L "</main>") ++ post)
    by (rewrite <- !app_assoc; reflexivity).
  apply (search_complete main_pattern _ [(1, body)]).
  unfold main_pattern. cbn [cat fold_right sem star lazy_star].
  exists (L "<main"), (attrs ++ L ">" ++ body ++ L "</main>"), [].
  split; [reflexivity|]. split; [split; reflexivity|].
  exists attrs, (L ">" ++ body ++ L "</main>"), [].
  split; [reflexivity|].
  split; [repeat split; [apply except_Forall; exact Hattrs | lia]|].
  exists (L ">"), (body ++ L "</main>"), [].
  split; [reflexivity|]. split; [split; reflexivity|].
  exists body, (L "</main>"), [(1, body)].
  split; [reflexivity|].
  split; [exists []; split; [|reflexivity];
          repeat split; [apply Forall_any | lia]|].
  exists (L "</main>"), [], [(1, body)].
  split; [rewrite app_nil_r; reflexivity|].
  split; split; reflexivity.
Qed.

Lemma no_content_region (html : str) :
  search content_pattern html = None ->
  forall body, ~ content_region html body.
Proof.
  intros Hs body (pre & a1 & v1 & v2 & a2 & post & -> & H1 & H2 & H3 & H4).
  revert Hs.
  replace (pre ++ L "<div" ++ a1 ++ Lq "class='" ++ v1 ++ L "content"
               ++ v2 ++ [dquote] ++ a2 ++ L ">" ++ body ++ L "</div>" ++ post)
    with (pre ++ (L "<div" ++ a1 ++ Lq "class='" ++ v1 ++ L "content"
               ++ v2 ++ [dquote] ++ a2 ++ L ">" ++ body ++ L "</div>") ++ post)
    by (rewrite <- !app_assoc; reflexivity).
  apply (search_complete content_pattern _ [(1, body)]).
  unfold content_pattern. cbn [cat fold_right sem star lazy_star].
  eexists (L "<div"), _, []. split; [reflexivity|]. split; [split; reflexivity|].
  eexists a1, _, []. split; [reflexivity|].
  split; [repeat split; [apply except_Forall; exact H1 | lia]|].
  eexists (Lq "class='"), _, []. split; [reflexivity|].
  split; [split; reflexivity|].
  eexists v1, _, []. split; [reflexivity|].
  split; [repeat split; [apply except_Forall; exact H2 | lia]|].
  eexists (L "content"), _, []. split; [reflexivity|].
  split; [split; reflexivity|].
  eexists v2, _, []. split; [reflexivity|].
  split; [repeat split; [apply except_Forall; exact H3 | lia]|].
  eexists [dquote], _, []. split; [reflexivity|].
  split; [split; reflexivity|].
  eexists a2, _, []. split; [reflexivity|].
  split; [repeat split; [apply except_Forall; exact H4 | lia]|].
  eexists (L ">"), _, []. split; [reflexivity|].
  split; [split; reflexivity|].
  eexists body, _, [(1, body)]. split; [reflexivity|].
  split; [exists []; split; [|reflexivity];
          repeat split; [apply Forall_any | lia]|].
  exists (L "</div>"), [], [(1, body)].
  split; [rewrite app_nil_r; reflexivity|].
  split; split; reflexivity.
Qed.

(** X7: [extract_main_content] prefers the main element to the content
    container and either of them to the whole document.  If the document
    has a [<main ...>] tag with a [</main>] after it, the result is the text
    between such a pair; if it has none, but a [<div ...>] tag with
    [content] in its class and a [</div>] after it, the result is the text
    between such a pair; only when it has neither is the result the whole
    document. *)
Theorem extract_main_content_cases :
  forall html : str,
    main_region html (extract_main_content html)
    \/ ((forall body, ~ main_region html body)
        /\ content_region html (extract_main_content html))
    \/ ((forall body, ~ main_region html body)
        /\ (forall body, ~ content_region html body)
        /\ extract_main_content html = html).
Proof.
  intros html. unfold extract_main_content.
  destruct (search main_pattern html) as [m|] eqn:Em.
  - left. destruct (search_sound _ _ _ Em) as ((pre & post & Hs) & Hsem).
    unfold main_pattern in Hsem. cbn [cat fold_right sem star lazy_star] in Hsem.
    destruct Hsem as (p1 & q1 & c1 & Ht1 & (-> & ->) & Hsem).
    destruct Hsem as (p2 & q2 & c2 & -> & (Hall2 & _ & _ & ->) & Hsem).
    destruct Hsem as (p3 & q3 & c3 & -> & (-> & ->) & Hsem).
    destruct Hsem as (p4 & q4 & c4 & -> & (c4' & (_ & _ & _ & ->) & ->) & Hsem).
    destruct Hsem as (p5 & q5 & c5 & -> & (-> & ->) & (-> & Hg)).
    unfold group. rewrite Hg. cbn [lookup Nat.eqb].
    exists pre, p2, post. split; [|apply Forall_except; exact Hall2].
    rewrite Hs, Ht1. rewrite app_nil_r, <- !app_assoc. reflexivity.
  - pose proof (no_main_region html Em) as Hmain.
    destruct (search content_pattern html) as [m|] eqn:Ec;
      [|right; right; split; [exact Hmain|];
        split; [exact (no_content_region html Ec) | reflexivity]].
    right; left. split; [exact Hmain|].
    destruct (search_sound _ _ _ Ec) as ((pre & post & Hs) & Hsem).
    unfold content_pattern in Hsem. cbn [cat fold_right sem star lazy_star] in Hsem.
    destruct Hsem as (p1 & q1 & c1 & Ht1 & (-> & ->) & Hsem).
    destruct Hsem as (p2 & q2 & c2 & -> & (Hall2 & _ & _ & ->) & Hsem).
    destruct Hsem as (p3 & q3 & c3 & -> & (-> & ->) & Hsem).
    destruct Hsem as (p4 & q4 & c4 & -> & (Hall4 & _ & _ & ->) & Hsem).
    destruct Hsem as (p5 & q5 & c5 & -> & (-> & ->) & Hsem).
    destruct Hsem as (p6 & q6 & c6 & -> & (Hall6 & _ & _ & ->) & Hsem).
    destruct Hsem as (p7 & q7 & c7 & -> & (-> & ->) & Hsem).
    destruct Hsem as (p8 & q8 & c8 & -> & (Hall8 & _ & _ & ->) & Hsem).
    destruct Hsem as (p9 & q9 & c9 & -> & (-> & ->) & Hsem).
    destruct Hsem as (p10 & q10 & c10 & -> & (c10' & (_ & _ & _ & ->) & ->) & Hsem).
    destruct Hsem as (p11 & q11 & c11 & -> & (-> & ->) & (-> & Hg)).
    unfold group. rewrite Hg. cbn [lookup Nat.eqb].
    exists pre, p2, p4, p6, p8, post.
    repeat split; try (apply Forall_except; assumption).
    rewrite Hs, Ht1. rewrite app_nil_r, <- !app_assoc. reflexivity.
Qed.

(** A main element after a content container is the one taken, and the
    container is taken when there is no main element. *)
Example extract_main_content_order :
  extract_main_content
    (Lq "<div class='content'>a</div><main id='m'>b</main>") = L "b"
  /\ extract_main_content
       (Lq "<nav>n</nav><div class='page content wide'>a</div>") = L "a"
  /\ extract_main_content (L "<p>a</p>") = L "<p>a</p>".
Proof. vm_compute. repeat split. Qed.


(** ** Parts of the input *)

Lemma part_refl (s : str) : part s s.
Proof. exists [], []. rewrite app_nil_r. reflexivity. Qed.

Lemma part_nil (s : str) : part [] s.
Proof. exists [], s. reflexivity. Qed.

Lemma part_trans (t u s : str) : part t u -> part u s -> part t s.
Proof.
  intros (p1 & q1 & ->) (p2 & q2 & ->).
  exists (p2 ++ p1), (q1 ++ q2). rewrite <- !app_assoc. reflexivity.
Qed.


Lemma part_app_l (t p1 p2 : str) : part t p1 -> part t (p1 ++ p2).
Proof.
  intros (pre & post & ->). exists pre, (post ++ p2).
  rewrite <- !app_assoc. reflexivity.
Qed.

Lemma part_app_r (t p1 p2 : str) : part t p2 -> part t (p1 ++ p2).
Proof.
  intros (pre & post & ->). exists (p1 ++ pre), post.
  rewrite <- !app_assoc. reflexivity.
Qed.

(** The groups a match sets are parts of its text. *)
Lemma sem_groups_part (r : regex) :
  forall pre c c' n v,
    sem r pre c c' -> In (n, v) c' -> In (n, v) c \/ part v pre.
Proof.
  induction r as [l | p | p lo hi g | r1 IH1 r2 IH2 | r1 IH1 r2 IH2 | g r1 IH1];
    intros pre c c' n v Hsem Hin; cbn [sem] in Hsem.
  - destruct Hsem as (_ & ->). auto.
  - destruct Hsem as (_ & ->). auto.
  - destruct Hsem as (_ & _ & _ & ->). auto.
  - destruct Hsem as (p1 & p2 & c1 & -> & H1 & H2).
    destruct (IH2 _ _ _ _ _ H2 Hin) as [Hc1 | Hp];
      [|right; apply part_app_r; exact Hp].
    destruct (IH1 _ _ _ _ _ H1 Hc1) as [Hc | Hp]; [left; exact Hc|].
    right. apply part_app_l. exact Hp.
  - destruct Hsem as [H | H]; [exact (IH1 _ _ _ _ _ H Hin) | exact (IH2 _ _ _ _ _ H Hin)].
  - destruct Hsem as (c1 & H1 & ->). destruct Hin as [Heq | Hin].
    + inversion Heq; subst. right. apply part_refl.
    + exact (IH1 _ _ _ _ _ H1 Hin).
Qed.

Lemma lookup_in (n : nat) (c : caps) : lookup n c = [] \/ In (n, lookup n c) c.
Proof.
  induction c as [|[m v] c IH]; [left; reflexivity|].
  cbn [lookup]. destruct (Nat.eqb_spec m n) as [->|Hne].
  - right. left. reflexivity.
  - destruct IH as [IH | IH]; [left; exact IH | right; right; exact IH].
Qed.

Lemma group_part (r : regex) (m : mtch) (n : nat) :
  sem r (text m) [] (groups m) -> part (group n m) (text m).
Proof.
  intros Hsem. unfold group.
  destruct (lookup_in n (groups m)) as [-> | Hin]; [apply part_nil|].
  destruct (sem_groups_part _ _ _ _ _ _ Hsem Hin) as [[] | Hp]. exact Hp.
Qed.

Lemma findall_part (r : regex) (s e : str) : In e (findall r s) -> part e s.
Proof.
  unfold findall. intros H. apply in_map_iff in H.
  destruct H as (m & <- & Hm). apply matches_in in Hm.
  exact (proj1 (pieces_matches _ _ _ _ Hm)).
Qed.


Lemma extract_main_content_part (html : str) :
  part (extract_main_content html) html.
Proof.
  unfold extract_main_content.
  destruct (search main_pattern html) as [m|] eqn:Em.
  - destruct (search_sound _ _ _ Em) as (Hp & Hsem).
    eapply part_trans; [apply (group_part _ _ _ Hsem) | exact Hp].
  - destruct (search content_pattern html) as [m|] eqn:Ec; [|apply part_refl].
    destruct (search_sound _ _ _ Ec) as (Hp & Hsem).
    eapply part_trans; [apply (group_part _ _ _ Hsem) | exact Hp].
Qed.

(** ** A document without a backslash *)
















(** ** The table of contents *)

Lemma subseq_refl (s : str) : subseq s s.
Proof. induction s; constructor; assumption. Qed.

Lemma subseq_app (t1 s1 t2 s2 : str) :
  subseq t1 s1 -> subseq t2 s2 -> subseq (t1 ++ t2) (s1 ++ s2).
Proof.
  intros H1 H2. induction H1; simpl; [exact H2 | |]; constructor; assumption.
Qed.

Lemma subseq_trans (t u s : str) : subseq t u -> subseq u s -> subseq t s.
Proof.
  intros H1 H2. revert t H1.
  induction H2 as [|x u s H2 IH|x u s H2 IH]; intros t H1.
  - exact H1.
  - constructor. apply IH. exact H1.
  - inversion H1; subst.
    + apply subseq_skip. apply IH. assumption.
    + apply subseq_take. apply IH. assumption.
Qed.

Lemma subseq_nil_l (s : str) : subseq [] s.
Proof. induction s; constructor; assumption. Qed.

Lemma subseq_insert (a m b : str) : subseq (a ++ b) (a ++ m ++ b).
Proof.
  apply subseq_app; [apply subseq_refl|].
  rewrite <- (app_nil_l b) at 1. apply subseq_app;
    [apply subseq_nil_l | apply subseq_refl].
Qed.

Lemma sub_fun_pieces (r : regex) (f : mtch -> str) (s : str) :
  sub_fun r f s = flat_map (piece_sub f) (pieces r 0 s).
Proof. reflexivity. Qed.

Lemma pieces_subseq (f : mtch -> str) (ps : list piece) :
  (forall m, In (Match m) ps -> subseq (text m) (f m)) ->
  subseq (flat_map piece_text ps) (flat_map (piece_sub f) ps).
Proof.
  induction ps as [|p ps IH]; intros H; [constructor|].
  cbn [flat_map]. apply subseq_app.
  - destruct p as [x|m]; [apply subseq_refl|].
    apply H. left. reflexivity.
  - apply IH. intros m Hm. apply H. right. exact Hm.
Qed.

Lemma pieces_no_match (f : mtch -> str) (ps : list piece) :
  (forall m, ~ In (Match m) ps) ->
  flat_map (piece_sub f) ps = flat_map piece_text ps.
Proof.
  induction ps as [|p ps IH]; intros H; [reflexivity|].
  cbn [flat_map]. rewrite IH.
  - destruct p as [x|m]; [reflexivity|].
    exfalso. apply (H m). left. reflexivity.
  - intros m Hm. apply (H m). right. exact Hm.
Qed.

Lemma sem_groupfree (r : regex) :
  forall pre c c', groupfree r = true -> sem r pre c c' -> c' = c.
Proof.
  induction r as [l | p | p lo hi g | r1 IH1 r2 IH2 | r1 IH1 r2 IH2 | n r1 IH1];
    intros pre c c' Hg Hsem; cbn [sem groupfree] in *.
  - tauto.
  - tauto.
  - tauto.
  - apply andb_true_iff in Hg. destruct Hg as (Hg1 & Hg2).
    destruct Hsem as (p1 & p2 & c1 & _ & H1 & H2).
    rewrite (IH2 _ _ _ Hg2 H2). exact (IH1 _ _ _ Hg1 H1).
  - apply andb_true_iff in Hg. destruct Hg as (Hg1 & Hg2).
    destruct Hsem as [H | H]; [exact (IH1 _ _ _ Hg1 H) | exact (IH2 _ _ _ Hg2 H)].
  - discriminate.
Qed.

Lemma sem_cat_lit (f : str) (l : list regex) :
  forall pre c c', sem (cat l) pre c c' -> In (Lit f) l -> part f pre.
Proof.
  induction l as [|r l IH]; intros pre c c' Hsem Hin; [contradiction|].
  cbn [cat fold_right sem] in Hsem. fold (cat l) in Hsem.
  destruct Hsem as (p1 & p2 & c1 & -> & H1 & H2).
  destruct Hin as [-> | Hin].
  - cbn [sem] in H1. destruct H1 as (-> & _). apply part_app_l, part_refl.
  - apply part_app_r. exact (IH _ _ _ H2 Hin).
Qed.

(** A match of the pattern of the links: its text is group 1 followed by
    group 2, and the file name is in group 1. *)
Lemma toc_match_shape (html_file : str) (m : mtch) :
  sem (toc_pattern html_file) (text m) [] (groups m) ->
  text m = group 1 m ++ group 2 m /\ part html_file (text m).
Proof.
  unfold toc_pattern. intros Hsem.
  cbn [cat fold_right] in Hsem.
  match type of Hsem with
  | sem (Cat (Grp 1 ?X) (Cat (Grp 2 ?Y) (Lit []))) _ _ _ =>
      set (X0 := X) in *; set (Y0 := Y) in *
  end.
  cbn [sem] in Hsem.
  destruct Hsem as (p1 & p2 & c1 & Ht & (c1' & HX & ->) & Hsem).
  destruct Hsem as (q1 & q2 & c2 & -> & (c2' & HY & ->) & (-> & Hg)).
  assert (Hc1 : c1' = []) by (apply (sem_groupfree X0 p1); [reflexivity | exact HX]).
  assert (Hc2 : c2' = (1, p1) :: c1')
    by (apply (sem_groupfree Y0 q1); [reflexivity | exact HY]).
  subst c1' c2'. unfold group. rewrite Hg. cbn [lookup Nat.eqb].
  rewrite app_nil_r in Ht. split; [exact Ht|].
  rewrite Ht. apply part_app_l.
  refine (sem_cat_lit html_file
            [Lit (L "<a"); star (except (chr ">")); Lit (Lq "href='");
             star (except dquote); Lit html_file; star (except dquote);
             Lit [dquote]; star (except (chr ">")); Lit (Lq "class='");
             star (except dquote); Lit [dquote]] p1 [] [] HX _).
  simpl. auto 10.
Qed.

Lemma toc_step_subseq (html_file html : str) :
  subseq html (sub_fun (toc_pattern html_file) add_toc_highlight_class html).
Proof.
  rewrite sub_fun_pieces.
  rewrite <- (pieces_text (toc_pattern html_file) html 0) at 1.
  apply pieces_subseq. intros m Hm.
  destruct (pieces_matches _ _ _ _ Hm) as (_ & Hsem).
  destruct (toc_match_shape _ _ Hsem) as (Ht & _).
  unfold add_toc_highlight_class. rewrite Ht. apply subseq_insert.
Qed.

(** X9: [highlight_toc_entries] only inserts text: the document it is
    given is what is left of its result when some characters are taken
    out, so no character of the navigation markup is deleted, changed or
    moved. *)
Theorem toc_entries_only_insert :
  forall (html : str) (changed_files : list str),
    subseq html (highlight_toc_entries html changed_files).
Proof.
  intros html files. unfold highlight_toc_entries.
  destruct files as [|f files]; [apply subseq_refl|].
  generalize (nodup (list_eq_dec N.eq_dec) (f :: files)). intros l.
  revert html. induction l as [|g l IH]; intros html; [apply subseq_refl|].
  cbn [fold_left].
  eapply subseq_trans; [apply (toc_step_subseq g html) | apply IH].
Qed.

Lemma toc_step_unrelated (html_file html : str) :
  ~ part html_file html ->
  sub_fun (toc_pattern html_file) add_toc_highlight_class html = html.
Proof.
  intros H. rewrite sub_fun_pieces, pieces_no_match.
  - apply (pieces_text (toc_pattern html_file) html 0).
  - intros m Hm. destruct (pieces_matches _ _ _ _ Hm) as (Hp & Hsem).
    destruct (toc_match_shape _ _ Hsem) as (_ & Hf).
    apply H. exact (part_trans _ _ _ Hf Hp).
Qed.

(** X10: a navigation document in which none of the changed file names
    occurs comes back as it is. *)
Theorem toc_unrelated_document_unchanged :
  forall (html : str) (changed_files : list str),
    (forall html_file, In html_file changed_files -> ~ part html_file html) ->
    highlight_toc_entries html changed_files = html.
Proof.
  intros html files H. unfold highlight_toc_entries.
  destruct files as [|f files]; [reflexivity|].
  assert (Hl : forall g, In g (nodup (list_eq_dec N.eq_dec) (f :: files)) ->
                         ~ part g html).
  { intros g Hg. apply H. exact (proj1 (nodup_In _ _ _) Hg). }
  revert Hl. generalize (nodup (list_eq_dec N.eq_dec) (f :: files)). intros l.
  induction l as [|g l IH]; intros Hl; [reflexivity|].
  cbn [fold_left]. rewrite toc_step_unrelated by (apply Hl; left; reflexivity).
  apply IH. intros g' Hg'. apply Hl. right. exact Hg'.
Qed.

Lemma toc_unrelated_document_unchanged_witness :
  (forall html_file, In html_file [L "z"] ->
                     ~ part html_file (Lq "<a href='a' class='b' id='c'>"))
  /\ highlight_toc_entries (Lq "<a href='a' class='b' id='c'>") [L "z"]
     = Lq "<a href='a' class='b' id='c'>".
Proof.
  assert (H : forall html_file, In html_file [L "z"] ->
                ~ part html_file (Lq "<a href='a' class='b' id='c'>")).
  { intros f [<- | []] (pre & post & Heq).
    assert (Hin : In (chr "z") (Lq "<a href='a' class='b' id='c'>")).
    { rewrite Heq. apply in_or_app. right. left. reflexivity. }
    vm_compute in Hin. intuition discriminate. }
  split; [exact H|].
  apply (toc_unrelated_document_unchanged
           (Lq "<a href='a' class='b' id='c'>") [L "z"] H).
Defined.


(** ** Normalized markup *)

(** A character between the matches of a scan is one at which the pattern
    found no match, or only an empty one. *)
Lemma pieces_plain_unmatched (r : regex) (s : str) :
  forall skip x,
    In (Plain x) (pieces r skip s) ->
    exists s', match_ r (x :: s') = None
               \/ exists m, match_ r (x :: s') = Some m /\ text m = [].
Proof.
  induction s as [|x0 s IH]; intros skip x H.
  - destruct skip; cbn [pieces] in H; [|contradiction].
    destruct (match_ r []); [destruct H as [H | []]; discriminate | contradiction].
  - destruct skip as [|n]; cbn [pieces] in H; [|exact (IH _ _ H)].
    destruct (match_ r (x0 :: s)) as [m|] eqn:E.
    + destruct H as [H | H]; [discriminate|].
      destruct (text m) as [|y t] eqn:Et; [|exact (IH _ _ H)].
      destruct H as [H | H]; [|exact (IH _ _ H)].
      inversion H; subst x0. exists s. right. exists m. auto.
    + destruct H as [H | H]; [|exact (IH _ _ H)].
      inversion H; subst x0. exists s. left. exact E.
Qed.

Lemma spaces_start (x : char) (s : str) :
  isspace x = true -> match_ spaces_pattern (x :: s) <> None.
Proof.
  intros Hx. unfold match_, spaces_pattern, plus. cbn [run rep].
  rewrite Hx. cbn [pred option_map].
  match goal with
  | |- context [rep isspace true 0 None s ?k] =>
      pose proof (rep_total isspace true s None k) as Hr;
      destruct (rep isspace true 0 None s k); [discriminate|]
  end.
  exfalso. apply Hr; [|reflexivity]. intros s'. discriminate.
Qed.

Lemma sub_spaces_in (s : str) (c : char) :
  In c (sub_plain spaces_pattern (L " ") s) -> c = 32%N \/ isspace c = false.
Proof.
  unfold sub_plain. rewrite sub_fun_pieces. intros H.
  apply in_flat_map in H. destruct H as (p & Hp & Hc).
  destruct p as [x|m]; cbn [piece_sub] in Hc.
  - destruct Hc as [<- | []]. right.
    destruct (pieces_plain_unmatched _ _ _ _ Hp) as (s' & [Hnone | (m & Hm & Ht)]).
    + destruct (isspace x) eqn:Ex; [|reflexivity].
      exfalso. exact (spaces_start x s' Ex Hnone).
    + destruct (match_sound _ _ _ Hm) as (_ & Hsem).
      unfold spaces_pattern, plus in Hsem. cbn [sem] in Hsem.
      destruct Hsem as (_ & Hlen & _). rewrite Ht in Hlen. simpl in Hlen. lia.
  - left. destruct Hc as [<- | []]. reflexivity.
Qed.

Lemma sub_delete_in (r : regex) (s : str) (c : char) :
  In c (sub_plain r [] s) -> In c s.
Proof.
  unfold sub_plain. rewrite sub_fun_pieces. intros H.
  apply in_flat_map in H. destruct H as (p & Hp & Hc).
  destruct p as [x|m]; cbn [piece_sub] in Hc; [|contradiction].
  destruct Hc as [<- | []]. exact (pieces_plain _ _ _ _ Hp).
Qed.

Lemma lstrip_in (s : str) (c : char) : In c (lstrip s) -> In c s.
Proof.
  induction s as [|x s IH]; simpl; [auto|].
  destruct (isspace x); [intros H; right; exact (IH H) | auto].
Qed.

Lemma strip_in (s : str) (c : char) : In c (strip s) -> In c s.
Proof.
  unfold strip, rstrip. intros H.
  apply in_rev in H. apply lstrip_in in H. apply in_rev in H.
  apply lstrip_in. exact H.
Qed.

(** X11: the only whitespace [normalize_html] leaves is the space
    character; in particular its result holds no line break, so it is a
    single line. *)
Theorem normalize_html_only_spaces :
  forall html : str,
    (forall c, In c (normalize_html html) -> isspace c = true -> c = 32%N)
    /\ ~ In 10%N (normalize_html html).
Proof.
  intros html.
  assert (H : forall c, In c (normalize_html html) ->
                        isspace c = true -> c = 32%N).
  { intros c Hin Hc. unfold normalize_html in Hin.
    apply strip_in in Hin. apply sub_delete_in in Hin.
    destruct (sub_spaces_in _ _ Hin) as [-> | Hn]; [reflexivity | congruence]. }
  split; [exact H|].
  intros Hin. specialize (H _ Hin eq_refl). discriminate.
Qed.


(** ** The matching blocks form a staircase

    [get_matching_blocks] returns blocks in ascending order in both
    sequences, none overlapping another, the last one being the sentinel
    [(len(a), len(b), 0)]. *)

Lemma lay_weaken (l : list item) (i j i' j' ie je : nat) :
  i' <= i -> j' <= j -> lay i j l ie je -> lay i' j' l ie je.
Proof.
  destruct l as [|[[[bi bj] bk]|[[[alo ahi] blo] bhi]] l]; simpl; intros; lia || intuition lia.
Qed.

Lemma lay_append (x l : list item) :
  forall i j mi mj ie je,
    lay i j x mi mj -> lay mi mj l ie je -> lay i j (x ++ l) ie je.
Proof.
  induction x as [|[[[bi bj] bk]|[[[alo ahi] blo] bhi]] x IH];
    intros i j mi mj ie je Hx Hl; simpl in *.
  - destruct Hx. apply lay_weaken with mi mj; assumption.
  - destruct Hx as (H1 & H2 & H3 & H4). repeat split; auto.
    exact (IH _ _ _ _ _ _ H4 Hl).
  - destruct Hx as (H1 & H2 & H3 & H4 & H5). repeat split; auto.
    exact (IH _ _ _ _ _ _ H5 Hl).
Qed.

(** A window of the layout can be replaced by a layout of its inside. *)
Lemma lay_replace (l1 l2 x : list item) (alo ahi blo bhi : nat) :
  forall i j ie je,
    lay i j (l1 ++ Win (alo, ahi, blo, bhi) :: l2) ie je ->
    lay alo blo x ahi bhi ->
    lay i j (l1 ++ x ++ l2) ie je /\ alo <= ahi /\ blo <= bhi.
Proof.
  induction l1 as [|[[[bi bj] bk]|[[[alo' ahi'] blo'] bhi']] l1 IH];
    intros i j ie je Hl Hx; simpl in Hl |- *.
  - destruct Hl as (H1 & H2 & H3 & H4 & H5). split; [|auto].
    apply lay_weaken with alo blo; auto.
    exact (lay_append _ _ _ _ _ _ _ _ Hx H5).
  - destruct Hl as (H1 & H2 & H3 & H4).
    destruct (IH _ _ _ _ H4 Hx) as (H & Hw). tauto.
  - destruct Hl as (H1 & H2 & H3 & H4 & H5).
    destruct (IH _ _ _ _ H5 Hx) as (H & Hw). tauto.
Qed.

Lemma blocks_of_app (l1 l2 : list item) :
  blocks_of (l1 ++ l2) = blocks_of l1 ++ blocks_of l2.
Proof. apply flat_map_app. Qed.

Lemma wins_of_app (l1 l2 : list item) :
  wins_of (l1 ++ l2) = wins_of l1 ++ wins_of l2.
Proof. apply flat_map_app. Qed.

Lemma wins_of_in (w : window) (l : list item) :
  In w (wins_of l) -> In (Win w) l.
Proof.
  unfold wins_of. rewrite in_flat_map. intros (x & Hx & Hw).
  destruct x as [b|w']; [contradiction|].
  destruct Hw as [<- | []]. exact Hx.
Qed.

(** The blocks of a layout are a staircase, each with at least one
    element. *)
Lemma lay_stairs (l : list item) :
  forall i j ie je,
    lay i j l ie je ->
    stairs i j (blocks_of l) ie je
    /\ Forall (fun b : Difflib.block => 1 <= snd b) (blocks_of l).
Proof.
  assert (Hw : forall l i j i' j' ie je,
             i' <= i -> j' <= j -> stairs i j l ie je -> stairs i' j' l ie je).
  { intros [|[[bi bj] bk] l0]; simpl; intros; intuition lia. }
  induction l as [|[[[bi bj] bk]|[[[alo ahi] blo] bhi]] l IH];
    intros i j ie je H; simpl in H.
  - simpl. auto.
  - destruct H as (H1 & H2 & H3 & H4). destruct (IH _ _ _ _ H4) as (Hs & Hk).
    simpl. split; [auto | constructor; [exact H3 | exact Hk]].
  - destruct H as (H1 & H2 & H3 & H4 & H5).
    destruct (IH _ _ _ _ H5) as (Hs & Hk).
    change (blocks_of (Win (alo, ahi, blo, bhi) :: l)) with (blocks_of l).
    split; [|exact Hk]. apply Hw with ahi bhi; [lia | lia | exact Hs].
Qed.


Lemma lay_win_ok (l1 l2 : list item) (alo ahi blo bhi : nat) :
  forall i j ie je,
    lay i j (l1 ++ Win (alo, ahi, blo, bhi) :: l2) ie je ->
    alo <= ahi /\ blo <= bhi.
Proof.
  induction l1 as [|[[[bi bj] bk]|[[[alo' ahi'] blo'] bhi']] l1 IH];
    intros i j ie je Hl; simpl in Hl.
  - tauto.
  - destruct Hl as (_ & _ & _ & H). exact (IH _ _ _ _ H).
  - destruct Hl as (_ & _ & _ & _ & H). exact (IH _ _ _ _ H).
Qed.

Lemma perm_insert {T : Type} (l1 l2 x y q : list T) :
  Permutation x y -> Permutation (l1 ++ l2) q ->
  Permutation (l1 ++ x ++ l2) (y ++ q).
Proof.
  intros Hx Hq.
  apply Permutation_trans with (x ++ l1 ++ l2);
    [apply Permutation_app_swap_app|].
  apply Permutation_app; assumption.
Qed.

Section Staircase.
Context {A : Type}.
Variable eqb : A -> A -> bool.
Variables a b : list A.

Import Difflib.

(** The blocks found so far and the windows of the queue fit in one
    layout, round after round. *)
Lemma blocks_loop_layout (la lb : nat) :
  forall fuel queue acc l,
    lay 0 0 l la lb ->
    Permutation (blocks_of l) acc ->
    Permutation (wins_of l) queue ->
    exists l',
      lay 0 0 l' la lb
      /\ Permutation (blocks_of l') (blocks_loop eqb a b fuel queue acc).
Proof.
  induction fuel as [|fuel IH]; intros queue acc l Hlay Hacc Hq.
  - exists l. auto.
  - destruct queue as [|[[[alo ahi] blo] bhi] queue]; [exists l; auto|].
    cbn [blocks_loop].
    assert (Hin : In (Win (alo, ahi, blo, bhi)) l).
    { apply wins_of_in. apply (Permutation_in _ (Permutation_sym Hq)).
      left. reflexivity. }
    destruct (in_split _ _ Hin) as (l1 & l2 & ->).
    rewrite wins_of_app in Hq. cbn [wins_of flat_map app] in Hq.
    fold (wins_of l2) in Hq.
    apply Permutation_sym, Permutation_cons_app_inv, Permutation_sym in Hq.
    rewrite blocks_of_app in Hacc. cbn [blocks_of flat_map app] in Hacc.
    fold (blocks_of l2) in Hacc.
    destruct (lay_win_ok _ _ _ _ _ _ _ _ _ _ Hlay) as (Hwa & Hwb).
    pose proof (find_longest_match_fits eqb a b alo ahi blo bhi Hwa Hwb) as Hfit.
    destruct (find_longest_match eqb a b alo ahi blo bhi) as [[i j] k].
    destruct Hfit as (Hi & Hj & Hik & Hjk).
    destruct (Nat.eqb_spec k 0) as [Hk|Hk].
    + apply (IH queue acc (l1 ++ [] ++ l2)).
      * apply (lay_replace l1 l2 [] alo ahi blo bhi 0 0 la lb Hlay).
        simpl. auto.
      * rewrite blocks_of_app. exact Hacc.
      * rewrite wins_of_app. exact Hq.
    + set (wl := if (alo <? i) && (blo <? j) then [(alo, i, blo, j)] else []).
      set (wr := if (i + k <? ahi) && (j + k <? bhi)
                 then [(i + k, ahi, j + k, bhi)] else []).
      set (x := map Win wl ++ Blk (i, j, k) :: map Win wr).
      assert (Hx : lay alo blo x ahi bhi).
      { unfold x, wl, wr.
        destruct ((alo <? i) && (blo <? j)),
                 ((i + k <? ahi) && (j + k <? bhi)); simpl; lia. }
      assert (Hbx : blocks_of x = [(i, j, k)]).
      { unfold x, wl, wr.
        destruct ((alo <? i) && (blo <? j)),
                 ((i + k <? ahi) && (j + k <? bhi)); reflexivity. }
      assert (Hwx : wins_of x = wl ++ wr).
      { unfold x, wl, wr.
        destruct ((alo <? i) && (blo <? j)),
                 ((i + k <? ahi) && (j + k <? bhi)); reflexivity. }
      apply (IH _ _ (l1 ++ x ++ l2)).
      * exact (proj1 (lay_replace l1 l2 x alo ahi blo bhi 0 0 la lb Hlay Hx)).
      * rewrite !blocks_of_app, Hbx.
        apply Permutation_trans with ([(i, j, k)] ++ acc);
          [apply perm_insert; [apply Permutation_refl | exact Hacc]
          | apply Permutation_app_comm].
      * rewrite !wins_of_app, Hwx.
        replace (if (i + k <? ahi) && (j + k <? bhi)
                 then (i + k, ahi, j + k, bhi)
                      :: (if (alo <? i) && (blo <? j)
                          then (alo, i, blo, j) :: queue else queue)
                 else if (alo <? i) && (blo <? j)
                      then (alo, i, blo, j) :: queue else queue)
          with ((wr ++ wl) ++ queue)
          by (unfold wl, wr;
              destruct ((alo <? i) && (blo <? j)),
                       ((i + k <? ahi) && (j + k <? bhi)); reflexivity).
        apply perm_insert; [apply Permutation_app_comm | exact Hq].
Qed.

End Staircase.


Lemma block_leb_le (x y : Difflib.block) :
  Difflib.block_leb x y = true <-> block_le x y.
Proof.
  destruct x as [[i1 j1] k1], y as [[i2 j2] k2]. unfold Difflib.block_leb, block_le.
  destruct (Nat.ltb_spec i1 i2), (Nat.eqb_spec i1 i2), (Nat.ltb_spec j1 j2),
           (Nat.eqb_spec j1 j2), (Nat.leb_spec k1 k2); simpl;
    split; intros; try discriminate; try reflexivity; lia.
Qed.

Lemma block_le_total (x y : Difflib.block) : block_le x y \/ block_le y x.
Proof.
  destruct x as [[i1 j1] k1], y as [[i2 j2] k2]. unfold block_le. lia.
Qed.

Lemma block_le_trans (x y z : Difflib.block) :
  block_le x y -> block_le y z -> block_le x z.
Proof.
  destruct x as [[i1 j1] k1], y as [[i2 j2] k2], z as [[i3 j3] k3].
  unfold block_le. lia.
Qed.

Lemma block_le_antisym (x y : Difflib.block) :
  block_le x y -> block_le y x -> x = y.
Proof.
  destruct x as [[i1 j1] k1], y as [[i2 j2] k2]. unfold block_le.
  intros H1 H2. assert (i1 = i2 /\ j1 = j2 /\ k1 = k2) as (-> & -> & ->) by lia.
  reflexivity.
Qed.

Lemma insert_block_perm (x : Difflib.block) (l : list Difflib.block) :
  Permutation (x :: l) (Difflib.insert_block x l).
Proof.
  induction l as [|y l IH]; [apply Permutation_refl|].
  cbn [Difflib.insert_block]. destruct (Difflib.block_leb x y);
    [apply Permutation_refl|].
  apply Permutation_trans with (y :: x :: l); [apply perm_swap|].
  apply perm_skip. exact IH.
Qed.

Lemma sort_blocks_perm (l : list Difflib.block) :
  Permutation l (Difflib.sort_blocks l).
Proof.
  induction l as [|x l IH]; [apply Permutation_refl|].
  cbn [Difflib.sort_blocks fold_right]. fold (Difflib.sort_blocks l).
  apply Permutation_trans with (x :: Difflib.sort_blocks l);
    [apply perm_skip; exact IH | apply insert_block_perm].
Qed.

Lemma insert_block_sorted (x : Difflib.block) (l : list Difflib.block) :
  StronglySorted block_le l -> StronglySorted block_le (Difflib.insert_block x l).
Proof.
  induction l as [|y l IH]; intros Hl; cbn [Difflib.insert_block].
  - repeat constructor.
  - inversion Hl as [|? ? Hl' Hy]; subst.
    destruct (Difflib.block_leb x y) eqn:E.
    + apply block_leb_le in E. constructor; [exact Hl|].
      constructor; [exact E|].
      eapply Forall_impl; [|exact Hy]. intros z Hz.
      exact (block_le_trans _ _ _ E Hz).
    + assert (Hyx : block_le y x).
      { destruct (block_le_total x y) as [H | H]; [|exact H].
        apply block_leb_le in H. congruence. }
      constructor; [apply IH; exact Hl'|].
      apply Forall_forall. intros z Hz.
      apply (Permutation_in _ (Permutation_sym (insert_block_perm x l))) in Hz.
      destruct Hz as [<- | Hz]; [exact Hyx|].
      rewrite Forall_forall in Hy. exact (Hy z Hz).
Qed.

Lemma sort_blocks_sorted (l : list Difflib.block) :
  StronglySorted block_le (Difflib.sort_blocks l).
Proof.
  induction l as [|x l IH]; [constructor|].
  cbn [Difflib.sort_blocks fold_right]. fold (Difflib.sort_blocks l).
  apply insert_block_sorted. exact IH.
Qed.

Lemma sorted_unique (l1 : list Difflib.block) :
  forall l2,
    StronglySorted block_le l1 -> StronglySorted block_le l2 ->
    Permutation l1 l2 -> l1 = l2.
Proof.
  induction l1 as [|x l1 IH]; intros l2 H1 H2 Hp.
  - apply Permutation_nil in Hp. congruence.
  - destruct l2 as [|y l2];
      [apply Permutation_sym, Permutation_nil in Hp; discriminate|].
    inversion H1 as [|? ? H1' Hx]; subst.
    inversion H2 as [|? ? H2' Hy]; subst.
    assert (Hxy : x = y).
    { assert (Hx2 : In x (y :: l2))
        by (apply (Permutation_in _ Hp); left; reflexivity).
      assert (Hy1 : In y (x :: l1))
        by (apply (Permutation_in _ (Permutation_sym Hp)); left; reflexivity).
      destruct Hx2 as [Heq | Hx2]; [congruence|].
      destruct Hy1 as [Heq | Hy1]; [congruence|].
      rewrite Forall_forall in Hx, Hy.
      apply block_le_antisym; auto. }
    subst y. f_equal. apply IH; auto.
    exact (Permutation_cons_inv Hp).
Qed.

Lemma stairs_weaken (l : list Difflib.block) (i j i' j' ie je : nat) :
  i' <= i -> j' <= j -> stairs i j l ie je -> stairs i' j' l ie je.
Proof.
  destruct l as [|[[bi bj] bk] l]; simpl; intros; intuition lia.
Qed.

Lemma stairs_sorted (l : list Difflib.block) :
  forall i j ie je,
    stairs i j l ie je ->
    Forall (fun b : Difflib.block => 1 <= snd b) l ->
    StronglySorted block_le l
    /\ Forall (fun b : Difflib.block => i <= fst (fst b)) l.
Proof.
  induction l as [|[[bi bj] bk] l IH]; intros i j ie je Hs Hk.
  - split; constructor.
  - destruct Hs as (Hi & Hj & Hs). inversion Hk as [|? ? Hk1 Hk']; subst.
    simpl in Hk1. destruct (IH _ _ _ _ Hs Hk') as (Hsorted & Hlow).
    split.
    + constructor; [exact Hsorted|].
      eapply Forall_impl; [|exact Hlow].
      intros [[i2 j2] k2] H2. simpl in H2. unfold block_le. lia.
    + constructor; [exact Hi|].
      eapply Forall_impl; [|exact Hlow]. intros z Hz. simpl in *. lia.
Qed.

Lemma collapse_stairs (l : list Difflib.block) :
  forall i1 j1 k1 ie je,
    stairs (i1 + k1) (j1 + k1) l ie je ->
    stairs i1 j1 (Difflib.collapse l i1 j1 k1) ie je.
Proof.
  induction l as [|[[i2 j2] k2] l IH]; intros i1 j1 k1 ie je H;
    cbn [Difflib.collapse].
  - simpl in H. destruct (k1 =? 0); simpl; lia.
  - destruct H as (Hi & Hj & H).
    destruct (Nat.eqb_spec (i1 + k1) i2) as [Ei|Ei];
      destruct (Nat.eqb_spec (j1 + k1) j2) as [Ej|Ej]; cbn [andb];
      try (apply IH; subst; rewrite !Nat.add_assoc; exact H);
      (specialize (IH i2 j2 k2 ie je H);
       destruct (k1 =? 0); cbn [app stairs];
       [apply stairs_weaken with i2 j2; [lia | lia | exact IH]
       | repeat split; try lia;
         apply stairs_weaken with i2 j2; [lia | lia | exact IH]]).
Qed.

Lemma stairs_snoc (l : list Difflib.block) :
  forall i j ie je,
    stairs i j l ie je -> stairs i j (l ++ [(ie, je, 0)]) ie je.
Proof.
  induction l as [|[[bi bj] bk] l IH]; intros i j ie je H; simpl in *.
  - lia.
  - destruct H as (Hi & Hj & H). repeat split; auto.
Qed.

Section StaircaseResult.
Context {A : Type}.
Variable eqb : A -> A -> bool.
Variables a b : list A.

Import Difflib.

(** The blocks of [get_matching_blocks] are a staircase from [(0, 0)] to
    [(len(a), len(b))]. *)
Lemma matching_blocks_stairs :
  stairs 0 0 (get_matching_blocks eqb a b) (length a) (length b).
Proof.
  unfold get_matching_blocks.
  destruct (blocks_loop_layout eqb a b (length a) (length b)
              (2 * length a + 1) [(0, length a, 0, length b)] []
              [Win (0, length a, 0, length b)])
    as (l' & Hlay & Hperm).
  - simpl. lia.
  - apply Permutation_refl.
  - apply Permutation_refl.
  - destruct (lay_stairs _ _ _ _ _ Hlay) as (Hs & Hk).
    destruct (stairs_sorted _ _ _ _ _ Hs Hk) as (Hsorted & _).
    assert (Heq : blocks_of l'
                  = sort_blocks (blocks_loop eqb a b (2 * length a + 1)
                                   [(0, length a, 0, length b)] [])).
    { apply sorted_unique; [exact Hsorted | apply sort_blocks_sorted|].
      eapply Permutation_trans; [exact Hperm | apply sort_blocks_perm]. }
    rewrite <- Heq. apply stairs_snoc. apply collapse_stairs. exact Hs.
Qed.

End StaircaseResult.


(** ** The ranges of the word aligner *)












(** ** The tokens of the markup *)

Lemma matches_subseq (ps : list piece) :
  subseq (concat (map text (matches ps))) (flat_map piece_text ps).
Proof.
  induction ps as [|[x|m] ps IH]; [constructor | |].
  - cbn [flat_map piece_text app]. apply subseq_skip. exact IH.
  - change (matches (Match m :: ps)) with (m :: matches ps).
    cbn [map concat flat_map piece_text].
    apply subseq_app; [apply subseq_refl | exact IH].
Qed.

Lemma matches_filter (keep : char -> bool) (ps : list piece) :
  (forall x, In (Plain x) ps -> keep x = false) ->
  filter keep (flat_map piece_text ps)
  = filter keep (concat (map text (matches ps))).
Proof.
  induction ps as [|[x|m] ps IH]; intros H; [reflexivity | |].
  - cbn [flat_map piece_text app filter].
    rewrite (H x (or_introl eq_refl)).
    apply IH. intros y Hy. apply H. right. exact Hy.
  - change (matches (Match m :: ps)) with (m :: matches ps).
    cbn [map concat flat_map piece_text]. rewrite !filter_app. f_equal.
    apply IH. intros y Hy. apply H. right. exact Hy.
Qed.

Lemma token_starts (x : char) (s : str) :
  x <> chr "<" -> match_ token_pattern (x :: s) <> None.
Proof.
  intros Hx. unfold match_, token_pattern, tag_pattern, plus.
  cbn [run cat fold_right].
  replace (strip_prefix (L "<") (x :: s)) with (@None str).
  - cbn [rep]. unfold except at 1.
    destruct (N.eqb_spec x (chr "<")) as [E|_]; [contradiction|].
    cbn [negb pred option_map].
    match goal with
    | |- context [rep ?p true 0 None s ?k] =>
        pose proof (rep_total p true s None k) as Hr;
        destruct (rep p true 0 None s k); [discriminate|]
    end.
    exfalso. apply Hr; [|reflexivity]. intros s'. discriminate.
  - change (L "<") with [chr "<"]. cbn [strip_prefix].
    destruct (N.eqb_spec (chr "<") x) as [E|_]; [congruence | reflexivity].
Qed.

Lemma token_nonempty (t : str) (c c' : caps) :
  sem token_pattern t c c' -> t <> [].
Proof.
  unfold token_pattern, tag_pattern, plus. cbn [cat fold_right sem].
  intros (c1 & [H | H] & _).
  - destruct H as (p1 & p2 & c2 & -> & (-> & _) & _). discriminate.
  - destruct H as (_ & Hlen & _). destruct t; simpl in Hlen; [lia | discriminate].
Qed.

(** X13: the tokens of [re.findall('(<[^>]+>|[^<]+)', html)], joined, are
    the markup with some characters left out, and every character left out
    is a [<]: one that opens no tag.  Every other character is in a
    token. *)
Theorem tokens_keep_all_but_lt :
  forall html : str,
    subseq (join (findall token_pattern html)) html
    /\ filter (fun c => negb (N.eqb c (chr "<"))) (join (findall token_pattern html))
       = filter (fun c => negb (N.eqb c (chr "<"))) html.
Proof.
  intros html. unfold join, findall.
  rewrite <- (pieces_text token_pattern html 0) at 2 4.
  split; [apply matches_subseq|].
  symmetry. apply matches_filter. intros x Hx.
  destruct (N.eqb_spec x (chr "<")) as [E|E]; [reflexivity|].
  exfalso.
  destruct (pieces_plain_unmatched _ _ _ _ Hx) as (s' & [Hnone | (m & Hm & Ht)]).
  - exact (token_starts x s' E Hnone).
  - destruct (match_sound _ _ _ Hm) as (_ & Hsem).
    exact (token_nonempty _ _ _ Hsem Ht).
Qed.


(** ** The word-level marks of [highlight_text_diff] *)

Lemma replace_char_in (c : char) (by_ s : str) (x : char) :
  In x (Html.replace_char c by_ s) -> In x by_ \/ (In x s /\ x <> c).
Proof.
  unfold Html.replace_char. intros H. apply in_flat_map in H.
  destruct H as (y & Hy & H). destruct (N.eqb_spec y c) as [->|Hne].
  - left. exact H.
  - right. destruct H as [<-|[]]. split; assumption.
Qed.

(** The text [html.escape] returns has no double quote and no angle
    bracket. *)
Lemma escape_safe (s : str) :
  ~ In dquote (Html.escape s) /\ ~ In (chr "<") (Html.escape s)
  /\ ~ In (chr ">") (Html.escape s).
Proof.
  unfold Html.escape.
  set (s1 := Html.replace_char (chr "&") (L "&amp;") s).
  set (s2 := Html.replace_char (chr "<") (L "&lt;") s1).
  set (s3 := Html.replace_char (chr ">") (L "&gt;") s2).
  set (s4 := Html.replace_char dquote (L "&quot;") s3).
  assert (Hlit : forall x by_, In x (L by_) ->
            existsb (N.eqb x) (L by_) = true).
  { intros x by_ H. apply existsb_exists. exists x. split; [exact H|].
    apply N.eqb_refl. }
  assert (H2 : ~ In (chr "<") s2).
  { intros H. apply replace_char_in in H. destruct H as [H|[_ H]];
      [apply Hlit in H; discriminate | congruence]. }
  assert (H3 : ~ In (chr "<") s3 /\ ~ In (chr ">") s3).
  { split; intros H; apply replace_char_in in H; destruct H as [H|[H H']];
      try (apply Hlit in H; discriminate); [exact (H2 H) | congruence]. }
  assert (H4 : ~ In (chr "<") s4 /\ ~ In (chr ">") s4 /\ ~ In dquote s4).
  { repeat split; intros H; apply replace_char_in in H;
      destruct H as [H|[H H']];
      try (apply Hlit in H; discriminate);
      [exact (proj1 H3 H) | exact (proj2 H3 H) | congruence]. }
  repeat split; intros H; apply replace_char_in in H;
    destruct H as [H|[H H']];
    try (apply Hlit in H; discriminate);
    [exact (proj2 (proj2 H4) H) | exact (proj1 H4 H)
     | exact (proj1 (proj2 H4) H)].
Qed.

Lemma firstn_add {A : Type} (n m : nat) :
  forall u : list A, firstn n u ++ firstn m (skipn n u) = firstn (n + m) u.
Proof.
  induction n as [|n IH]; intros u; [reflexivity|].
  destruct u as [|x u]; simpl; [rewrite firstn_nil; reflexivity|].
  rewrite IH. reflexivity.
Qed.

Lemma words_slice_app (w : list str) (a b c : nat) :
  a <= b -> b <= c ->
  words_slice a b w ++ words_slice b c w = words_slice a c w.
Proof.
  intros Hab Hbc. unfold words_slice.
  replace (skipn b w) with (skipn (b - a) (skipn a w))
    by (rewrite skipn_skipn; f_equal; lia).
  rewrite firstn_add. f_equal. lia.
Qed.

Lemma words_slice_empty (w : list str) (a : nat) : words_slice a a w = [].
Proof. unfold words_slice. rewrite Nat.sub_diag. reflexivity. Qed.

Lemma last_cons {A : Type} (l : list A) :
  forall x d, last (x :: l) d = last l x.
Proof.
  induction l as [|y l IH]; intros x d; [reflexivity|].
  change (last (x :: y :: l) d) with (last (y :: l) d).
  rewrite !IH. reflexivity.
Qed.

(** The pieces the opcodes of a staircase add to [result]: marks and plain
    runs whose bodies are the new words from [j] to the end of the last
    block. *)
Lemma text_pieces_segs (old_words new_words : list str) :
  forall blocks i j ie je,
    stairs i j blocks ie je ->
    let j_end := last (map (fun b : Difflib.block => snd (fst b) + snd b)
                         blocks) j in
    j <= j_end
    /\ exists segs : list seg,
         join (flat_map (text_pieces old_words new_words)
                 (Difflib.opcodes blocks i j))
         = List.concat (map render_seg segs)
         /\ List.concat (map snd segs)
            = join (words_slice j j_end new_words)
         /\ Forall (fun sg : seg =>
                      fst sg = None
                      \/ fst sg = Some (L "preview-text-added")
                      \/ exists old_run,
                           fst sg = Some (changed_with_title old_run))
                   segs.
Proof.
  induction blocks as [|[[ai bj] size] blocks IH]; intros i j ie je H.
  - simpl. split; [lia|]. exists []. rewrite words_slice_empty.
    repeat split. constructor.
  - destruct H as (Hi & Hj & H).
    destruct (IH _ _ _ _ H) as (Hend & segs & Hr & Hb & Hc).
    cbn zeta. cbn [map]. rewrite last_cons. cbn [fst snd].
    set (j_end := last (map (fun b : Difflib.block => snd (fst b) + snd b)
                          blocks) (bj + size)) in *.
    split; [lia|].
    assert (Heq : exists segs_e : list seg,
              join (flat_map (text_pieces old_words new_words)
                      (if size =? 0 then []
                       else [(Difflib.Equal, ai, ai + size, bj, bj + size)]))
              = List.concat (map render_seg segs_e)
              /\ List.concat (map snd segs_e)
                 = join (words_slice bj (bj + size) new_words)
              /\ Forall (fun sg : seg =>
                      fst sg = None
                      \/ fst sg = Some (L "preview-text-added")
                      \/ exists old_run,
                           fst sg = Some (changed_with_title old_run))
                   segs_e).
    { destruct (Nat.eqb_spec size 0) as [->|Hne].
      - exists []. rewrite Nat.add_0_r, words_slice_empty.
        repeat split. constructor.
      - exists [(None, join (words_slice bj (bj + size) new_words))].
        cbn [flat_map text_pieces map render_seg fst snd List.concat].
        rewrite !app_nil_r. repeat split.
        constructor; [left; reflexivity | constructor]. }
    assert (Hgap : exists segs_g : list seg,
              join (flat_map (text_pieces old_words new_words)
                      (if (i <? ai) && (j <? bj)
                       then [(Difflib.Replace, i, ai, j, bj)]
                       else if i <? ai then [(Difflib.Delete, i, ai, j, bj)]
                       else if j <? bj then [(Difflib.Insert, i, ai, j, bj)]
                       else []))
              = List.concat (map render_seg segs_g)
              /\ List.concat (map snd segs_g)
                 = join (words_slice j bj new_words)
              /\ Forall (fun sg : seg =>
                      fst sg = None
                      \/ fst sg = Some (L "preview-text-added")
                      \/ exists old_run,
                           fst sg = Some (changed_with_title old_run))
                   segs_g).
    { destruct (Nat.ltb_spec i ai), (Nat.ltb_spec j bj); cbn [andb].
      - exists [(Some (changed_with_title
                         (join (words_slice i ai old_words))),
                 join (words_slice j bj new_words))].
        split; [|split].
        * unfold join. cbn [flat_map text_pieces map render_seg fst snd app].
          reflexivity.
        * cbn [map snd List.concat]. apply app_nil_r.
        * constructor; [right; right; eexists; reflexivity | constructor].
      - exists []. replace bj with j by lia. rewrite words_slice_empty.
        repeat split. constructor.
      - exists [(Some (L "preview-text-added"),
                 join (words_slice j bj new_words))].
        split; [|split].
        * unfold join. cbn [flat_map text_pieces map render_seg fst snd app].
          reflexivity.
        * cbn [map snd List.concat]. apply app_nil_r.
        * constructor; [right; left; reflexivity | constructor].
      - exists []. replace bj with j by lia. rewrite words_slice_empty.
        repeat split. constructor. }
    destruct Heq as (segs_e & Hre & Hbe & Hce).
    destruct Hgap as (segs_g & Hrg & Hbg & Hcg).
    exists (segs_g ++ segs_e ++ segs).
    cbn [Difflib.opcodes]. unfold join in *.
    split; [|split].
    + rewrite !flat_map_app, !map_app, !concat_app, Hrg, Hre, Hr.
      reflexivity.
    + rewrite !map_app, !concat_app.
      etransitivity;
        [exact (f_equal2 (@app char) Hbg (f_equal2 (@app char) Hbe Hb))|].
      rewrite <- !concat_app, words_slice_app by lia.
      rewrite words_slice_app by lia. reflexivity.
    + apply Forall_app. split; [exact Hcg|].
      apply Forall_app. split; assumption.
Qed.

(** X14: [highlight_text_diff] returns the new text cut into pieces, some of
    them wrapped in a mark: taking the bodies of the pieces in order gives
    [new_text] back.  A mark is of class [preview-text-added], or of class
    [preview-text-changed] with a title [Modified from: ...] whose value has
    no double quote and no angle bracket, so the attribute ends where the
    code closes it. *)
Theorem highlight_text_diff_keeps_text :
  forall old_text new_text : str,
    exists segs : list seg,
      highlight_text_diff old_text new_text
      = List.concat (map render_seg segs)
      /\ List.concat (map snd segs) = new_text
      /\ Forall (fun sg : seg =>
                   fst sg = None
                   \/ fst sg = Some (L "preview-text-added")
                   \/ exists title : str,
                        fst sg = Some (L "preview-text-changed"
                                       ++ Lq "' title='Modified from: "
                                       ++ title)
                        /\ ~ In dquote title
                        /\ ~ In (chr "<") title
                        /\ ~ In (chr ">") title)
                segs.
Proof.
  intros old_text new_text. unfold highlight_text_diff, Difflib.get_opcodes.
  set (old_words := findall word_pattern old_text).
  set (new_words := findall word_pattern new_text).
  destruct (text_pieces_segs old_words new_words _ 0 0 _ _
              (matching_blocks_stairs str_eqb old_words new_words))
    as (_ & segs & Hr & Hb & Hc).
  exists segs. split; [exact Hr|]. split.
  - rewrite Hb. unfold Difflib.get_matching_blocks. cbv zeta.
    rewrite map_app. cbn [map]. rewrite last_last. cbn [fst snd].
    unfold words_slice. rewrite Nat.add_0_r, Nat.sub_0_r.
    cbn [skipn]. rewrite firstn_all.
    unfold new_words, join, findall.
    rewrite <- words_all_matches. apply (pieces_text word_pattern new_text 0).
  - eapply Forall_impl; [|exact Hc].
    intros sg [H|[H|(old_run & H)]]; [left; exact H | right; left; exact H|].
    right. right. exists (Html.escape old_run).
    split; [exact H | apply escape_safe].
Qed.


(** ** The count of changes *)

Lemma splice_count (new_elem highlighted_elem : str) (st : state) :
  let st' := fst (splice new_elem highlighted_elem st) in
  changes_made st <= changes_made st'
  /\ changes_made st' <= changes_made st + 1
  /\ (changes_made st' = changes_made st ->
      highlighted_new_html st' = highlighted_new_html st).
Proof.
  unfold splice.
  destruct (sub_literal_once new_elem highlighted_elem
              (highlighted_new_html st)); simpl;
    (split; [lia|]; split; [lia|]); intros H; [exfalso; lia | reflexivity].
Qed.

(** One round counts at most one change, none for an element without text,
    and leaves the document alone when it counts none. *)
Lemma step_count (olds : list (str * str)) (st : state) (n : nat)
    (new_elem : str) :
  let st' := fst (step olds st n new_elem) in
  changes_made st <= changes_made st'
  /\ changes_made st'
     <= changes_made st
        + (if nonempty (extract_text_from_element new_elem) then 1 else 0)
  /\ (changes_made st' = changes_made st ->
      highlighted_new_html st' = highlighted_new_html st).
Proof.
  unfold step.
  destruct (nonempty (extract_text_from_element new_elem)); simpl;
    [|split; [lia|]; split; [lia|]; intros _; reflexivity].
  destruct (best_match olds 0 (used_old_indices st)
              (extract_text_from_element new_elem) None 0) as [bi br].
  destruct (classify bi br) as [idx| |];
    try (destruct (outer_tags new_elem) as [[[open_tag inner] close_tag]|]);
    try (simpl; split; [lia|]; split; [lia|]; intros _; reflexivity);
    match goal with
    | |- context [splice ?e ?h ?s] => exact (splice_count e h s)
    end.
Qed.

Lemma loop_count (olds : list (str * str)) (new_elements : list str) :
  forall st n,
    let st' := fst (loop olds st n new_elements) in
    changes_made st <= changes_made st'
    /\ changes_made st'
       <= changes_made st
          + length (filter (fun e => nonempty (extract_text_from_element e))
                      new_elements)
    /\ (changes_made st' = changes_made st ->
        highlighted_new_html st' = highlighted_new_html st).
Proof.
  induction new_elements as [|e rest IH]; intros st n; cbn [loop filter].
  - simpl. split; [lia|]. split; [lia|]. intros _. reflexivity.
  - pose proof (step_count olds st n e) as Hs. cbv zeta in Hs.
    destruct (step olds st n e) as [st1 [exn|]]; cbn [fst] in *.
    + destruct Hs as (H1 & H2 & H3).
      destruct (nonempty (extract_text_from_element e)); cbn [length];
        repeat split; try lia; exact H3.
    + specialize (IH st1 (S n)). cbv zeta in IH.
      destruct IH as (I1 & I2 & I3). destruct Hs as (H1 & H2 & H3).
      destruct (nonempty (extract_text_from_element e)); cbn [length];
        (split; [lia|]; split; [lia|]);
        intros Heq; (rewrite I3 by lia); apply H3; lia.
Qed.

(** X15: the count that [highlight_changed_elements] returns is at most the
    number of comparable elements of the new content that have text, and a
    count of zero means that the document comes back as it was given. *)
Theorem changes_counted_at_most_once :
  forall (old_html : option str) (new_html out : str) (n : nat),
    highlight_changed_elements old_html new_html = Returned (out, n) ->
    n <= length (filter (fun e => nonempty (extract_text_from_element e))
                   (findall element_pattern (extract_main_content new_html)))
    /\ (n = 0 -> out = new_html).
Proof.
  intros old_html new_html out n. unfold highlight_changed_elements.
  assert (Hnone : Returned (new_html, 0) = Returned (out, n) ->
            n <= length (filter
                           (fun e => nonempty (extract_text_from_element e))
                           (findall element_pattern
                              (extract_main_content new_html)))
            /\ (n = 0 -> out = new_html)).
  { intros H. injection H as <- <-. split; [lia | reflexivity]. }
  destruct old_html as [[|c old_html]|]; try exact Hnone.
  unfold match_and_splice.
  match goal with
  | |- context [loop ?olds ?st ?k ?news] =>
      pose proof (loop_count olds news st k) as Hl;
      destruct (loop olds st k news) as [st' [exn|]]
  end; [discriminate|].
  cbv zeta in Hl. cbn [fst changes_made highlighted_new_html] in Hl.
  intros H. injection H as <- <-.
  destruct Hl as (_ & H2 & H3). split; [lia|].
  intros H0. apply H3. exact H0.
Qed.

Lemma changes_counted_at_most_once_witness :
  exists out n,
    highlight_changed_elements (Some (L "<p>The cat sat.</p>"))
                               (L "<p>The cat slept.</p><p></p>")
    = Returned (out, n)
    /\ n <= length (filter (fun e => nonempty (extract_text_from_element e))
                      (findall element_pattern
                         (extract_main_content
                            (L "<p>The cat slept.</p><p></p>"))))
    /\ (n = 0 -> out = L "<p>The cat slept.</p><p></p>").
Proof.
  destruct (highlight_changed_elements (Some (L "<p>The cat sat.</p>"))
              (L "<p>The cat slept.</p><p></p>")) as [[out n]|e] eqn:E.
  - exists out, n. split; [reflexivity|].
    exact (changes_counted_at_most_once _ _ _ _ E).
  - vm_compute in E. discriminate E.
Defined.


(** ** The pairs of the matcher *)

(** One round adds no pair, or the pair of the new element with an old
    element that is in the list, at a ratio between the thresholds. *)
Lemma step_pair (olds : list (str * str)) (st : state) (n : nat)
    (new_elem : str) :
  let st' := fst (step olds st n new_elem) in
  matched_pairs (log st') = matched_pairs (log st)
  \/ exists idx old_text old_elem,
       matched_pairs (log st') = matched_pairs (log st) ++ [(idx, n)]
       /\ nth_error olds idx = Some (old_text, old_elem)
       /\ (SIMILARITY_THRESHOLD_MIN
           < text_ratio old_text (extract_text_from_element new_elem))%Q
       /\ (text_ratio old_text (extract_text_from_element new_elem)
           < SIMILARITY_THRESHOLD_MAX)%Q.
Proof.
  unfold step.
  destruct (nonempty (extract_text_from_element new_elem)); simpl;
    [|left; reflexivity].
  destruct (best_match olds 0 (used_old_indices st)
              (extract_text_from_element new_elem) None 0) as [bi br] eqn:Eb.
  destruct (classify bi br) as [idx| |] eqn:Ec.
  - right. apply classify_modified in Ec. destruct Ec as (-> & Hlo & Hhi).
    destruct (best_match_spec _ _ _ _ _ _ _ _ Eb)
      as (_ & _ & [[Hri _] | (p & Hri & Hcand & _)]); [discriminate|].
    injection Hri as ->. destruct Hcand as (ot & oe & Hnth & _ & Hr).
    subst br. exists p, ot, oe.
    split; [|split; [exact Hnth | split; assumption]].
    destruct (outer_tags new_elem) as [[[open_tag inner] close_tag]|].
    + match goal with
      | |- context [splice ?e ?h ?s] =>
          rewrite (proj1 (splice_keeps e h s))
      end.
      simpl. rewrite matched_pairs_app. reflexivity.
    + simpl. rewrite matched_pairs_app. reflexivity.
  - left. destruct (outer_tags new_elem) as [[[open_tag inner] close_tag]|].
    + match goal with
      | |- context [splice ?e ?h ?s] =>
          rewrite (proj1 (splice_keeps e h s))
      end.
      simpl. rewrite matched_pairs_app. simpl. apply app_nil_r.
    + simpl. rewrite matched_pairs_app. simpl. apply app_nil_r.
  - left. simpl. rewrite matched_pairs_app. simpl. apply app_nil_r.
Qed.

Lemma loop_pairs (olds : list (str * str)) (new_elements : list str) :
  forall rest seen st,
    new_elements = seen ++ rest ->
    Forall (similar_pair olds new_elements) (matched_pairs (log st)) ->
    Forall (similar_pair olds new_elements)
           (matched_pairs (log (fst (loop olds st (length seen) rest)))).
Proof.
  induction rest as [|e rest IH]; intros seen st Hnew Hok; cbn [loop];
    [exact Hok|].
  pose proof (step_pair olds st (length seen) e) as Hs. cbv zeta in Hs.
  assert (Hok' : Forall (similar_pair olds new_elements)
                   (matched_pairs
                      (log (fst (step olds st (length seen) e))))).
  { destruct Hs as [-> | (idx & ot & oe & -> & Hnth & Hlo & Hhi)];
      [exact Hok|].
    apply Forall_app. split; [exact Hok|].
    constructor; [|constructor].
    exists ot, oe, e. cbn [fst snd]. split; [exact Hnth|].
    split; [|split; assumption].
    rewrite Hnew, nth_error_app2 by lia.
    rewrite Nat.sub_diag. reflexivity. }
  destruct (step olds st (length seen) e) as [st1 [exn|]]; cbn [fst] in *;
    [exact Hok'|].
  replace (S (length seen)) with (length (seen ++ [e]))
    by (rewrite length_app; simpl; lia).
  apply IH; [|exact Hok'].
  rewrite <- app_assoc. exact Hnew.
Qed.

(** X16: every pair the matcher forms joins two elements that are there, an
    old element with text at that index and the new element at that
    position, and the ratio of their texts is above the lower threshold and
    below the upper one.  So the index used at [old_elem_list[best_match_idx]]
    is never out of range. *)
Theorem matched_pairs_are_similar :
  forall (old_html new_html : str) (idx n : nat),
    In (idx, n) (matched_pairs (log (fst (match_and_splice old_html new_html)))) ->
    similar_pair (old_elements_with_text (extract_main_content old_html))
                 (findall element_pattern (extract_main_content new_html))
                 (idx, n).
Proof.
  intros old_html new_html idx n Hin. unfold match_and_splice in Hin.
  match type of Hin with
  | context [loop ?olds ?st0 0 ?news] =>
      pose proof (loop_pairs olds news news [] st0 eq_refl) as Hl
  end.
  cbn [length] in Hl.
  assert (H := Hl (Forall_nil _)).
  rewrite Forall_forall in H. exact (H _ Hin).
Qed.

Lemma matched_pairs_are_similar_witness :
  In (0, 1)
     (matched_pairs
        (log (fst (match_and_splice
                     (L "<p>The cat sat down.</p>")
                     (L "<p>Dogs bark.</p><p>The cat sat up.</p>")))))
  /\ similar_pair
       (old_elements_with_text
          (extract_main_content (L "<p>The cat sat down.</p>")))
       (findall element_pattern
          (extract_main_content (L "<p>Dogs bark.</p><p>The cat sat up.</p>")))
       (0, 1).
Proof.
  assert (H : In (0, 1)
     (matched_pairs
        (log (fst (match_and_splice
                     (L "<p>The cat sat down.</p>")
                     (L "<p>Dogs bark.</p><p>The cat sat up.</p>")))))).
  { vm_compute. left. reflexivity. }
  split; [exact H|].
  exact (matched_pairs_are_similar _ _ _ _ H).
Defined.


(** ** Character references within the limit of [int] *)

Lemma filter_length_part (f : char -> bool) (t s : str) :
  part t s -> length (filter f t) <= length (filter f s).
Proof.
  intros (pre & post & ->). rewrite !filter_app, !length_app. lia.
Qed.

(** [html.unescape] raises nothing on a text within the limit. *)
Lemma unescape_within_limit (s : str) :
  digits_within_limit s -> Html.unescape_raises s = false.
Proof.
  unfold digits_within_limit, Html.unescape_raises. intros Hs.
  destruct (has_char (chr "&") s); [|reflexivity]. cbn [andb].
  destruct (existsb Html.replace_charref_raises
              (matches (pieces Html.charref 0 s))) eqn:E; [|reflexivity].
  exfalso. apply existsb_exists in E. destruct E as (m & Hm & Hr).
  apply matches_in in Hm.
  destruct (pieces_matches _ _ _ _ Hm) as (Hpart & Hsem).
  pose proof (group_part _ _ 1 Hsem) as Hg.
  pose proof (filter_length_part digit _ _ Hg) as H1.
  pose proof (filter_length_part digit _ _ Hpart) as H2.
  unfold Html.replace_charref_raises in Hr.
  destruct (group 1 m) as [|c s1]; [discriminate|].
  apply andb_true_iff in Hr. destruct Hr as (_ & Hr).
  unfold Html.numeric_charref_raises in Hr.
  destruct s1 as [|d s2]; [discriminate|].
  destruct (among (L "xX") d); [discriminate|].
  apply Nat.ltb_lt in Hr.
  assert (length (filter digit (d :: s2))
          <= length (filter digit (c :: d :: s2))).
  { cbn [filter]. destruct (digit c); simpl; lia. }
  lia.
Qed.

Lemma sub_delete_filter (r : regex) (f : char -> bool) (s : str) :
  length (filter f (sub_plain r [] s)) <= length (filter f s).
Proof.
  unfold sub_plain. rewrite sub_fun_pieces.
  rewrite <- (pieces_text r s 0) at 2.
  induction (pieces r 0 s) as [|[x|m] ps IH]; [simpl; lia| |].
  - cbn [flat_map piece_sub piece_text app filter].
    destruct (f x); simpl; lia.
  - cbn [flat_map piece_sub piece_text app].
    rewrite filter_app, length_app. lia.
Qed.

(** [extract_text_from_element] raises nothing on an element within the
    limit, and the elements of a document within the limit are within it. *)
Lemma extract_text_within_limit (element_html : str) :
  digits_within_limit element_html ->
  Html.unescape_raises (sub_plain tag_pattern [] element_html) = false.
Proof.
  intros H. apply unescape_within_limit. unfold digits_within_limit in *.
  pose proof (sub_delete_filter tag_pattern digit element_html). lia.
Qed.

Lemma elements_within_limit (html elem : str) :
  digits_within_limit html ->
  In elem (findall element_pattern (extract_main_content html)) ->
  digits_within_limit elem.
Proof.
  unfold digits_within_limit. intros H Hin.
  pose proof (filter_length_part digit _ _
                (part_trans _ _ _ (findall_part _ _ _ Hin)
                   (extract_main_content_part html))).
  lia.
Qed.
